(** * Minimal spanning motion-primitive generator

    smac_planner/lattice_primitives.

    A shallow embedding of [lattice_generator.py].  Floating point numbers
    are read as real numbers, numpy arrays as lists, the [defaultdict]s as
    insertion-ordered association lists, and Python exceptions as an
    explicit error result. *)

From Stdlib Require Import Reals Lra Lia ZArith List Bool Permutation Sorted.
Import ListNotations.
Local Open Scope R_scope.

(** ** Python and numpy primitives used by the generator *)

Module Py.

(** Exceptions the generator can raise. *)
Inductive exn : Type :=
| ZeroDivisionError
| AttributeError
| ValueError
| NotImplementedError.

Inductive result (A : Type) : Type :=
| Ok (a : A)
| Raise (e : exn).
Arguments Ok {A} a.
Arguments Raise {A} e.

Definition bind {A B} (r : result A) (k : A -> result B) : result B :=
  match r with
  | Ok a => k a
  | Raise e => Raise e
  end.

Definition Rltb (a b : R) : bool := if Rlt_dec a b then true else false.
Definition Rleb (a b : R) : bool := if Rle_dec a b then true else false.
Definition Reqb (a b : R) : bool := if Req_dec_T a b then true else false.

(** [a / b] on Python numbers: division by zero raises. *)
Definition div (a b : R) : result R :=
  if Reqb b 0 then Raise ZeroDivisionError else Ok (a / b).

(** [np.deg2rad] and [np.rad2deg]. *)
Definition deg2rad (d : R) : R := d * (PI / 180).
Definition rad2deg (r : R) : R := r * (180 / PI).

(** [np.floor] followed by [int]. *)
Definition floor (x : R) : Z := Int_part x.

(** [round] and [np.round]: to the nearest integer, ties to the even one. *)
Definition rint (x : R) : Z :=
  let f := Int_part x in
  let d := x - IZR f in
  if Rltb d (1 / 2) then f
  else if Rltb (1 / 2) d then (f + 1)%Z
  else if Z.even f then f else (f + 1)%Z.

(** [int] of a float: truncation toward zero. *)
Definition trunc (x : R) : Z :=
  if Rleb 0 x then Int_part x else (- Int_part (- x))%Z.

(** [a.round(5)] on an array element. *)
Definition round5 (x : R) : R := IZR (rint (x * 100000)) / 100000.

(** [np.arctan2 y x], with the value [pi] on the negative x axis and
    [0] at the origin (both arguments are never negative zero here). *)
Definition arctan2 (y x : R) : R :=
  if Rltb 0 x then atan (y / x)
  else if Rltb x 0 then
    (if Rleb 0 y then atan (y / x) + PI else atan (y / x) - PI)
  else if Rltb 0 y then PI / 2
  else if Rltb y 0 then - (PI / 2)
  else 0.

(** [a[:-1]] and [a[1:]]. *)
Definition init {A} (l : list A) : list A := removelast l.
Definition rest {A} (l : list A) : list A := tl l.

(** [zip] of three and of five sequences, stopping at the shortest. *)
Definition zip3 {A B C} (a : list A) (b : list B) (c : list C)
  : list (A * B * C) :=
  map (fun '(x, (y, z)) => (x, y, z)) (combine a (combine b c)).

Definition zip5 {A B C D E} (a : list A) (b : list B) (c : list C)
    (d : list D) (e : list E) : list (A * B * C * D * E) :=
  map (fun '(x, (y, (z, (u, v)))) => (x, y, z, u, v))
      (combine a (combine b (combine c (combine d e)))).

(** [range(lo, hi)] over integers. *)
Definition range (lo hi : Z) : list Z :=
  map (fun k => (lo + Z.of_nat k)%Z) (seq 0 (Z.to_nat (hi - lo))).

(** [np.linspace(0, stop, num)] for [num >= 0]. *)
Definition linspace0 (stop : R) (num : Z) : list R :=
  if (num =? 1)%Z then [0]
  else map (fun k => IZR k * (stop / IZR (num - 1))) (range 0 num).

End Py.
Import Py.

Notation "x <- c1 ;; c2" := (Py.bind c1 (fun x => c2))
  (at level 61, c1 at next level, right associativity).

(** ** Data model *)

(** Modelled from the spec: the [MotionModel] enumeration of
    [motion_model.py], which is not among the sources.  The generator names
    the members [ACKERMANN], [DIFF] and [OMNI]; [OtherModel] stands for any
    further member the enumeration may have. *)
Inductive MotionModel : Type :=
| ACKERMANN
| DIFF
| OMNI
| OtherModel (tag : nat).

(** Modelled from the spec: the trajectory classes of [trajectory.py], which
    is not among the sources; only the fields the generator reads. *)
Record TrajectoryParameters : Type := {
  radius : R;
  start_to_arc_distance : R;
  arc_to_end_distance : R
}.

Record TrajectoryPath : Type := {
  xs : list R;
  ys : list R;
  yaws : list R
}.

Record Trajectory : Type := {
  path : TrajectoryPath;
  parameters : TrajectoryParameters
}.

Definition Point : Type := (R * R)%type.

(** An end pose [np.array([x, y, yaw])]. *)
Definition Pose : Type := (R * R * R)%type.

(** The fields [__init__] stores on the generator (the trajectory generator
    is a parameter of the search, below). *)
Record LatticeGenerator : Type := {
  grid_separation : R;
  turning_radius : R;
  max_level : Z;
  number_of_headings : Z;
  motion_model : MotionModel
}.

(** ** Geometry utilities *)

Definition angle_difference (angle_1 angle_2 : R) : R :=
  let difference := Rabs (angle_1 - angle_2) in
  if Rltb PI difference then 2 * PI - difference else difference.

Definition inner (p q : Point) : R := fst p * fst q + snd p * snd q.
Definition psub (p q : Point) : Point := (fst p - fst q, snd p - snd q).
Definition padd (p q : Point) : Point := (fst p + fst q, snd p + snd q).
Definition pscale (t : R) (p : Point) : Point := (t * fst p, t * snd p).
Definition norm (p : Point) : R := sqrt (inner p p).

Definition point_to_line_distance (p1 p2 q : Point) : R :=
  let l2 := inner (psub p1 p2) (psub p1 p2) in
  if Reqb l2 0 then norm (psub p1 q)
  else
    let t := Rmax 0 (Rmin 1 (inner (psub q p1) (psub p2 p1) / l2)) in
    let projected_point := padd p1 (pscale t (psub p2 p1)) in
    norm (psub q projected_point).

(** ** Overlap / minimality tester *)

Definition distance_threshold (lg : LatticeGenerator) : R :=
  0.5 * grid_separation lg.

Definition rotation_threshold (lg : LatticeGenerator) : result R :=
  step <- Py.div 360 (IZR (number_of_headings lg)) ;;
  Ok (0.5 * deg2rad step).

(** The tuples the outer loop of [is_minimal_path] iterates over. *)
Definition path_segments (p : TrajectoryPath)
  : list (R * R * R * R * R) :=
  zip5 (init (xs p)) (init (ys p)) (rest (xs p)) (rest (ys p)) (init (yaws p)).

Definition overlaps (dthr rthr : R) (seg : R * R * R * R * R)
    (prior_end_point : Pose) : bool :=
  let '(x1, y1, x2, y2, yaw) := seg in
  let '(px, py, pyaw) := prior_end_point in
  Rltb (point_to_line_distance (x1, y1) (x2, y2) (px, py)) dthr
  && Rltb (angle_difference yaw pyaw) rthr.

Definition is_minimal_path (lg : LatticeGenerator)
    (trajectory_path : TrajectoryPath)
    (minimal_spanning_trajectories : list Pose) : result bool :=
  let dthr := distance_threshold lg in
  rthr <- rotation_threshold lg ;;
  Ok (negb (existsb
              (fun seg => existsb (overlaps dthr rthr seg)
                                  minimal_spanning_trajectories)
              (path_segments trajectory_path))).

(** ** Insertion-ordered dictionaries keyed by a heading value *)

Definition Dict (V : Type) : Type := list (R * V).

Definition keys {V} (d : Dict V) : list R := map fst d.

Fixpoint dict_get {V} (k : R) (d : Dict V) : option V :=
  match d with
  | [] => None
  | (k', v) :: d' => if Reqb k' k then Some v else dict_get k d'
  end.

(** [d[k] = v]: an existing key keeps its position, a new one goes last. *)
Fixpoint dict_set {V} (k : R) (v : V) (d : Dict V) : Dict V :=
  match d with
  | [] => [(k, v)]
  | (k', v') :: d' =>
      if Reqb k' k then (k', v) :: d' else (k', v') :: dict_set k v d'
  end.

(** The list stored under [k], and the empty list for a missing key. *)
Definition dd_lookup {V} (k : R) (d : Dict (list V)) : list V :=
  match dict_get k d with
  | Some l => l
  | None => []
  end.

(** Reading [d[k]] on a [defaultdict(list)] inserts a missing key. *)
Definition dd_touch {V} (k : R) (d : Dict (list V)) : Dict (list V) :=
  match dict_get k d with
  | Some _ => d
  | None => d ++ [(k, [])]
  end.

(** [d[k].append(x)] on a [defaultdict(list)]. *)
Fixpoint dd_append {V} (k : R) (x : V) (d : Dict (list V)) : Dict (list V) :=
  match d with
  | [] => [(k, [x])]
  | (k', l) :: d' =>
      if Reqb k' k then (k', l ++ [x]) :: d' else (k', l) :: dd_append k x d'
  end.

(** ** Sorting *)

(** [sorted] is stable; [lt] is the comparison [<] of the sort keys. *)
Fixpoint insert_by {A} (lt : A -> A -> bool) (x : A) (l : list A) : list A :=
  match l with
  | [] => [x]
  | y :: l' => if lt y x then y :: insert_by lt x l' else x :: y :: l'
  end.

Definition sorted_by {A} (lt : A -> A -> bool) (l : list A) : list A :=
  fold_right (insert_by lt) [] l.

(** [<] on Python lists and tuples: decided at the first differing item. *)
Fixpoint lex_lt {A} (eqb ltb : A -> A -> bool) (l1 l2 : list A) : bool :=
  match l1, l2 with
  | [], [] => false
  | [], _ :: _ => true
  | _ :: _, [] => false
  | x :: l1', y :: l2' => if eqb x y then lex_lt eqb ltb l1' l2' else ltb x y
  end.

Fixpoint lex_eq {A} (eqb : A -> A -> bool) (l1 l2 : list A) : bool :=
  match l1, l2 with
  | [], [] => true
  | x :: l1', y :: l2' => eqb x y && lex_eq eqb l1' l2'
  | _, _ => false
  end.

(** ** Heading discretizer *)

Definition max_val (lg : LatticeGenerator) : Z :=
  trunc ((((IZR (number_of_headings lg) + 4) / 4) - 1) / 2).

Definition on_side (m i : Z) : bool :=
  negb (i =? m)%Z && negb (i =? - m)%Z.

Definition outer_edge_x (m : Z) : list Z :=
  flat_map (fun i => [i; i] ++ (if on_side m i then [(- m)%Z; m] else []))
           (range (- m) (m + 1)).

Definition outer_edge_y (m : Z) : list Z :=
  flat_map (fun i => [(- m)%Z; m] ++ (if on_side m i then [i; i] else []))
           (range (- m) (m + 1)).

Definition heading_of (ij : Z * Z) : R :=
  rad2deg (arctan2 (IZR (snd ij)) (IZR (fst ij))).

Definition get_heading_discretization (lg : LatticeGenerator) : list R :=
  let m := max_val lg in
  map heading_of (combine (outer_edge_x m) (outer_edge_y m)).

(** ** Candidate endpoints and the shortest primitive *)

Definition get_coords_at_level (lg : LatticeGenerator) (level : Z)
  : list Point :=
  let max_point_coord := grid_separation lg * IZR level in
  flat_map (fun i =>
              let varying_point_coord := grid_separation lg * IZR i in
              [(max_point_coord, varying_point_coord);
               (varying_point_coord, max_point_coord)])
           (range 0 level)
  ++ [(max_point_coord, max_point_coord)].

Definition compute_min_trajectory_length (lg : LatticeGenerator) : result R :=
  inv <- Py.div 1 (IZR (number_of_headings lg)) ;;
  Ok (2 * PI * turning_radius lg * inv).

(** ** Primitives and spanning sets *)

(** The tuple [(start, end, radius, trajectory_length, arc_length,
    straight_length, poses)] stored for a primitive. *)
Record Primitive : Type := {
  start_heading : R;
  end_heading : R;
  prim_radius : R;
  total_length : R;
  arc_length : R;
  straight_length : R;
  poses : list Pose
}.

Definition SpanningSet : Type := Dict (list Primitive).

(** The draft primitives of the single-quadrant search:
    [(target_point, target_heading)] under their start heading. *)
Definition QuadrantSet : Type := Dict (list (Point * R)).

(** What a call that mutates the spanning set leaves behind: the returned
    (and mutated) object, or an exception and the object as it then is. *)
Inductive outcome : Type :=
| Returns (spanning_set : SpanningSet)
| Raises (e : exn) (spanning_set : SpanningSet).

(** [<] and [==] on the stored tuples, as [sorted] applies them. *)
Definition pose_fields (p : Pose) : list R :=
  let '(x, y, yaw) := p in [x; y; yaw].

Definition pose_eqb (p q : Pose) : bool :=
  lex_eq Reqb (pose_fields p) (pose_fields q).

Definition pose_ltb (p q : Pose) : bool :=
  lex_lt Reqb Rltb (pose_fields p) (pose_fields q).

Definition scalar_fields (p : Primitive) : list R :=
  [start_heading p; end_heading p; prim_radius p; total_length p;
   arc_length p; straight_length p].

Definition prim_eqb (p q : Primitive) : bool :=
  lex_eq Reqb (scalar_fields p) (scalar_fields q)
  && lex_eq pose_eqb (poses p) (poses q).

Definition prim_ltb (p q : Primitive) : bool :=
  if lex_eq Reqb (scalar_fields p) (scalar_fields q)
  then lex_lt pose_eqb pose_ltb (poses p) (poses q)
  else lex_lt Reqb Rltb (scalar_fields p) (scalar_fields q).

Definition prims_ltb (l1 l2 : list Primitive) : bool :=
  lex_lt prim_eqb prim_ltb l1 l2.

(** ** Spanning-set search and symmetry expander *)

Section Generator.

(** The curve generator is an external collaborator: a call may answer with
    a trajectory or with [None], and may change the collaborator's own
    state [St]. *)
Variable St : Type.
Variable generate_trajectory :
  Point -> R -> R -> R -> St -> option Trajectory * St.

(** Computations that call the generator and may raise. *)
Definition M (A : Type) : Type := St -> result A * St.

Definition ret {A} (a : A) : M A := fun s => (Ok a, s).

Definition lift {A} (r : result A) : M A := fun s => (r, s).

Definition bindM {A B} (m : M A) (k : A -> M B) : M B :=
  fun s =>
    match m s with
    | (Ok a, s') => k a s'
    | (Raise e, s') => (Raise e, s')
    end.

(** A [for] loop threading an accumulator. *)
Fixpoint for_each {X A} (l : list X) (body : X -> A -> M A) (a : A) : M A :=
  match l with
  | [] => ret a
  | x :: l' => bindM (body x a) (for_each l' body)
  end.

(** Accepted end poses for the current start heading, and the draft set. *)
Definition SearchAcc : Type := (list Pose * QuadrantSet)%type.

(** The body of the innermost loop of [generate_minimal_spanning_set]. *)
Definition try_target (lg : LatticeGenerator) (start_heading : R)
    (target_point : Point) (target_heading : R) (acc : SearchAcc)
  : M SearchAcc :=
  fun s =>
    let (trajectory, s') :=
      generate_trajectory target_point start_heading target_heading
                          (0.1 * grid_separation lg) s in
    match trajectory with
    | Some t =>
        match is_minimal_path lg (path t) (fst acc) with
        | Ok true =>
            let new_end_pose :=
              (fst target_point, snd target_point, deg2rad target_heading) in
            (Ok (fst acc ++ [new_end_pose],
                 dd_append start_heading (target_point, target_heading)
                           (snd acc)), s')
        | Ok false => (Ok acc, s')
        | Raise e => (Raise e, s')
        end
    | None => (Ok acc, s')
    end.

(** The sort key [(abs(x - start_heading), -x)], compared as a tuple. *)
Definition target_key_ltb (start_heading x y : R) : bool :=
  lex_lt Reqb Rltb [Rabs (x - start_heading); - x]
                   [Rabs (y - start_heading); - y].

Definition target_headings_of (headings : list R) (start_heading : R)
  : list R :=
  filter (fun x => Rleb (Rabs (start_heading - x)) 90)
         (sorted_by (target_key_ltb start_heading) headings).

Definition search_level (lg : LatticeGenerator) (start_heading : R)
    (target_headings : list R) (level : Z) : SearchAcc -> M SearchAcc :=
  for_each (get_coords_at_level lg level)
    (fun target_point =>
       for_each target_headings (try_target lg start_heading target_point)).

(** One iteration of the loop over the start headings; the [while] loop
    visits the levels [start_level], ..., [max_level] in turn. *)
Definition search_heading (lg : LatticeGenerator) (headings : list R)
    (start_level : Z) (start_heading : R) (set : QuadrantSet)
  : M QuadrantSet :=
  let target_headings := target_headings_of headings start_heading in
  bindM (for_each (range start_level (max_level lg + 1))
                  (search_level lg start_heading target_headings)
                  ([], set))
        (fun acc => ret (snd acc)).

Definition initial_headings_of (headings : list R) : list R :=
  sorted_by Rltb (filter (fun x => Rleb 0 x && Rltb x 90) headings).

Definition single_quadrant_search (lg : LatticeGenerator) : M QuadrantSet :=
  let single_quadrant_headings := get_heading_discretization lg in
  let initial_headings := initial_headings_of single_quadrant_headings in
  bindM (lift (compute_min_trajectory_length lg)) (fun min_trajectory_length =>
  bindM (lift (Py.div min_trajectory_length (grid_separation lg))) (fun q =>
  let start_level := floor q in
  for_each initial_headings
           (search_heading lg single_quadrant_headings start_level) [])).

(** The yaw of each segment of a path, by the arctangent of the deltas. *)
Definition segment_yaws (xs ys : list R) : list R :=
  map (fun '(xi, (yi, (xf, yf))) => arctan2 (yf - yi) (xf - xi))
      (combine (init xs) (combine (init ys) (combine (rest xs) (rest ys)))).

Definition mk_primitive (start_angle end_angle : R)
    (trajectory_info : R * R * R * R) (poses : list Pose) : Primitive :=
  let '(radius, trajectory_length, arc_length, straight_length) :=
    trajectory_info in
  {| start_heading := start_angle; end_heading := end_angle;
     prim_radius := radius; total_length := trajectory_length;
     arc_length := arc_length; straight_length := straight_length;
     poses := poses |}.

Definition append_primitive (q : Primitive) (all : SpanningSet) : SpanningSet :=
  dd_append (start_heading q) q all.

(** The primitives one draft primitive expands to, in the order in which
    they are appended. *)
Definition reflect_trajectory (start_angle end_angle : R)
    (trajectory : Trajectory) : list Primitive :=
  let xs0 := xs (path trajectory) in
  let ys0 := ys (path trajectory) in
  let flipped_xs0 := map Ropp xs0 in
  let flipped_ys0 := map Ropp ys0 in
  let yaws_quad1 := segment_yaws xs0 ys0 ++ [deg2rad end_angle] in
  let yaws_quad2 :=
    segment_yaws flipped_xs0 ys0 ++ [PI - deg2rad end_angle] in
  let yaws_quad3 :=
    segment_yaws flipped_xs0 flipped_ys0 ++ [- PI + deg2rad end_angle] in
  let yaws_quad4 := segment_yaws xs0 flipped_ys0 ++ [- deg2rad end_angle] in
  let xs := map round5 xs0 in
  let ys := map round5 ys0 in
  let flipped_xs := map round5 flipped_xs0 in
  let flipped_ys := map round5 flipped_ys0 in
  let p := parameters trajectory in
  let arc_length := 2 * PI * radius p * Rabs (start_angle - end_angle) / 360 in
  let straight_length := start_to_arc_distance p + arc_to_end_distance p in
  let trajectory_length :=
    arc_length + start_to_arc_distance p + arc_to_end_distance p in
  let trajectory_info :=
    (radius p, trajectory_length, arc_length, straight_length) in
  if Reqb start_angle 0 && Reqb end_angle 0 then
    [ mk_primitive 0 0 trajectory_info (zip3 xs ys yaws_quad1);
      mk_primitive (-180) (-180) trajectory_info
                   (zip3 flipped_xs ys yaws_quad2) ]
  else if Reqb start_angle 90 && Reqb end_angle 90 then
    [ mk_primitive start_angle end_angle trajectory_info
                   (zip3 xs ys yaws_quad1);
      mk_primitive (- start_angle) (- end_angle) trajectory_info
                   (zip3 xs flipped_ys yaws_quad4) ]
  else if Reqb start_angle 0 then
    [ mk_primitive start_angle end_angle trajectory_info
                   (zip3 xs ys yaws_quad1);
      mk_primitive (-180) (180 - end_angle) trajectory_info
                   (zip3 flipped_xs ys yaws_quad2);
      mk_primitive (-180) (end_angle - 180) trajectory_info
                   (zip3 flipped_xs flipped_ys yaws_quad3);
      mk_primitive start_angle (- end_angle) trajectory_info
                   (zip3 xs flipped_ys yaws_quad4) ]
  else if Reqb end_angle 0 then
    [ mk_primitive start_angle end_angle trajectory_info
                   (zip3 xs ys yaws_quad1);
      mk_primitive (180 - start_angle) (-180) trajectory_info
                   (zip3 flipped_xs ys yaws_quad2);
      mk_primitive (start_angle - 180) (-180) trajectory_info
                   (zip3 flipped_xs flipped_ys yaws_quad3);
      mk_primitive (- start_angle) end_angle trajectory_info
                   (zip3 xs flipped_ys yaws_quad4) ]
  else
    [ mk_primitive start_angle end_angle trajectory_info
                   (zip3 xs ys yaws_quad1);
      mk_primitive (180 - start_angle) (180 - end_angle) trajectory_info
                   (zip3 flipped_xs ys yaws_quad2);
      mk_primitive (start_angle - 180) (end_angle - 180) trajectory_info
                   (zip3 flipped_xs flipped_ys yaws_quad3);
      mk_primitive (- start_angle) (- end_angle) trajectory_info
                   (zip3 xs flipped_ys yaws_quad4) ].

(** The body of the inner loop of [create_complete_minimal_spanning_set];
    a missing trajectory makes [trajectory.path] raise. *)
Definition expand_entry (lg : LatticeGenerator) (start_angle : R)
    (entry : Point * R) (all_trajectories : SpanningSet) : M SpanningSet :=
  fun s =>
    let '(end_point, end_angle) := entry in
    let (trajectory, s') :=
      generate_trajectory end_point start_angle end_angle
                          (grid_separation lg) s in
    match trajectory with
    | None => (Raise AttributeError, s')
    | Some t =>
        (Ok (fold_left (fun all q => append_primitive q all)
                       (reflect_trajectory start_angle end_angle t)
                       all_trajectories), s')
    end.

(** The 0 degree draft primitives transposed to 90 degrees. *)
Definition transpose_to_90 (entries : list (Point * R)) : list (Point * R) :=
  map (fun '((x, y), end_angle) => ((y, x), 90 - end_angle)) entries.

Definition with_90_degrees (single_quadrant_minimal_set : QuadrantSet)
  : QuadrantSet :=
  let set0 := dd_touch 0 single_quadrant_minimal_set in
  dict_set 90 (transpose_to_90 (dd_lookup 0 set0)) set0.

Definition create_complete_minimal_spanning_set (lg : LatticeGenerator)
    (single_quadrant_minimal_set : QuadrantSet) : M SpanningSet :=
  let set := with_90_degrees single_quadrant_minimal_set in
  for_each (keys set)
    (fun start_angle =>
       for_each (dd_lookup start_angle set) (expand_entry lg start_angle))
    [].

Definition generate_minimal_spanning_set (lg : LatticeGenerator)
  : M SpanningSet :=
  bindM (single_quadrant_search lg) (create_complete_minimal_spanning_set lg).

End Generator.

Arguments ret {St A} a.
Arguments lift {St A} r.
Arguments bindM {St A B} m k.
Arguments for_each {St X A} l body a.
Arguments try_target {St} generate_trajectory lg start_heading target_point
  target_heading acc.
Arguments search_heading {St} generate_trajectory lg headings start_level
  start_heading set.
Arguments single_quadrant_search {St} generate_trajectory lg.
Arguments expand_entry {St} generate_trajectory lg start_angle entry
  all_trajectories.
Arguments create_complete_minimal_spanning_set {St} generate_trajectory lg
  single_quadrant_minimal_set.
Arguments generate_minimal_spanning_set {St} generate_trajectory lg.

(** ** Motion-model augmenter *)

(** A zero-length turn on the spot from [start_angle] to [to_angle]. *)
Definition in_place_turn (start_angle to_angle : R) : Primitive :=
  {| start_heading := start_angle; end_heading := to_angle;
     prim_radius := 0; total_length := 0; arc_length := 0;
     straight_length := 0;
     poses := [(0, 0, start_angle); (0, 0, to_angle)] |}.

(** [sorted(spanning_set.keys(), key=spanning_set.get)]. *)
Definition sorted_angles (spanning_set : SpanningSet) : list R :=
  map fst
      (sorted_by (fun a b => prims_ltb (snd a) (snd b))
                 (map (fun k => (k, dd_lookup k spanning_set))
                      (keys spanning_set))).

Definition prev_angle_idx (n idx : nat) : nat :=
  if (1 <=? idx)%nat then (idx - 1)%nat else (n - 1)%nat.

Definition next_angle_idx (n idx : nat) : nat :=
  if (idx + 1 <? n)%nat then (idx + 1)%nat else 0%nat.

Definition add_turns_at (all_angles : list R) (spanning_set : SpanningSet)
    (idx : nat) : SpanningSet :=
  let start_angle := nth idx all_angles 0 in
  let prev_angle := nth (prev_angle_idx (length all_angles) idx) all_angles 0 in
  let next_angle := nth (next_angle_idx (length all_angles) idx) all_angles 0 in
  let turn_left := in_place_turn start_angle prev_angle in
  let turn_right := in_place_turn start_angle next_angle in
  dd_append start_angle turn_right
            (dd_append start_angle turn_left spanning_set).

Definition add_in_place_turns (spanning_set : SpanningSet) : SpanningSet :=
  let all_angles := sorted_angles spanning_set in
  fold_left (add_turns_at all_angles) (seq 0 (length all_angles))
            spanning_set.

(** The two sidesteps added for one start heading. *)
Definition horizontal_motions (min_trajectory_length : R) (steps : Z)
    (start_angle : R) : list Primitive :=
  let xs0 :=
    linspace0 (min_trajectory_length * cos (deg2rad (start_angle + 90)))
              steps in
  let ys0 :=
    linspace0 (min_trajectory_length * sin (deg2rad (start_angle + 90)))
              steps in
  let yaws :=
    map (fun _ => deg2rad start_angle) (range 0 steps) in
  let flipped_xs0 := map Ropp xs0 in
  let flipped_ys0 := map Ropp ys0 in
  let xs := map round5 xs0 in
  let ys := map round5 ys0 in
  let flipped_xs := map round5 flipped_xs0 in
  let flipped_ys := map round5 flipped_ys0 in
  let left_motion :=
    {| start_heading := start_angle; end_heading := start_angle;
       prim_radius := 0; total_length := min_trajectory_length;
       arc_length := 0; straight_length := min_trajectory_length;
       poses := zip3 xs ys yaws |} in
  let right_motion :=
    {| start_heading := start_angle; end_heading := start_angle;
       prim_radius := 0; total_length := min_trajectory_length;
       arc_length := 0; straight_length := min_trajectory_length;
       poses := zip3 flipped_xs flipped_ys yaws |} in
  [left_motion; right_motion].

(** The loop of [add_horizontal_motions]: [np.linspace] and [np.full]
    refuse a negative number of samples. *)
Fixpoint add_motions_loop (min_trajectory_length : R) (steps : Z)
    (angles : list R) (spanning_set : SpanningSet) : outcome :=
  match angles with
  | [] => Returns spanning_set
  | start_angle :: angles' =>
      if (steps <? 0)%Z then Raises ValueError spanning_set
      else
        add_motions_loop min_trajectory_length steps angles'
          (fold_left (fun set q => dd_append start_angle q set)
                     (horizontal_motions min_trajectory_length steps
                                         start_angle)
                     spanning_set)
  end.

Definition add_horizontal_motions (lg : LatticeGenerator)
    (spanning_set : SpanningSet) : outcome :=
  match compute_min_trajectory_length lg with
  | Raise e => Raises e spanning_set
  | Ok min_trajectory_length =>
      match Py.div min_trajectory_length (grid_separation lg) with
      | Raise e => Raises e spanning_set
      | Ok q =>
          add_motions_loop min_trajectory_length (rint q)
                           (keys spanning_set) spanning_set
      end
  end.

Definition handle_motion_model (lg : LatticeGenerator)
    (spanning_set : SpanningSet) : outcome :=
  match motion_model lg with
  | ACKERMANN => Returns spanning_set
  | DIFF =>
      let diff_spanning_set := add_in_place_turns spanning_set in
      Returns diff_spanning_set
  | OMNI =>
      let omni_spanning_set := add_in_place_turns spanning_set in
      add_horizontal_motions lg omni_spanning_set
  | OtherModel _ => Raises NotImplementedError spanning_set
  end.

(** ** The generator's entry point *)

Definition outcome_result (o : outcome) : result SpanningSet :=
  match o with
  | Returns spanning_set => Ok spanning_set
  | Raises e _ => Raise e
  end.

Definition run {St : Type}
    (generate_trajectory : Point -> R -> R -> R -> St -> option Trajectory * St)
    (lg : LatticeGenerator) : M St SpanningSet :=
  bindM (generate_minimal_spanning_set generate_trajectory lg)
        (fun complete_spanning_set =>
           lift (outcome_result
                      (handle_motion_model lg complete_spanning_set))).

(** ** Vocabulary of the properties *)

(** The segment from sampled point [i] of a path to the next one, with the
    yaw sampled at point [i]. *)
Definition consecutive_pair (p : TrajectoryPath) (i : nat)
    (seg : R * R * R * R * R) : Prop :=
  let '(x1, y1, x2, y2, yaw) := seg in
  nth_error (xs p) i = Some x1 /\ nth_error (ys p) i = Some y1 /\
  nth_error (xs p) (S i) = Some x2 /\ nth_error (ys p) (S i) = Some y2 /\
  nth_error (yaws p) i = Some yaw.

(** An accepted end pose lies closer to a segment than both thresholds. *)
Definition too_close (lg : LatticeGenerator) (seg : R * R * R * R * R)
    (prior : Pose) : Prop :=
  let '(x1, y1, x2, y2, yaw) := seg in
  let '(px, py, pyaw) := prior in
  point_to_line_distance (x1, y1) (x2, y2) (px, py)
    < 0.5 * grid_separation lg /\
  angle_difference yaw pyaw
    < 0.5 * deg2rad (360 / IZR (number_of_headings lg)).

Definition duplicates_coverage (lg : LatticeGenerator) (p : TrajectoryPath)
    (priors : list Pose) : Prop :=
  exists i seg prior,
    consecutive_pair p i seg /\ In prior priors /\ too_close lg seg prior.

(** The requests the search makes for one start heading, in order. *)
Definition candidates (lg : LatticeGenerator) (headings : list R)
    (start_level : Z) (start_heading : R) : list (Point * R) :=
  flat_map
    (fun level =>
       flat_map
         (fun target_point =>
            map (fun target_heading => (target_point, target_heading))
                (target_headings_of headings start_heading))
         (get_coords_at_level lg level))
    (range start_level (max_level lg + 1)).

(** The first request of a list that the generator answers with a
    trajectory. *)
Fixpoint first_feasible {St : Type}
    (generate_trajectory :
       Point -> R -> R -> R -> St -> option Trajectory * St)
    (lg : LatticeGenerator) (start_heading : R)
    (cands : list (Point * R)) (s : St) : option (Point * R) :=
  match cands with
  | [] => None
  | (target_point, target_heading) :: cands' =>
      match generate_trajectory target_point start_heading target_heading
                                (0.1 * grid_separation lg) s with
      | (Some _, _) => Some (target_point, target_heading)
      | (None, s') =>
          first_feasible generate_trajectory lg start_heading cands' s'
      end
  end.

(** A run of [d[k].append(x)] statements. *)
Definition apply_ops {V} (ops : list (R * V)) (d : Dict (list V))
  : Dict (list V) :=
  fold_left (fun d op => dd_append (fst op) (snd op) d) ops d.

(** Comparison of items by a numeric key. *)
Definition key_ltb {A} (key : A -> R) (a b : A) : bool :=
  Rltb (key a) (key b).

Definition key_le {A} (key : A -> R) (a b : A) : Prop := key a <= key b.

(** The shape of a spanning set built by [append_primitive]: every list is
    non-empty and holds primitives whose start heading is the key. *)
Definition keyed_by_start (set : SpanningSet) : Prop :=
  NoDup (keys set) /\
  forall k l, In (k, l) set ->
              l <> [] /\ forall p, In p l -> start_heading p = k.

(** The two turns appended for the heading at position [idx]. *)
Definition turn_left_at (all_angles : list R) (idx : nat) : Primitive :=
  in_place_turn (nth idx all_angles 0)
    (nth (prev_angle_idx (length all_angles) idx) all_angles 0).

Definition turn_right_at (all_angles : list R) (idx : nat) : Primitive :=
  in_place_turn (nth idx all_angles 0)
    (nth (next_angle_idx (length all_angles) idx) all_angles 0).

(** The number of sidestep samples of a valid configuration. *)
Definition lateral_steps (lg : LatticeGenerator) : Z :=
  rint (2 * PI * turning_radius lg * (1 / IZR (number_of_headings lg))
        / grid_separation lg).

Definition lateral_length (lg : LatticeGenerator) : R :=
  2 * PI * turning_radius lg * (1 / IZR (number_of_headings lg)).

(** The grid cells on the boundary of the compass square, as the two edge
    lists pair them up. *)
Definition edge_cells (m : Z) : list (Z * Z) :=
  flat_map (fun i => [(i, (- m)%Z); (i, m)]
                     ++ (if on_side m i then [((- m)%Z, i); (m, i)] else []))
           (range (- m) (m + 1)).

(** Every stored primitive satisfies [P]. *)
Definition all_primitives (P : Primitive -> Prop) (set : SpanningSet) : Prop :=
  forall k l p, In (k, l) set -> In p l -> P p.

(** The arc length agrees with the heading change of the primitive, which
    is the difference of its start and end heading up to a full turn, and
    that difference itself when neither heading is the substituted -180. *)
Definition length_consistent (p : Primitive) : Prop :=
  let turn := start_heading p - end_heading p in
  total_length p = arc_length p + straight_length p /\
  (arc_length p = 2 * PI * prim_radius p * Rabs turn / 360 \/
   arc_length p = 2 * PI * prim_radius p * Rabs (turn + 360) / 360 \/
   arc_length p = 2 * PI * prim_radius p * Rabs (turn - 360) / 360) /\
  (start_heading p <> -180 -> end_heading p <> -180 ->
   arc_length p = 2 * PI * prim_radius p * Rabs turn / 360).

(** The draft primitives the expander reflects: start heading [k] and end
    heading [e] of an entry of the set it is given, extended by the copies
    of the 0 degree entries at 90 degrees. *)
Definition expanded_draft (drafts : QuadrantSet) (k e : R) : Prop :=
  In e (map snd (dd_lookup k (with_90_degrees drafts))).

(** The canonical range of the emitted headings: -180 stands for 180. *)
Definition canonical_heading (h : R) : Prop := -180 <= h < 180.

Definition canonical_headings (p : Primitive) : Prop :=
  canonical_heading (start_heading p) /\ canonical_heading (end_heading p).

(** *** Signed zeros *)

(** A heading as a floating-point number: its real value and, for a zero,
    whether it is the negative zero. *)
Record Deg : Type := {
  deg_value : R;
  deg_sign_bit : bool
}.

(** A literal or an integer: never the negative zero. *)
Definition deg (r : R) : Deg := {| deg_value := r; deg_sign_bit := false |}.

Definition is_minus_zero (d : Deg) : bool :=
  Reqb (deg_value d) 0 && deg_sign_bit d.

(** [-d] flips the sign, also that of a zero. *)
Definition deg_opp (d : Deg) : Deg :=
  {| deg_value := - deg_value d; deg_sign_bit := negb (deg_sign_bit d) |}.

(** [a - b]: a zero difference is positive, except for [-0.0 - 0.0]. *)
Definition deg_sub (a b : Deg) : Deg :=
  {| deg_value := deg_value a - deg_value b;
     deg_sign_bit := is_minus_zero a && negb (is_minus_zero b) |}.

(** The start and end heading of the tuples built in
    [create_complete_minimal_spanning_set], with the sign of zero. *)
Definition signed_reflections (start_angle end_angle : Deg)
  : list (Deg * Deg) :=
  if Reqb (deg_value start_angle) 0 && Reqb (deg_value end_angle) 0 then
    [ (deg 0, deg 0); (deg (-180), deg (-180)) ]
  else if Reqb (deg_value start_angle) 90 && Reqb (deg_value end_angle) 90 then
    [ (start_angle, end_angle); (deg_opp start_angle, deg_opp end_angle) ]
  else if Reqb (deg_value start_angle) 0 then
    [ (start_angle, end_angle);
      (deg (-180), deg_sub (deg 180) end_angle);
      (deg (-180), deg_sub end_angle (deg 180));
      (start_angle, deg_opp end_angle) ]
  else if Reqb (deg_value end_angle) 0 then
    [ (start_angle, end_angle);
      (deg_sub (deg 180) start_angle, deg (-180));
      (deg_sub start_angle (deg 180), deg (-180));
      (deg_opp start_angle, end_angle) ]
  else
    [ (start_angle, end_angle);
      (deg_sub (deg 180) start_angle, deg_sub (deg 180) end_angle);
      (deg_sub start_angle (deg 180), deg_sub end_angle (deg 180));
      (deg_opp start_angle, deg_opp end_angle) ].

(** The same configuration under another motion model. *)
Definition with_motion_model (lg : LatticeGenerator) (model : MotionModel)
  : LatticeGenerator :=
  {| grid_separation := grid_separation lg;
     turning_radius := turning_radius lg;
     max_level := max_level lg;
     number_of_headings := number_of_headings lg;
     motion_model := model |}.

(** The answer of the curve generator depends on the request only, not on
    the generator's own state. *)
Definition deterministic_generator {St : Type}
    (generate_trajectory :
       Point -> R -> R -> R -> St -> option Trajectory * St) : Prop :=
  forall target_point start_angle end_angle step s1 s2,
    fst (generate_trajectory target_point start_angle end_angle step s1)
    = fst (generate_trajectory target_point start_angle end_angle step s2).

(** A computation whose result does not depend on the generator state. *)
Definition oblivious {St A} (m : M St A) : Prop :=
  forall s1 s2, fst (m s1) = fst (m s2).

(** *** Example inputs *)

(** A diagonal unit step with a turning radius of 1. *)
Definition example_trajectory : Trajectory :=
  {| path := {| xs := [0; 1]; ys := [0; 1]; yaws := [0; 0] |};
     parameters := {| radius := 1; start_to_arc_distance := 0;
                      arc_to_end_distance := 0 |} |}.

(** A stateless generator with the same answer to every request. *)
Definition example_generator
  : Point -> R -> R -> R -> unit -> option Trajectory * unit :=
  fun _ _ _ _ s => (Some example_trajectory, s).

(** Eight headings on a unit grid. *)
Definition example_config : LatticeGenerator :=
  {| grid_separation := 1; turning_radius := 1; max_level := 2;
     number_of_headings := 8; motion_model := ACKERMANN |}.

(** One draft primitive, from heading 0 to heading 45 at the cell (1, 1). *)
Definition example_drafts : QuadrantSet := [(0, [((1, 1), 45)])].

(** What the expander builds from [example_drafts]: the reflections of the
    draft and of its transpose to 90 degrees. *)
Definition example_expanded : SpanningSet :=
  fold_left (fun all q => append_primitive q all)
    (reflect_trajectory 0 45 example_trajectory
     ++ reflect_trajectory 90 (90 - 45) example_trajectory) [].

(** Configurations with 16 and with 12 headings. *)
Definition example_sixteen : LatticeGenerator :=
  {| grid_separation := 1; turning_radius := 1; max_level := 2;
     number_of_headings := 16; motion_model := ACKERMANN |}.

Definition example_twelve : LatticeGenerator :=
  {| grid_separation := 1; turning_radius := 1; max_level := 2;
     number_of_headings := 12; motion_model := ACKERMANN |}.

(** A straight path along the x axis and an end pose in its middle. *)
Definition example_path : TrajectoryPath :=
  {| xs := [0; 1; 2]; ys := [0; 0; 0]; yaws := [0; 0; 0] |}.

Definition example_priors : list Pose := [(1, 0, 0)].

(** Two headings with one straight primitive each. *)
Definition example_set : SpanningSet :=
  [(0, [mk_primitive 0 0 (0, 1, 0, 1) [(0, 0, 0); (1, 0, 0)]]);
   (-180, [mk_primitive (-180) (-180) (0, 1, 0, 1)
             [(0, 0, PI); (-1, 0, PI)]])].

(** A generator that counts its calls and always answers alike. *)
Definition counting_generator
  : Point -> R -> R -> R -> nat -> option Trajectory * nat :=
  fun _ _ _ _ calls => (Some example_trajectory, S calls).

(** ** Vocabulary of the further properties *)

(** Every stored draft primitive satisfies [P] with its start heading. *)
Definition all_drafts (P : R -> Point * R -> Prop) (set : QuadrantSet)
  : Prop :=
  forall k l d, In (k, l) set -> In d l -> P k d.

(** The first level of the search, where the division is defined. *)
Definition start_level_of (lg : LatticeGenerator) : Z :=
  floor (2 * PI * turning_radius lg * (1 / IZR (number_of_headings lg))
         / grid_separation lg).

(** What the loops of the search allow a draft primitive to be: a start
    heading of the discretization in [[0, 90)], an end heading of the
    discretization at most 90 degrees from it, and a target point on the
    ring of a level between the start level and the maximal level. *)
Definition searched_draft (lg : LatticeGenerator) (k : R) (d : Point * R)
  : Prop :=
  In k (get_heading_discretization lg) /\ 0 <= k < 90 /\
  In (snd d) (get_heading_discretization lg) /\ Rabs (k - snd d) <= 90 /\
  exists level,
    (start_level_of lg <= level <= max_level lg)%Z /\
    In (fst d) (get_coords_at_level lg level).

(** The end pose recorded for an accepted draft primitive. *)
Definition end_pose_of (d : Point * R) : Pose :=
  (fst (fst d), snd (fst d), deg2rad (snd d)).

(** Each draft of [accepted] was answered with a trajectory that the tester
    accepted against [priors] and the end poses of the drafts before it. *)
Fixpoint minimal_chain (lg : LatticeGenerator)
    (answer : Point -> R -> R -> R -> option Trajectory)
    (start_heading : R) (priors : list Pose) (accepted : list (Point * R))
  : Prop :=
  match accepted with
  | [] => True
  | d :: accepted' =>
      (exists t,
          answer (fst d) start_heading (snd d) (0.1 * grid_separation lg)
          = Some t /\
          is_minimal_path lg (path t) priors = Ok true) /\
      minimal_chain lg answer start_heading (priors ++ [end_pose_of d])
                    accepted'
  end.

(** How many tuples one draft primitive expands to: two on an axis, where
    the reflections coincide, and four otherwise. *)
Definition reflection_count (start_angle end_angle : R) : nat :=
  if (Reqb start_angle 0 && Reqb end_angle 0)
     || (Reqb start_angle 90 && Reqb end_angle 90)
  then 2%nat else 4%nat.

(** The number of primitives a spanning set holds. *)
Definition primitive_count (set : SpanningSet) : nat :=
  list_sum (map (fun entry => length (snd entry)) set).

(** A primitive is stored under its own start heading. *)
Definition stored (q : Primitive) (set : SpanningSet) : Prop :=
  exists l, In (start_heading q, l) set /\ In q l.

(** Two primitives with the same radius and the same three lengths. *)
Definition same_lengths (p q : Primitive) : Prop :=
  prim_radius p = prim_radius q /\ total_length p = total_length q /\
  arc_length p = arc_length q /\ straight_length p = straight_length q.

(** The sampled positions of a primitive, without the yaws. *)
Definition positions (p : Primitive) : list Point :=
  map (fun pose => (fst (fst pose), snd (fst pose))) (poses p).

(** A generator that answers every request with a trajectory. *)
Definition answers_always {St : Type}
    (generate_trajectory :
       Point -> R -> R -> R -> St -> option Trajectory * St) : Prop :=
  forall target_point start_angle end_angle step s,
  exists t s',
    generate_trajectory target_point start_angle end_angle step s
    = (Some t, s').

(** The order in which the end headings are tried from [start_heading]:
    nearer to it first, and the larger heading first at equal distance. *)
Definition tried_before (start_heading a b : R) : Prop :=
  Rabs (a - start_heading) < Rabs (b - start_heading) \/
  (Rabs (a - start_heading) = Rabs (b - start_heading) /\ b <= a).

(** *** Further example inputs *)

(** The answer of [example_generator] and of [counting_generator] to every
    request. *)
Definition example_answer : Point -> R -> R -> R -> option Trajectory :=
  fun _ _ _ _ => Some example_trajectory.

(** A generator that finds no trajectory. *)
Definition silent_generator
  : Point -> R -> R -> R -> unit -> option Trajectory * unit :=
  fun _ _ _ _ s => (None, s).

(** A path of a single sample. *)
Definition example_point_path : TrajectoryPath :=
  {| xs := [0]; ys := [0]; yaws := [0] |}.

(** One draft primitive with a negative end heading, from heading 45 to
    heading -45 at the cell (1, 1), and what the expander builds from it. *)
Definition example_backward_drafts : QuadrantSet := [(45, [((1, 1), -45)])].

Definition example_backward_expanded : SpanningSet :=
  fold_left (fun all q => append_primitive q all)
    (reflect_trajectory 45 (-45) example_trajectory) [].

(** A generator that finds a trajectory from heading 45 to heading -45 and
    none for any other pair of headings. *)
Definition backward_generator
  : Point -> R -> R -> R -> unit -> option Trajectory * unit :=
  fun _ start_angle end_angle _ s =>
    (if Reqb start_angle 45 && Reqb end_angle (-45)
     then Some example_trajectory else None, s).

(** A configuration whose maximal level lies below every level, and one
    with a zero grid separation under the OMNI motion model. *)
Definition example_no_level : LatticeGenerator :=
  {| grid_separation := 1; turning_radius := 1; max_level := -1;
     number_of_headings := 8; motion_model := ACKERMANN |}.

Definition example_no_grid : LatticeGenerator :=
  {| grid_separation := 0; turning_radius := 1; max_level := 2;
     number_of_headings := 8; motion_model := OMNI |}.

(** * Properties *)

(** ** Comparisons on real numbers *)

Lemma Rltb_true a b : Rltb a b = true <-> a < b.
Proof. unfold Rltb; destruct (Rlt_dec a b); split; intros; easy. Qed.

Lemma Rltb_false a b : Rltb a b = false <-> ~ a < b.
Proof. unfold Rltb; destruct (Rlt_dec a b); split; intros; easy. Qed.

Lemma Rleb_true a b : Rleb a b = true <-> a <= b.
Proof. unfold Rleb; destruct (Rle_dec a b); split; intros; easy. Qed.

Lemma Rleb_false a b : Rleb a b = false <-> ~ a <= b.
Proof. unfold Rleb; destruct (Rle_dec a b); split; intros; easy. Qed.

Lemma Reqb_true a b : Reqb a b = true <-> a = b.
Proof. unfold Reqb; destruct (Req_dec_T a b); split; intros; easy. Qed.

Lemma Reqb_false a b : Reqb a b = false <-> a <> b.
Proof. unfold Reqb; destruct (Req_dec_T a b); split; intros; easy. Qed.

Lemma Reqb_refl a : Reqb a a = true.
Proof. now apply Reqb_true. Qed.

Lemma Reqb_sym a b : Reqb a b = Reqb b a.
Proof.
  destruct (Reqb b a) eqn:E.
  - apply Reqb_true in E. now apply Reqb_true.
  - apply Reqb_false in E. apply Reqb_false. congruence.
Qed.

(** Decide the comparisons of a goal whose numbers are concrete. *)
Ltac Rdecide :=
  repeat match goal with
         | |- context [Reqb ?a ?b] =>
             first [ rewrite (proj2 (Reqb_true a b)) by lra
                   | rewrite (proj2 (Reqb_false a b)) by lra ]
         | |- context [Rltb ?a ?b] =>
             first [ rewrite (proj2 (Rltb_true a b)) by lra
                   | rewrite (proj2 (Rltb_false a b)) by lra ]
         | |- context [Rleb ?a ?b] =>
             first [ rewrite (proj2 (Rleb_true a b)) by lra
                   | rewrite (proj2 (Rleb_false a b)) by lra ]
         end.

Lemma PI_gt_3 : 3 < PI.
Proof. pose proof PI2_3_2. lra. Qed.

(** ** Angular distance *)

Lemma angle_difference_near a b :
  Rabs (a - b) <= PI -> angle_difference a b = Rabs (a - b).
Proof.
  intros H. unfold angle_difference.
  now rewrite (proj2 (Rltb_false PI (Rabs (a - b)))) by lra.
Qed.

Lemma angle_difference_far a b :
  PI < Rabs (a - b) -> angle_difference a b = 2 * PI - Rabs (a - b).
Proof.
  intros H. unfold angle_difference.
  now rewrite (proj2 (Rltb_true PI (Rabs (a - b)))) by lra.
Qed.

(** C5, as amended: [angle_difference a b] is [|a - b|] when that does not
    exceed pi and [2*pi - |a - b|] otherwise; the result lies in [[0, pi]]
    for angles at most a full turn apart, [|a - b| <= 2*pi]. *)
Theorem angle_difference_shortest_arc (a b : R)
    (Hturn : Rabs (a - b) <= 2 * PI) :
  (Rabs (a - b) <= PI -> angle_difference a b = Rabs (a - b)) /\
  (PI < Rabs (a - b) -> angle_difference a b = 2 * PI - Rabs (a - b)) /\
  0 <= angle_difference a b <= PI.
Proof.
  split; [apply angle_difference_near|].
  split; [apply angle_difference_far|].
  pose proof (Rabs_pos (a - b)) as Hpos.
  destruct (Rle_dec (Rabs (a - b)) PI) as [Hle|Hgt].
  - rewrite angle_difference_near by assumption. lra.
  - rewrite angle_difference_far by lra. lra.
Qed.

Lemma angle_difference_shortest_arc_witness :
  Rabs (4 - 0) <= 2 * PI /\ 0 <= angle_difference 4 0 <= PI.
Proof.
  assert (H : Rabs (4 - 0) <= 2 * PI).
  { rewrite Rabs_pos_eq by lra. pose proof PI_gt_3. lra. }
  split; [exact H|].
  exact (proj2 (proj2 (angle_difference_shortest_arc 4 0 H))).
Defined.

(** C5 as stated fails: angles more than a full turn apart give a negative
    result. *)
Lemma angle_difference_outside_range :
  ~ (0 <= angle_difference 9 0 <= PI).
Proof.
  assert (H : Rabs (9 - 0) = 9).
  { replace (9 - 0) with 9 by lra. apply Rabs_pos_eq; lra. }
  pose proof PI_4 as H4.
  rewrite angle_difference_far by (rewrite H; lra).
  rewrite H. lra.
Qed.

(** ** Slices and zips *)

Lemma in_combine_nth {A B} (la : list A) (lb : list B) a b :
  In (a, b) (combine la lb) <->
  exists i, nth_error la i = Some a /\ nth_error lb i = Some b.
Proof.
  revert lb; induction la as [|x la IH]; intros [|y lb]; simpl.
  - split; [easy|]. intros [[|i] [H _]]; discriminate.
  - split; [easy|]. intros [[|i] [H _]]; discriminate.
  - split; [easy|]. intros [[|i] [_ H]]; discriminate.
  - split.
    + intros [E|H].
      * inversion E; subst. now exists 0%nat.
      * apply IH in H as [i Hi]. now exists (S i).
    + intros [[|i] [Ha Hb]]; simpl in *.
      * left. congruence.
      * right. apply IH. now exists i.
Qed.

Lemma nth_error_rest {A} (l : list A) i :
  nth_error (rest l) i = nth_error l (S i).
Proof. destruct l; simpl; [now destruct i|reflexivity]. Qed.

Lemma nth_error_init {A} (l : list A) i x :
  nth_error (init l) i = Some x <->
  nth_error l i = Some x /\ (S i < length l)%nat.
Proof.
  unfold init. revert i; induction l as [|y l IH]; intros i.
  - simpl. split; [now destruct i|]. intros [_ H]. simpl in H. lia.
  - destruct l as [|z l].
    + simpl. split; [now destruct i|]. intros [_ H]. lia.
    + change (removelast (y :: z :: l)) with (y :: removelast (z :: l)).
      destruct i as [|i].
      * simpl. split; [intros H; split; [exact H|lia]|tauto].
      * change (nth_error (y :: removelast (z :: l)) (S i))
          with (nth_error (removelast (z :: l)) i).
        rewrite IH. simpl. split; intros [H1 H2]; (split; [exact H1|lia]).
Qed.

Lemma in_zip5 {A B C D E} (a : list A) (b : list B) (c : list C)
    (d : list D) (e : list E) x y z u v :
  In (x, y, z, u, v) (zip5 a b c d e) <->
  exists i, nth_error a i = Some x /\ nth_error b i = Some y /\
            nth_error c i = Some z /\ nth_error d i = Some u /\
            nth_error e i = Some v.
Proof.
  unfold zip5. rewrite in_map_iff. split.
  - intros [[x' [y' [z' [u' v']]]] [Heq H]]. inversion Heq; subst.
    apply in_combine_nth in H as [i [Ha H]]. exists i.
    assert (Hi : forall {X Y} (l1 : list X) (l2 : list Y) p q,
               nth_error (combine l1 l2) i = Some (p, q) ->
               nth_error l1 i = Some p /\ nth_error l2 i = Some q).
    { intros X Y l1. clear. revert i.
      induction l1 as [|h l1 IH]; intros [|i] [|k l2] p q H;
        simpl in *; try discriminate.
      - now inversion H.
      - now apply IH. }
    apply Hi in H as [Hb H]. apply Hi in H as [Hc H].
    apply Hi in H as [Hd He]. tauto.
  - intros [i [Ha [Hb [Hc [Hd He]]]]].
    exists (x, (y, (z, (u, v)))). split; [reflexivity|].
    apply in_combine_nth. exists i. split; [exact Ha|].
    assert (Hi : forall {X Y} (l1 : list X) (l2 : list Y) p q,
               nth_error l1 i = Some p -> nth_error l2 i = Some q ->
               nth_error (combine l1 l2) i = Some (p, q)).
    { intros X Y l1. clear. revert i.
      induction l1 as [|h l1 IH]; intros [|i] [|k l2] p q H1 H2;
        simpl in *; try discriminate.
      - congruence.
      - now apply IH. }
    auto.
Qed.

(** ** The minimality tester *)

Lemma rotation_threshold_ok lg :
  number_of_headings lg <> 0%Z ->
  rotation_threshold lg =
  Ok (0.5 * deg2rad (360 / IZR (number_of_headings lg))).
Proof.
  intros Hn. unfold rotation_threshold, Py.div.
  rewrite (proj2 (Reqb_false _ 0)); [reflexivity|].
  intros H. apply eq_IZR_R0 in H. contradiction.
Qed.

Lemma in_path_segments p seg :
  length (yaws p) = length (xs p) ->
  In seg (path_segments p) <-> exists i, consecutive_pair p i seg.
Proof.
  intros Hlen. destruct seg as [[[[x1 y1] x2] y2] yaw].
  unfold path_segments, consecutive_pair. rewrite in_zip5.
  split; intros [i H]; exists i; revert H;
    rewrite !nth_error_init, !nth_error_rest.
  - tauto.
  - intros [Hx1 [Hy1 [Hx2 [Hy2 Hyaw]]]].
    assert (S i < length (xs p))%nat
      by (apply nth_error_Some; congruence).
    assert (S i < length (ys p))%nat
      by (apply nth_error_Some; congruence).
    repeat split; try assumption. lia.
Qed.

Lemma overlaps_true lg seg prior :
  overlaps (0.5 * grid_separation lg)
           (0.5 * deg2rad (360 / IZR (number_of_headings lg))) seg prior
  = true <-> too_close lg seg prior.
Proof.
  destruct seg as [[[[x1 y1] x2] y2] yaw], prior as [[px py] pyaw].
  unfold overlaps, too_close.
  now rewrite andb_true_iff, !Rltb_true.
Qed.

Lemma is_minimal_path_reflect lg p priors :
  number_of_headings lg <> 0%Z ->
  length (yaws p) = length (xs p) ->
  exists b, is_minimal_path lg p priors = Ok b /\
            (b = false <-> duplicates_coverage lg p priors).
Proof.
  intros Hn Hlen. unfold is_minimal_path.
  rewrite rotation_threshold_ok by assumption. simpl.
  eexists; split; [reflexivity|].
  rewrite negb_false_iff, existsb_exists. unfold distance_threshold.
  split.
  - intros [seg [Hseg H]]. apply existsb_exists in H as [prior [Hin H]].
    apply overlaps_true in H. apply in_path_segments in Hseg as [i Hi];
      [|assumption].
    now exists i, seg, prior.
  - intros [i [seg [prior [Hi [Hin H]]]]]. exists seg. split.
    + apply in_path_segments; [assumption|]. now exists i.
    + apply existsb_exists. exists prior. split; [assumption|].
      now apply overlaps_true.
Qed.


(** C9, first part: with no accepted end pose every path is minimal. *)
Lemma is_minimal_path_no_priors lg p :
  number_of_headings lg <> 0%Z -> is_minimal_path lg p [] = Ok true.
Proof.
  intros Hn. unfold is_minimal_path.
  rewrite rotation_threshold_ok by assumption. simpl.
  induction (path_segments p) as [|seg l IH]; [reflexivity|exact IH].
Qed.

(** ** Dictionaries *)

Lemma dict_get_dd_append_same {V} k (x : V) d :
  dd_lookup k (dd_append k x d) = dd_lookup k d ++ [x].
Proof.
  unfold dd_lookup. induction d as [|[k' l] d IH]; simpl.
  - now rewrite Reqb_refl.
  - destruct (Reqb k' k) eqn:E; simpl; rewrite E; [reflexivity|exact IH].
Qed.

Lemma dict_get_dd_append_other {V} k k' (x : V) d :
  k' <> k -> dd_lookup k' (dd_append k x d) = dd_lookup k' d.
Proof.
  intros Hne. unfold dd_lookup. induction d as [|[k0 l] d IH]; simpl.
  - now rewrite (proj2 (Reqb_false k k')) by congruence.
  - destruct (Reqb k0 k) eqn:E; simpl.
    + apply Reqb_true in E; subst k0.
      now rewrite (proj2 (Reqb_false k k')) by congruence.
    + destruct (Reqb k0 k'); [reflexivity|exact IH].
Qed.

(** ** The search loop *)

Section SearchProperties.

Variable St : Type.
Variable generate_trajectory :
  Point -> R -> R -> R -> St -> option Trajectory * St.

Lemma for_each_app {X A} (l1 l2 : list X) (body : X -> A -> M St A) a s :
  for_each (l1 ++ l2) body a s
  = bindM (for_each l1 body a) (for_each l2 body) s.
Proof.
  revert a s; induction l1 as [|x l1 IH]; intros a s; simpl.
  - reflexivity.
  - unfold bindM in *. destruct (body x a s) as [[a'|e] s'].
    + apply IH.
    + reflexivity.
Qed.

Lemma for_each_flat_map {X Y A} (f : X -> list Y) (l : list X)
    (body : Y -> A -> M St A) a s :
  for_each (flat_map f l) body a s
  = for_each l (fun x => for_each (f x) body) a s.
Proof.
  revert a s; induction l as [|x l IH]; intros a s; simpl.
  - reflexivity.
  - rewrite for_each_app. unfold bindM.
    destruct (for_each (f x) body a s) as [[a'|e] s']; [apply IH|reflexivity].
Qed.

Lemma for_each_map {X Y A} (f : X -> Y) (l : list X)
    (body : Y -> A -> M St A) a s :
  for_each (map f l) body a s = for_each l (fun x => body (f x)) a s.
Proof.
  revert a s; induction l as [|x l IH]; intros a s; simpl.
  - reflexivity.
  - unfold bindM.
    destruct (body (f x) a s) as [[a'|e] s']; [apply IH|reflexivity].
Qed.

Lemma for_each_ext {X A} (l : list X) (body1 body2 : X -> A -> M St A) a s :
  (forall x a s, body1 x a s = body2 x a s) ->
  for_each l body1 a s = for_each l body2 a s.
Proof.
  intros Hext. revert a s; induction l as [|x l IH]; intros a s; simpl.
  - reflexivity.
  - unfold bindM. rewrite Hext.
    destruct (body2 x a s) as [[a'|e] s']; [apply IH|reflexivity].
Qed.

Lemma search_heading_flat lg headings start_level start_heading set s :
  search_heading generate_trajectory lg headings start_level
                 start_heading set s
  = bindM (for_each (candidates lg headings start_level start_heading)
                    (fun c => try_target generate_trajectory lg start_heading
                                         (fst c) (snd c))
                    ([], set))
          (fun acc => ret (snd acc)) s.
Proof.
  unfold search_heading, candidates, bindM.
  rewrite for_each_flat_map.
  erewrite for_each_ext; [reflexivity|].
  intros level a s0. unfold search_level.
  rewrite for_each_flat_map.
  apply for_each_ext. intros pt a1 s1.
  now rewrite for_each_map.
Qed.

Lemma is_minimal_path_total lg p priors :
  number_of_headings lg <> 0%Z ->
  exists b, is_minimal_path lg p priors = Ok b.
Proof.
  intros Hn. unfold is_minimal_path.
  rewrite rotation_threshold_ok by assumption. simpl. eauto.
Qed.

(** The search for one start heading only ever appends to that heading's
    draft list. *)
Lemma search_candidates_extend lg start_heading cands acc s :
  number_of_headings lg <> 0%Z ->
  exists acc' s' more,
    for_each cands
             (fun c => try_target generate_trajectory lg start_heading
                                  (fst c) (snd c)) acc s
    = (Ok acc', s') /\
    dd_lookup start_heading (snd acc')
    = dd_lookup start_heading (snd acc) ++ more.
Proof.
  intros Hn. revert acc s.
  induction cands as [|[pt th] cands IH]; intros acc s; simpl.
  - exists acc, s, []. now rewrite app_nil_r.
  - unfold bindM, try_target; simpl.
    destruct (generate_trajectory pt start_heading th _ s) as [[t|] s1].
    + destruct (is_minimal_path_total lg (path t) (fst acc) Hn) as [b Hb].
      rewrite Hb. destruct b.
      * match goal with
        | |- context [for_each cands _ ?a s1] =>
            destruct (IH a s1) as [acc' [s' [more [E Hm]]]]
        end.
        exists acc', s', ((pt, th) :: more). split; [exact E|].
        rewrite Hm. simpl. rewrite dict_get_dd_append_same.
        now rewrite <- app_assoc.
      * apply IH.
    + apply IH.
Qed.

Lemma search_first_feasible lg start_heading cands set s c :
  number_of_headings lg <> 0%Z ->
  first_feasible generate_trajectory lg start_heading cands s = Some c ->
  exists acc' s' more,
    for_each cands
             (fun c => try_target generate_trajectory lg start_heading
                                  (fst c) (snd c)) ([], set) s
    = (Ok acc', s') /\
    dd_lookup start_heading (snd acc')
    = dd_lookup start_heading set ++ c :: more.
Proof.
  intros Hn. revert s.
  induction cands as [|[pt th] cands IH]; intros s; simpl; [discriminate|].
  unfold bindM, try_target; simpl.
  destruct (generate_trajectory pt start_heading th _ s) as [[t|] s1].
  - intros E; inversion E; subst c; clear E.
    rewrite is_minimal_path_no_priors by assumption.
    match goal with
    | |- context [for_each cands ?f ?a s1] =>
        destruct (search_candidates_extend lg start_heading cands a s1 Hn)
          as [acc' [s' [more [E Hm]]]]
    end.
    exists acc', s', more. split; [exact E|].
    rewrite Hm. simpl. rewrite dict_get_dd_append_same.
    now rewrite <- app_assoc.
  - apply IH.
Qed.

(** C9: with no accepted end pose every candidate path is minimal, so for
    each start heading the first trajectory the generator returns during
    the search is accepted: it is appended to that heading's draft
    primitives, after what the list held before. *)
Theorem first_feasible_trajectory_accepted (lg : LatticeGenerator)
    (Hn : number_of_headings lg <> 0%Z) :
  (forall p, is_minimal_path lg p [] = Ok true) /\
  (forall headings start_level start_heading set s c,
      first_feasible generate_trajectory lg start_heading
        (candidates lg headings start_level start_heading) s = Some c ->
      exists set' s' more,
        search_heading generate_trajectory lg headings start_level
                       start_heading set s = (Ok set', s') /\
        dd_lookup start_heading set'
        = dd_lookup start_heading set ++ c :: more).
Proof.
  split.
  - intros p. now apply is_minimal_path_no_priors.
  - intros headings start_level start_heading set s c Hc.
    rewrite search_heading_flat. unfold bindM.
    destruct (search_first_feasible lg start_heading _ set s c Hn Hc)
      as [acc' [s' [more [E Hm]]]].
    rewrite E. simpl. now exists (snd acc'), s', more.
Qed.

End SearchProperties.

(** ** Appending to the lists of a spanning set *)

Lemma keys_dd_append_present {V} k (x : V) d :
  In k (keys d) -> keys (dd_append k x d) = keys d.
Proof.
  unfold keys. induction d as [|[k' l] d IH]; simpl; [easy|].
  intros Hin. destruct (Reqb k' k) eqn:E; simpl; [reflexivity|].
  f_equal. apply IH. destruct Hin as [->|H]; [|exact H].
  now rewrite Reqb_refl in E.
Qed.

Lemma keys_apply_ops {V} (ops : list (R * V)) d :
  (forall op, In op ops -> In (fst op) (keys d)) ->
  keys (apply_ops ops d) = keys d.
Proof.
  unfold apply_ops. revert d; induction ops as [|op ops IH]; intros d H.
  - reflexivity.
  - simpl. rewrite IH.
    + apply keys_dd_append_present, H. now left.
    + intros op' Hin. rewrite keys_dd_append_present.
      * apply H. now right.
      * apply H. now left.
Qed.

Lemma dd_lookup_apply_ops {V} (ops : list (R * V)) d k :
  dd_lookup k (apply_ops ops d)
  = dd_lookup k d ++ map snd (filter (fun op => Reqb (fst op) k) ops).
Proof.
  unfold apply_ops. revert d; induction ops as [|[k' x] ops IH]; intros d.
  - simpl. now rewrite app_nil_r.
  - simpl. rewrite IH. destruct (Reqb k' k) eqn:E.
    + apply Reqb_true in E; subst k'.
      rewrite dict_get_dd_append_same. simpl. now rewrite <- app_assoc.
    + apply Reqb_false in E.
      now rewrite dict_get_dd_append_other by congruence.
Qed.

(** Two appends per item of a list whose keys are pairwise different leave
    exactly two appends for each key. *)
Lemma filter_two_per_key {X V} (key : X -> R) (f g : X -> V)
    (items : list X) (it : X) :
  NoDup (map key items) -> In it items ->
  filter (fun op => Reqb (fst op) (key it))
         (flat_map (fun i => [(key i, f i); (key i, g i)]) items)
  = [(key it, f it); (key it, g it)].
Proof.
  induction items as [|i items IH]; simpl; [easy|].
  intros Hnd Hin. inversion Hnd as [|? ? Hni Hnd']; subst.
  destruct Hin as [->|Hin].
  - rewrite Reqb_refl. do 2 f_equal.
    clear IH Hnd Hnd'. induction items as [|j items IHj]; [reflexivity|].
    simpl in *.
    assert (Hne : key j <> key it) by tauto.
    rewrite (proj2 (Reqb_false _ _) Hne). apply IHj. tauto.
  - assert (Hne : key i <> key it).
    { intros E. apply Hni. rewrite E. now apply in_map. }
    rewrite (proj2 (Reqb_false _ _) Hne). now apply IH.
Qed.

Lemma fold_left_flat_map {X Y A} (f : A -> Y -> A) (g : X -> list Y)
    (l : list X) a :
  fold_left f (flat_map g l) a
  = fold_left (fun a x => fold_left f (g x) a) l a.
Proof.
  revert a; induction l as [|x l IH]; intros a; simpl; [reflexivity|].
  now rewrite fold_left_app, IH.
Qed.

(** ** Sorting *)

Lemma insert_by_perm {A} (lt : A -> A -> bool) x l :
  Permutation (insert_by lt x l) (x :: l).
Proof.
  induction l as [|y l IH]; simpl; [reflexivity|].
  destruct (lt y x); [|reflexivity].
  rewrite IH. apply perm_swap.
Qed.

Lemma sorted_by_perm {A} (lt : A -> A -> bool) l :
  Permutation (sorted_by lt l) l.
Proof.
  induction l as [|x l IH]; simpl; [reflexivity|].
  rewrite insert_by_perm. now constructor.
Qed.

Lemma insert_by_ext {A} (lt1 lt2 : A -> A -> bool) x l :
  (forall y, In y l -> lt1 y x = lt2 y x) ->
  insert_by lt1 x l = insert_by lt2 x l.
Proof.
  induction l as [|y l IH]; simpl; intros H; [reflexivity|].
  rewrite H by now left. destruct (lt2 y x); [|reflexivity].
  f_equal. apply IH. intros z Hz. apply H. now right.
Qed.

Lemma sorted_by_ext_in {A} (lt1 lt2 : A -> A -> bool) l :
  (forall a b, In a l -> In b l -> lt1 a b = lt2 a b) ->
  sorted_by lt1 l = sorted_by lt2 l.
Proof.
  induction l as [|x l IH]; simpl; intros H; [reflexivity|].
  rewrite IH by (intros a b Ha Hb; apply H; now right).
  apply insert_by_ext. intros y Hy. apply H; [right|now left].
  eapply Permutation_in; [apply sorted_by_perm|exact Hy].
Qed.

Section SortByKey.

Variable A : Type.
Variable key : A -> R.

Lemma insert_by_key_sorted x l :
  StronglySorted (key_le key) l ->
  StronglySorted (key_le key) (insert_by (key_ltb key) x l).
Proof.
  induction 1 as [|y l Hs IH Hy]; simpl.
  - repeat constructor.
  - unfold key_ltb at 1. destruct (Rltb (key y) (key x)) eqn:E.
    + constructor; [exact IH|].
      apply Rltb_true in E.
      eapply Forall_forall. intros z Hz.
      eapply Permutation_in in Hz; [|apply insert_by_perm].
      destruct Hz as [<-|Hz].
      * unfold key_le. lra.
      * eapply Forall_forall in Hy; eauto.
    + apply Rltb_false in E.
      constructor; [now constructor|].
      constructor; [unfold key_le; lra|].
      eapply Forall_impl; [|exact Hy].
      unfold key_le. intros z Hz. lra.
Qed.

Lemma sorted_by_key_sorted l :
  StronglySorted (key_le key) (sorted_by (key_ltb key) l).
Proof.
  induction l as [|x l IH]; simpl; [constructor|].
  now apply insert_by_key_sorted.
Qed.

End SortByKey.

Lemma strongly_sorted_map_key {A} (key : A -> R) l :
  StronglySorted (key_le key) l -> StronglySorted Rle (map key l).
Proof.
  induction 1 as [|x l Hs IH Hx]; simpl; constructor; [exact IH|].
  apply Forall_map. exact Hx.
Qed.

Lemma strongly_sorted_strict l :
  StronglySorted Rle l -> NoDup l -> StronglySorted Rlt l.
Proof.
  induction 1 as [|x l Hs IH Hx]; intros Hnd; constructor;
    inversion Hnd as [|? ? Hni Hnd']; subst.
  - now apply IH.
  - apply Forall_forall. intros y Hy.
    pose proof (proj1 (Forall_forall _ _) Hx y Hy) as Hle.
    destruct Hle as [Hlt|Heq]; [exact Hlt|]. subst. contradiction.
Qed.

Lemma map_nth_seq {A} (l : list A) d :
  map (fun i => nth i l d) (seq 0 (length l)) = l.
Proof.
  induction l as [|x l IH]; simpl; [reflexivity|].
  f_equal. rewrite <- seq_shift, map_map. exact IH.
Qed.

(** ** Tuple comparison *)

Lemma lex_eq_refl {A} (eqb : A -> A -> bool) l :
  (forall x, eqb x x = true) -> lex_eq eqb l l = true.
Proof.
  intros H. induction l as [|x l IH]; simpl; [reflexivity|].
  now rewrite H, IH.
Qed.

Lemma lex_lt_irrefl {A} (eqb ltb : A -> A -> bool) l :
  (forall x, eqb x x = true) -> lex_lt eqb ltb l l = false.
Proof.
  intros H. induction l as [|x l IH]; simpl; [reflexivity|].
  now rewrite H.
Qed.

Lemma pose_eqb_refl p : pose_eqb p p = true.
Proof. apply lex_eq_refl, Reqb_refl. Qed.

Lemma prim_eqb_refl p : prim_eqb p p = true.
Proof.
  unfold prim_eqb. rewrite lex_eq_refl by apply Reqb_refl.
  apply lex_eq_refl, pose_eqb_refl.
Qed.

Lemma prims_ltb_irrefl l : prims_ltb l l = false.
Proof. apply lex_lt_irrefl, prim_eqb_refl. Qed.

(** Lists that begin with primitives of different start headings compare
    as those headings do. *)
Lemma prims_ltb_by_start p1 l1 p2 l2 :
  start_heading p1 <> start_heading p2 ->
  prims_ltb (p1 :: l1) (p2 :: l2)
  = Rltb (start_heading p1) (start_heading p2).
Proof.
  intros Hne. unfold prims_ltb. simpl.
  unfold prim_eqb, prim_ltb. simpl.
  now rewrite (proj2 (Reqb_false _ _) Hne).
Qed.

(** ** In-place turns *)

Lemma dict_get_in {V} (d : Dict V) k v :
  NoDup (keys d) -> In (k, v) d -> dict_get k d = Some v.
Proof.
  unfold keys. induction d as [|[k' v'] d IH]; simpl; [easy|].
  intros Hnd Hin. inversion Hnd as [|? ? Hni Hnd']; subst.
  destruct Hin as [E|Hin].
  - inversion E; subst. now rewrite Reqb_refl.
  - destruct (Reqb k' k) eqn:E.
    + apply Reqb_true in E; subst k'. exfalso. apply Hni.
      change k with (fst (k, v)). now apply in_map.
    + now apply IH.
Qed.

Lemma in_keys_entry {V} (d : Dict V) k :
  In k (keys d) -> exists v, In (k, v) d.
Proof.
  unfold keys. intros H. apply in_map_iff in H as [[k' v] [E H]].
  simpl in E; subst. now exists v.
Qed.

Lemma keyed_lookup set k :
  keyed_by_start set -> In k (keys set) ->
  exists p l, dd_lookup k set = p :: l /\ start_heading p = k.
Proof.
  intros [Hnd Hk] Hin. apply in_keys_entry in Hin as [l Hl].
  unfold dd_lookup. rewrite (dict_get_in _ _ _ Hnd Hl).
  destruct (Hk _ _ Hl) as [Hne Hs].
  destruct l as [|p l]; [contradiction|].
  exists p, l. split; [reflexivity|]. apply Hs. now left.
Qed.

Lemma sorted_angles_perm set : Permutation (sorted_angles set) (keys set).
Proof.
  unfold sorted_angles. rewrite sorted_by_perm, map_map. simpl.
  now rewrite map_id.
Qed.

Lemma sorted_angles_by_key set :
  keyed_by_start set ->
  sorted_angles set
  = map fst (sorted_by (key_ltb fst)
                       (map (fun k => (k, dd_lookup k set)) (keys set))).
Proof.
  intros Hk. unfold sorted_angles. f_equal.
  apply sorted_by_ext_in. intros [k1 l1] [k2 l2] H1 H2.
  apply in_map_iff in H1 as [k1' [E1 H1]].
  apply in_map_iff in H2 as [k2' [E2 H2]].
  inversion E1; subst; inversion E2; subst; clear E1 E2.
  unfold key_ltb; simpl.
  destruct (Req_dec_T k1 k2) as [->|Hne].
  - rewrite prims_ltb_irrefl. symmetry. apply Rltb_false. lra.
  - destruct (keyed_lookup _ _ Hk H1) as [p1 [r1 [-> Hs1]]].
    destruct (keyed_lookup _ _ Hk H2) as [p2 [r2 [-> Hs2]]].
    rewrite prims_ltb_by_start by congruence. now rewrite Hs1, Hs2.
Qed.

Lemma sorted_angles_increasing set :
  keyed_by_start set -> StronglySorted Rlt (sorted_angles set).
Proof.
  intros Hk. apply strongly_sorted_strict.
  - rewrite sorted_angles_by_key by assumption.
    apply strongly_sorted_map_key, sorted_by_key_sorted.
  - eapply Permutation_NoDup; [symmetry; apply sorted_angles_perm|].
    apply Hk.
Qed.

Lemma add_in_place_turns_ops set :
  add_in_place_turns set
  = apply_ops
      (flat_map (fun idx =>
                   [(nth idx (sorted_angles set) 0,
                     turn_left_at (sorted_angles set) idx);
                    (nth idx (sorted_angles set) 0,
                     turn_right_at (sorted_angles set) idx)])
                (seq 0 (length (sorted_angles set))))
      set.
Proof.
  unfold add_in_place_turns, apply_ops. now rewrite fold_left_flat_map.
Qed.

Lemma add_in_place_turns_keys set :
  keys (add_in_place_turns set) = keys set.
Proof.
  rewrite add_in_place_turns_ops. apply keys_apply_ops.
  intros op Hop. apply in_flat_map in Hop as [idx [Hidx Hop]].
  apply in_seq in Hidx.
  eapply Permutation_in; [apply sorted_angles_perm|].
  destruct Hop as [<-|[<-|[]]]; simpl; apply nth_In; lia.
Qed.

Lemma add_in_place_turns_lookup set idx :
  NoDup (keys set) ->
  (idx < length (sorted_angles set))%nat ->
  dd_lookup (nth idx (sorted_angles set) 0) (add_in_place_turns set)
  = dd_lookup (nth idx (sorted_angles set) 0) set
    ++ [turn_left_at (sorted_angles set) idx;
        turn_right_at (sorted_angles set) idx].
Proof.
  intros Hnd Hidx. rewrite add_in_place_turns_ops, dd_lookup_apply_ops.
  f_equal.
  rewrite (filter_two_per_key (fun i => nth i (sorted_angles set) 0)
             (turn_left_at (sorted_angles set))
             (turn_right_at (sorted_angles set))).
  - reflexivity.
  - rewrite map_nth_seq.
    eapply Permutation_NoDup; [symmetry; apply sorted_angles_perm|exact Hnd].
  - apply in_seq. lia.
Qed.

Lemma prev_angle_idx_cyclic n idx :
  (idx < n)%nat -> prev_angle_idx n idx = ((idx + n - 1) mod n)%nat.
Proof.
  intros H. unfold prev_angle_idx. destruct (Nat.leb_spec 1 idx) as [Hle|Hlt].
  - replace (idx + n - 1)%nat with (idx - 1 + 1 * n)%nat by lia.
    rewrite Nat.Div0.mod_add. symmetry. apply Nat.mod_small. lia.
  - replace (idx + n - 1)%nat with (n - 1)%nat by lia.
    symmetry. apply Nat.mod_small. lia.
Qed.

Lemma next_angle_idx_cyclic n idx :
  (idx < n)%nat -> next_angle_idx n idx = ((idx + 1) mod n)%nat.
Proof.
  intros H. unfold next_angle_idx.
  destruct (Nat.ltb_spec (idx + 1) n) as [Hlt|Hle].
  - symmetry. apply Nat.mod_small. lia.
  - replace (idx + 1)%nat with n by lia. symmetry. apply Nat.Div0.mod_same.
Qed.

(** On a spanning set keyed by start heading the DIFFERENTIAL model appends
    to every key the turns to its two neighbours in increasing cyclic
    order. *)
Lemma neighbour_turns_keyed (lg_a lg_d : LatticeGenerator) (set : SpanningSet) :
  motion_model lg_a = ACKERMANN -> motion_model lg_d = DIFF ->
  keyed_by_start set ->
  exists all_angles set_a set_d,
    Permutation all_angles (keys set) /\
    StronglySorted Rlt all_angles /\
    handle_motion_model lg_a set = Returns set_a /\
    handle_motion_model lg_d set = Returns set_d /\
    keys set_d = keys set_a /\
    forall idx, (idx < length all_angles)%nat ->
      let n := length all_angles in
      let a := nth idx all_angles 0 in
      dd_lookup a set_d
      = dd_lookup a set_a
        ++ [in_place_turn a (nth ((idx + n - 1) mod n) all_angles 0);
            in_place_turn a (nth ((idx + 1) mod n) all_angles 0)].
Proof.
  intros Ha Hd Hk.
  exists (sorted_angles set), set, (add_in_place_turns set).
  unfold handle_motion_model. rewrite Ha, Hd.
  split; [apply sorted_angles_perm|].
  split; [now apply sorted_angles_increasing|].
  split; [reflexivity|]. split; [reflexivity|].
  split; [apply add_in_place_turns_keys|].
  intros idx Hidx. cbv zeta.
  rewrite add_in_place_turns_lookup by (apply Hk || assumption).
  unfold turn_left_at, turn_right_at.
  now rewrite prev_angle_idx_cyclic, next_angle_idx_cyclic by assumption.
Qed.

(** ** Lateral motions *)

Lemma Int_part_nonneg x : 0 <= x -> (0 <= Int_part x)%Z.
Proof.
  intros Hx. destruct (base_Int_part x) as [_ H].
  assert (Hlt : IZR (-1) < IZR (Int_part x)) by lra.
  apply lt_IZR in Hlt. lia.
Qed.

Lemma rint_nonneg x : 0 <= x -> (0 <= rint x)%Z.
Proof.
  intros Hx. pose proof (Int_part_nonneg x Hx). unfold rint.
  repeat match goal with |- context [if ?b then _ else _] => destruct b end;
    lia.
Qed.

Lemma add_motions_loop_ops ml steps angles set :
  (0 <= steps)%Z ->
  add_motions_loop ml steps angles set
  = Returns
      (apply_ops
         (flat_map (fun k => [(k, nth 0 (horizontal_motions ml steps k)
                                      (in_place_turn 0 0));
                              (k, nth 1 (horizontal_motions ml steps k)
                                      (in_place_turn 0 0))])
                   angles)
         set).
Proof.
  intros Hs. revert set; induction angles as [|k angles IH]; intros set.
  - reflexivity.
  - simpl add_motions_loop.
    rewrite (proj2 (Z.ltb_ge steps 0)) by assumption.
    rewrite IH. reflexivity.
Qed.

Lemma compute_min_trajectory_length_ok lg :
  number_of_headings lg <> 0%Z ->
  compute_min_trajectory_length lg
  = Ok (2 * PI * turning_radius lg * (1 / IZR (number_of_headings lg))).
Proof.
  intros Hn. unfold compute_min_trajectory_length, Py.div.
  rewrite (proj2 (Reqb_false _ 0)); [reflexivity|].
  intros H. apply eq_IZR_R0 in H. contradiction.
Qed.

Lemma lateral_steps_nonneg lg :
  0 < grid_separation lg -> 0 <= turning_radius lg ->
  (0 < number_of_headings lg)%Z -> (0 <= lateral_steps lg)%Z.
Proof.
  intros Hgs Hr Hn. apply rint_nonneg.
  apply IZR_lt in Hn. pose proof PI_RGT_0.
  apply Rmult_le_pos; [|left; now apply Rinv_0_lt_compat].
  apply Rmult_le_pos; [apply Rmult_le_pos; lra|].
  apply Rmult_le_pos; [lra|]. left. now apply Rinv_0_lt_compat.
Qed.

Lemma add_horizontal_motions_ops lg set :
  0 < grid_separation lg -> 0 <= turning_radius lg ->
  (0 < number_of_headings lg)%Z ->
  add_horizontal_motions lg set
  = Returns
      (apply_ops
         (flat_map
            (fun k =>
               [(k, nth 0 (horizontal_motions (lateral_length lg)
                             (lateral_steps lg) k) (in_place_turn 0 0));
                (k, nth 1 (horizontal_motions (lateral_length lg)
                             (lateral_steps lg) k) (in_place_turn 0 0))])
            (keys set))
         set).
Proof.
  intros Hgs Hr Hn. unfold add_horizontal_motions.
  rewrite compute_min_trajectory_length_ok by lia.
  unfold Py.div. rewrite (proj2 (Reqb_false _ 0)) by lra.
  apply add_motions_loop_ops. now apply lateral_steps_nonneg.
Qed.

Lemma add_horizontal_motions_keys lg set set' :
  0 < grid_separation lg -> 0 <= turning_radius lg ->
  (0 < number_of_headings lg)%Z ->
  add_horizontal_motions lg set = Returns set' -> keys set' = keys set.
Proof.
  intros Hgs Hr Hn. rewrite add_horizontal_motions_ops by assumption.
  intros E; inversion E; subst; clear E.
  apply keys_apply_ops. intros op Hop.
  apply in_flat_map in Hop as [k [Hk Hop]].
  destruct Hop as [<-|[<-|[]]]; exact Hk.
Qed.

Lemma add_horizontal_motions_lookup lg set set' k :
  0 < grid_separation lg -> 0 <= turning_radius lg ->
  (0 < number_of_headings lg)%Z -> NoDup (keys set) -> In k (keys set) ->
  add_horizontal_motions lg set = Returns set' ->
  dd_lookup k set'
  = dd_lookup k set
    ++ horizontal_motions (lateral_length lg) (lateral_steps lg) k.
Proof.
  intros Hgs Hr Hn Hnd Hk. rewrite add_horizontal_motions_ops by assumption.
  intros E; inversion E; subst; clear E.
  rewrite dd_lookup_apply_ops. f_equal.
  rewrite (filter_two_per_key (fun k => k)
             (fun k => nth 0 (horizontal_motions (lateral_length lg)
                                (lateral_steps lg) k) (in_place_turn 0 0))
             (fun k => nth 1 (horizontal_motions (lateral_length lg)
                                (lateral_steps lg) k) (in_place_turn 0 0)));
    [reflexivity| |exact Hk].
  now rewrite map_id.
Qed.

Lemma add_in_place_turns_lookup_key set k :
  NoDup (keys set) -> In k (keys set) ->
  exists a b,
    dd_lookup k (add_in_place_turns set)
    = dd_lookup k set ++ [in_place_turn k a; in_place_turn k b].
Proof.
  intros Hnd Hk.
  assert (Hin : In k (sorted_angles set)).
  { eapply Permutation_in; [symmetry; apply sorted_angles_perm|exact Hk]. }
  apply (In_nth _ _ 0) in Hin as [idx [Hidx <-]].
  rewrite add_in_place_turns_lookup by assumption.
  unfold turn_left_at, turn_right_at. eauto.
Qed.

(** C10: the augmenters only append.  On a spanning set (a dictionary, so
    with pairwise different keys) [add_in_place_turns] keeps the keys and
    their order and extends every key's list by two turns at its end; for a
    valid configuration [add_horizontal_motions] returns, keeps the keys and
    extends every list by the two lateral motions; hence the DIFFERENTIAL
    list of a key is the given list followed by two turns and the
    OMNIDIRECTIONAL list has the two lateral motions after those. *)
Theorem augmenters_only_append (lg : LatticeGenerator) (set : SpanningSet)
    (Hnd : NoDup (keys set))
    (Hgs : 0 < grid_separation lg) (Hr : 0 <= turning_radius lg)
    (Hn : (0 < number_of_headings lg)%Z) :
  (keys (add_in_place_turns set) = keys set /\
   forall k, In k (keys set) ->
     exists a b,
       dd_lookup k (add_in_place_turns set)
       = dd_lookup k set ++ [in_place_turn k a; in_place_turn k b]) /\
  (exists set',
     add_horizontal_motions lg set = Returns set' /\
     keys set' = keys set /\
     forall k, In k (keys set) ->
       exists m1 m2,
         horizontal_motions (lateral_length lg) (lateral_steps lg) k
         = [m1; m2] /\
         dd_lookup k set' = dd_lookup k set ++ [m1; m2]) /\
  (motion_model lg = DIFF ->
   exists out,
     handle_motion_model lg set = Returns out /\ keys out = keys set /\
     forall k, In k (keys set) ->
       exists a b,
         dd_lookup k out
         = dd_lookup k set ++ [in_place_turn k a; in_place_turn k b]) /\
  (motion_model lg = OMNI ->
   exists out,
     handle_motion_model lg set = Returns out /\ keys out = keys set /\
     forall k, In k (keys set) ->
       exists a b m1 m2,
         horizontal_motions (lateral_length lg) (lateral_steps lg) k
         = [m1; m2] /\
         dd_lookup k out
         = dd_lookup k set
           ++ [in_place_turn k a; in_place_turn k b; m1; m2]).
Proof.
  assert (Hturns : keys (add_in_place_turns set) = keys set /\
                   forall k, In k (keys set) ->
                     exists a b,
                       dd_lookup k (add_in_place_turns set)
                       = dd_lookup k set
                         ++ [in_place_turn k a; in_place_turn k b]).
  { split; [apply add_in_place_turns_keys|].
    intros k Hk. now apply add_in_place_turns_lookup_key. }
  assert (Hside : forall set0, NoDup (keys set0) ->
            exists set',
              add_horizontal_motions lg set0 = Returns set' /\
              keys set' = keys set0 /\
              forall k, In k (keys set0) ->
                exists m1 m2,
                  horizontal_motions (lateral_length lg) (lateral_steps lg) k
                  = [m1; m2] /\
                  dd_lookup k set' = dd_lookup k set0 ++ [m1; m2]).
  { intros set0 Hnd0. eexists. split.
    - now apply add_horizontal_motions_ops.
    - split.
      + eapply add_horizontal_motions_keys; try eassumption.
        now apply add_horizontal_motions_ops.
      + intros k Hk. do 2 eexists. split; [reflexivity|].
        eapply add_horizontal_motions_lookup; try eassumption.
        now apply add_horizontal_motions_ops. }
  split; [exact Hturns|]. split; [now apply Hside|]. split.
  - intros Hd. exists (add_in_place_turns set).
    unfold handle_motion_model. rewrite Hd. tauto.
  - intros Ho. unfold handle_motion_model. rewrite Ho.
    destruct Hturns as [Hkeys Hturns].
    destruct (Hside (add_in_place_turns set)) as [out [E [Hko Hout]]].
    { now rewrite Hkeys. }
    exists out. split; [exact E|]. split; [congruence|].
    intros k Hk. destruct (Hturns k Hk) as [a [b Hab]].
    destruct (Hout k) as [m1 [m2 [Hm Hl]]]; [now rewrite Hkeys|].
    exists a, b, m1, m2. split; [exact Hm|].
    rewrite Hl, Hab. now rewrite <- app_assoc.
Qed.

(** ** Motion-model dispatch *)

Lemma add_motions_loop_not_unsupported ml steps angles set set' :
  add_motions_loop ml steps angles set <> Raises NotImplementedError set'.
Proof.
  revert set; induction angles as [|k angles IH]; intros set; simpl.
  - discriminate.
  - destruct (steps <? 0)%Z; [discriminate|apply IH].
Qed.

Lemma add_horizontal_motions_not_unsupported lg set set' :
  add_horizontal_motions lg set <> Raises NotImplementedError set'.
Proof.
  unfold add_horizontal_motions, compute_min_trajectory_length, Py.div.
  destruct (Reqb (IZR (number_of_headings lg)) 0); simpl; [discriminate|].
  destruct (Reqb (grid_separation lg) 0); [discriminate|].
  apply add_motions_loop_not_unsupported.
Qed.

(** C7: [handle_motion_model] returns its argument unchanged for
    ACKERMANN; it raises the unsupported-model error exactly when the
    motion model is none of ACKERMANN, DIFF and OMNI, and the spanning set
    is then as it was passed in. *)
Theorem handle_motion_model_dispatch (lg : LatticeGenerator)
    (set : SpanningSet) :
  (motion_model lg = ACKERMANN -> handle_motion_model lg set = Returns set) /\
  ((exists set', handle_motion_model lg set = Raises NotImplementedError set')
   <-> (motion_model lg <> ACKERMANN /\ motion_model lg <> DIFF /\
        motion_model lg <> OMNI)) /\
  (forall set', handle_motion_model lg set = Raises NotImplementedError set' ->
                set' = set).
Proof.
  unfold handle_motion_model.
  destruct (motion_model lg) eqn:Hm.
  - split; [reflexivity|]. split; [split|]; try discriminate.
    + intros [set' H]. discriminate.
    + intros [H _]. congruence.
  - split; [discriminate|]. split; [split|]; try discriminate.
    + intros [set' H]. discriminate.
    + intros [_ [H _]]. congruence.
  - split; [discriminate|]. split; [split|].
    + intros [set' H].
      now apply add_horizontal_motions_not_unsupported in H.
    + intros [_ [_ H]]. congruence.
    + intros set' H.
      now apply add_horizontal_motions_not_unsupported in H.
  - split; [discriminate|]. split; [split|].
    + intros _. repeat split; discriminate.
    + intros _. now exists set.
    + intros set' H. now inversion H.
Qed.

(** ** Heading discretizer *)

Lemma Int_part_IZR z : Int_part (IZR z) = z.
Proof. symmetry. apply Int_part_spec. lra. Qed.

Lemma max_val_div8 lg :
  (0 <= number_of_headings lg)%Z ->
  max_val lg = (number_of_headings lg / 8)%Z.
Proof.
  intros Hn. unfold max_val, trunc.
  set (n := number_of_headings lg) in *.
  pose proof (Z.div_mod n 8 ltac:(lia)) as Hdm.
  pose proof (Z.mod_pos_bound n 8 ltac:(lia)) as [Hr0 Hr8].
  assert (HR : IZR n = 8 * IZR (n / 8) + IZR (n mod 8)).
  { rewrite Hdm at 1. now rewrite plus_IZR, mult_IZR. }
  apply IZR_le in Hr0. apply IZR_lt in Hr8.
  assert (Hq : (0 <= n / 8)%Z) by (apply Z.div_pos; lia).
  apply IZR_le in Hq.
  rewrite (proj2 (Rleb_true 0 _)) by lra.
  symmetry. apply Int_part_spec. lra.
Qed.

Lemma combine_outer_edges m :
  combine (outer_edge_x m) (outer_edge_y m) = edge_cells m.
Proof.
  unfold outer_edge_x, outer_edge_y, edge_cells.
  induction (range (- m) (m + 1)) as [|i l IH]; [reflexivity|].
  simpl in *. do 2 f_equal. destruct (on_side m i); simpl; now rewrite IH.
Qed.

Lemma range_length lo hi : length (range lo hi) = Z.to_nat (hi - lo).
Proof. unfold range. now rewrite length_map, length_seq. Qed.

Lemma in_range lo hi k : In k (range lo hi) <-> (lo <= k < hi)%Z.
Proof.
  unfold range. rewrite in_map_iff. split.
  - intros [i [<- Hi]]. apply in_seq in Hi. lia.
  - intros H. exists (Z.to_nat (k - lo)). split; [lia|].
    apply in_seq. lia.
Qed.

Lemma map_seq_offset {A} (f g : nat -> A) len a b :
  (forall k, f (a + k)%nat = g (b + k)%nat) ->
  map f (seq a len) = map g (seq b len).
Proof.
  revert a b; induction len as [|len IH]; intros a b H; simpl.
  - reflexivity.
  - f_equal.
    + specialize (H 0%nat). now rewrite !Nat.add_0_r in H.
    + apply IH. intros k. specialize (H (S k)).
      now rewrite !Nat.add_succ_r in H.
Qed.

Lemma range_split lo mid hi :
  (lo <= mid <= hi)%Z -> range lo hi = range lo mid ++ range mid hi.
Proof.
  intros H. unfold range.
  replace (Z.to_nat (hi - lo))
    with (Z.to_nat (mid - lo) + Z.to_nat (hi - mid))%nat by lia.
  rewrite seq_app, map_app. f_equal.
  apply map_seq_offset. intros k. lia.
Qed.

Lemma range_one lo : range lo (lo + 1) = [lo].
Proof.
  unfold range. replace (lo + 1 - lo)%Z with 1%Z by lia. simpl.
  f_equal. lia.
Qed.

Lemma length_flat_map_const {A B} (f : A -> list B) (l : list A) c :
  (forall x, In x l -> length (f x) = c) ->
  length (flat_map f l) = (c * length l)%nat.
Proof.
  induction l as [|x l IH]; simpl; intros H; [lia|].
  rewrite length_app, IH, H by auto. lia.
Qed.

Lemma edge_cells_length m :
  (1 <= m)%Z -> length (edge_cells m) = Z.to_nat (8 * m).
Proof.
  intros Hm. unfold edge_cells.
  rewrite (range_split (- m) (- m + 1) (m + 1)) by lia.
  rewrite (range_split (- m + 1) m (m + 1)) by lia.
  rewrite !range_one, !flat_map_app, !length_app.
  rewrite (length_flat_map_const _ (range (- m + 1) m) 4).
  - rewrite range_length. simpl flat_map. rewrite !app_nil_r.
    unfold on_side.
    rewrite !Z.eqb_refl. rewrite andb_false_r. simpl negb. simpl andb.
    simpl length. lia.
  - intros i Hi. apply in_range in Hi. unfold on_side.
    rewrite (proj2 (Z.eqb_neq i m)), (proj2 (Z.eqb_neq i (- m))) by lia.
    reflexivity.
Qed.

Lemma in_edge_cells m i j :
  (0 <= m)%Z ->
  In (i, j) (edge_cells m) <->
  (- m <= i <= m)%Z /\ (- m <= j <= m)%Z /\
  (Z.abs i = m \/ Z.abs j = m).
Proof.
  intros Hm. unfold edge_cells. rewrite in_flat_map. split.
  - intros [k [Hk Hin]]. apply in_range in Hk.
    apply in_app_or in Hin as [Hin|Hin].
    + destruct Hin as [E|[E|[]]]; inversion E; subst; lia.
    + unfold on_side in Hin.
      destruct (k =? m)%Z eqn:E1; [contradiction|].
      destruct (k =? - m)%Z eqn:E2; [contradiction|].
      destruct Hin as [E|[E|[]]]; inversion E; subst; lia.
  - intros [Hi [Hj Hb]].
    destruct (Z.eq_dec (Z.abs j) m) as [Hjm|Hjm].
    + exists i. split; [apply in_range; lia|].
      apply in_or_app. left. simpl.
      destruct (Z.eq_dec j m) as [->|Hne]; [tauto|].
      left. f_equal. lia.
    + exists j. split; [apply in_range; lia|].
      apply in_or_app. right. unfold on_side.
      rewrite (proj2 (Z.eqb_neq j m)), (proj2 (Z.eqb_neq j (- m))) by lia.
      simpl. destruct (Z.eq_dec i m) as [->|Hne]; [tauto|].
      left. f_equal. lia.
Qed.

(** ** The arctangent of two arguments *)

Ltac sign_cases x y :=
  destruct (Rtotal_order x 0) as [?|[?|?]];
  destruct (Rtotal_order y 0) as [?|[?|?]];
  try subst x; try subst y.

Lemma atan_div_opp_num y x : x <> 0 -> atan (- y / x) = - atan (y / x).
Proof.
  intros Hx. rewrite <- atan_opp. f_equal. now field.
Qed.

Lemma atan_div_opp_den y x : x <> 0 -> atan (y / - x) = - atan (y / x).
Proof.
  intros Hx. rewrite <- atan_opp. f_equal. now field.
Qed.

Lemma atan_pos t : 0 < t -> 0 < atan t.
Proof. intros H. rewrite <- atan_0. now apply atan_increasing. Qed.

Lemma atan_neg t : t < 0 -> atan t < 0.
Proof. intros H. rewrite <- atan_0. now apply atan_increasing. Qed.

Lemma div_pos_neg y x : 0 < y -> x < 0 -> y / x < 0.
Proof.
  intros Hy Hx. unfold Rdiv.
  assert (/ x < 0) by now apply Rinv_lt_0_compat. nra.
Qed.

Lemma div_neg_neg y x : y < 0 -> x < 0 -> 0 < y / x.
Proof.
  intros Hy Hx. unfold Rdiv.
  assert (/ x < 0) by now apply Rinv_lt_0_compat. nra.
Qed.

Lemma arctan2_range y x : - PI < arctan2 y x <= PI.
Proof.
  pose proof PI_RGT_0 as Hpi.
  sign_cases x y; unfold arctan2; Rdecide;
    try match goal with
        | |- context [atan (0 / ?t)] =>
            replace (0 / t) with 0 by (field; lra); rewrite atan_0
        | |- context [atan ?t] => pose proof (atan_bound t)
        end;
    try lra.
  - pose proof (atan_pos _ (div_neg_neg y x ltac:(lra) ltac:(lra))). lra.
  - pose proof (atan_neg _ (div_pos_neg y x ltac:(lra) ltac:(lra))). lra.
Qed.

Lemma arctan2_opp_y y x :
  arctan2 (- y) x = - arctan2 y x \/
  arctan2 (- y) x = - arctan2 y x + 2 * PI.
Proof.
  pose proof PI_RGT_0 as Hpi.
  sign_cases x y; unfold arctan2; Rdecide;
    try rewrite atan_div_opp_num by lra; try rewrite Ropp_0;
    try (left; lra).
  - replace (0 / x) with 0 by (field; lra). rewrite atan_0. right. lra.
Qed.

Lemma arctan2_opp_x y x :
  x <> 0 \/ y <> 0 ->
  arctan2 y (- x) = PI - arctan2 y x \/
  arctan2 y (- x) = PI - arctan2 y x - 2 * PI.
Proof.
  intros Hne. pose proof PI_RGT_0 as Hpi.
  sign_cases x y; unfold arctan2; Rdecide;
    try rewrite atan_div_opp_den by lra; try rewrite Ropp_0; Rdecide;
    try (left; lra); try (right; lra).
Qed.

Lemma rad2deg_opp t : rad2deg (- t) = - rad2deg t.
Proof. unfold rad2deg. pose proof PI_RGT_0. field. lra. Qed.

Lemma rad2deg_plus_turn t : rad2deg (t + 2 * PI) = rad2deg t + 360.
Proof. unfold rad2deg. pose proof PI_RGT_0. field. lra. Qed.

Lemma rad2deg_reflect t : rad2deg (PI - t) = 180 - rad2deg t.
Proof. unfold rad2deg. pose proof PI_RGT_0. field. lra. Qed.

Lemma rad2deg_reflect_turn t :
  rad2deg (PI - t - 2 * PI) = 180 - rad2deg t - 360.
Proof. unfold rad2deg. pose proof PI_RGT_0. field. lra. Qed.

Lemma rad2deg_range t : - PI < t <= PI -> -180 < rad2deg t <= 180.
Proof.
  intros [Hlo Hhi]. unfold rad2deg. pose proof PI_RGT_0 as Hpi.
  assert (Hk : 0 < 180 / PI) by (apply Rdiv_lt_0_compat; lra).
  assert (E : 180 = PI * (180 / PI)) by (field; lra).
  split.
  - replace (-180) with (- PI * (180 / PI)) by (field; lra).
    now apply Rmult_lt_compat_r.
  - rewrite E at 2. apply Rmult_le_compat_r; lra.
Qed.

Lemma rad2deg_0 : rad2deg 0 = 0.
Proof. unfold rad2deg. lra. Qed.

Lemma rad2deg_PI : rad2deg PI = 180.
Proof. unfold rad2deg. pose proof PI_RGT_0. field. lra. Qed.

Lemma rad2deg_half_PI : rad2deg (PI / 2) = 90.
Proof. unfold rad2deg. pose proof PI_RGT_0. field. lra. Qed.

Lemma in_heading_discretization lg h :
  In h (get_heading_discretization lg) <->
  exists i j, In (i, j) (edge_cells (max_val lg)) /\ h = heading_of (i, j).
Proof.
  unfold get_heading_discretization. rewrite combine_outer_edges, in_map_iff.
  split.
  - intros [[i j] [E H]]. now exists i, j.
  - intros [i [j [H E]]]. now exists (i, j).
Qed.

Lemma heading_discretization_length lg :
  length (get_heading_discretization lg) = length (edge_cells (max_val lg)).
Proof.
  unfold get_heading_discretization.
  now rewrite length_map, combine_outer_edges.
Qed.

Lemma heading_of_east m : (1 <= m)%Z -> heading_of (m, 0%Z) = 0.
Proof.
  intros Hm. apply IZR_le in Hm. unfold heading_of, arctan2; simpl. Rdecide.
  replace (0 / IZR m) with 0 by (field; lra).
  now rewrite atan_0, rad2deg_0.
Qed.

Lemma heading_of_north m : (1 <= m)%Z -> heading_of (0%Z, m) = 90.
Proof.
  intros Hm. apply IZR_le in Hm. unfold heading_of, arctan2; simpl. Rdecide.
  apply rad2deg_half_PI.
Qed.

Lemma heading_of_west m : (1 <= m)%Z -> heading_of ((- m)%Z, 0%Z) = 180.
Proof.
  intros Hm. apply IZR_le in Hm. unfold heading_of, arctan2; simpl.
  rewrite opp_IZR. Rdecide.
  replace (0 / - IZR m) with 0 by (field; lra).
  rewrite atan_0, Rplus_0_l. apply rad2deg_PI.
Qed.

Lemma heading_of_south m : (1 <= m)%Z -> heading_of (0%Z, (- m)%Z) = -90.
Proof.
  intros Hm. apply IZR_le in Hm. unfold heading_of, arctan2; simpl.
  rewrite opp_IZR. Rdecide.
  rewrite rad2deg_opp, rad2deg_half_PI. lra.
Qed.

(** C4, as amended: for a heading count [n >= 8] the discretizer returns
    [8 * (n / 8)] headings, hence exactly [n] of them when [n] is a
    multiple of 8; they lie in [(-180, 180]], include the four axis
    directions, and are closed, modulo 360, under negation and under the
    reflection [h -> 180 - h]. *)
Theorem heading_discretization_compass (lg : LatticeGenerator)
    (Hn : (8 <= number_of_headings lg)%Z) :
  let hs := get_heading_discretization lg in
  let n := number_of_headings lg in
  length hs = Z.to_nat (8 * (n / 8)) /\
  ((n mod 8 = 0)%Z -> length hs = Z.to_nat n) /\
  (forall h, In h hs -> -180 < h <= 180) /\
  (In 0 hs /\ In 90 hs /\ In 180 hs /\ In (-90) hs) /\
  (forall h, In h hs -> exists h', In h' hs /\ (h' = - h \/ h' = - h + 360)) /\
  (forall h, In h hs ->
     exists h', In h' hs /\ (h' = 180 - h \/ h' = 180 - h - 360)).
Proof.
  intros hs n. subst hs.
  assert (Hmv : max_val lg = (n / 8)%Z) by (apply max_val_div8; lia).
  assert (Hm : (1 <= n / 8)%Z).
  { apply Z.div_le_lower_bound; lia. }
  assert (Hlen : length (get_heading_discretization lg)
                 = Z.to_nat (8 * (n / 8))).
  { rewrite heading_discretization_length, Hmv. now apply edge_cells_length. }
  split; [exact Hlen|]. split.
  { intros Hmod. rewrite Hlen. f_equal.
    pose proof (Z.div_mod n 8 ltac:(lia)). lia. }
  split.
  { intros h Hh. apply in_heading_discretization in Hh as [i [j [_ ->]]].
    apply rad2deg_range, arctan2_range. }
  split.
  { repeat split; apply in_heading_discretization; rewrite Hmv.
    - exists (n / 8)%Z, 0%Z. rewrite heading_of_east by assumption.
      split; [apply in_edge_cells; lia|reflexivity].
    - exists 0%Z, (n / 8)%Z. rewrite heading_of_north by assumption.
      split; [apply in_edge_cells; lia|reflexivity].
    - exists (- (n / 8))%Z, 0%Z. rewrite heading_of_west by assumption.
      split; [apply in_edge_cells; lia|reflexivity].
    - exists 0%Z, (- (n / 8))%Z. rewrite heading_of_south by assumption.
      split; [apply in_edge_cells; lia|reflexivity]. }
  split.
  - intros h Hh. apply in_heading_discretization in Hh as [i [j [Hin ->]]].
    rewrite Hmv in Hin. apply in_edge_cells in Hin; [|lia].
    exists (heading_of (i, (- j)%Z)). split.
    + apply in_heading_discretization. exists i, (- j)%Z.
      split; [|reflexivity]. rewrite Hmv. apply in_edge_cells; lia.
    + unfold heading_of; simpl. rewrite opp_IZR.
      destruct (arctan2_opp_y (IZR j) (IZR i)) as [-> | ->].
      * left. apply rad2deg_opp.
      * right. now rewrite rad2deg_plus_turn, rad2deg_opp.
  - intros h Hh. apply in_heading_discretization in Hh as [i [j [Hin ->]]].
    rewrite Hmv in Hin. apply in_edge_cells in Hin; [|lia].
    exists (heading_of ((- i)%Z, j)). split.
    + apply in_heading_discretization. exists (- i)%Z, j.
      split; [|reflexivity]. rewrite Hmv. apply in_edge_cells; lia.
    + unfold heading_of; simpl. rewrite opp_IZR.
      destruct (arctan2_opp_x (IZR j) (IZR i)) as [-> | ->].
      * destruct (Z.eq_dec i 0) as [->|Hi].
        -- right. intros E. apply eq_IZR_R0 in E. lia.
        -- left. intros E. apply eq_IZR_R0 in E. lia.
      * left. apply rad2deg_reflect.
      * right. apply rad2deg_reflect_turn.
Qed.

(** ** Invariants of the symmetry expander *)

Lemma in_dd_append {V} k (x : V) d k' l' :
  In (k', l') (dd_append k x d) ->
  In (k', l') d \/
  (k' = k /\ exists l, l' = l ++ [x] /\ (In (k', l) d \/ l = [])).
Proof.
  induction d as [|[k0 l0] d IH]; simpl.
  - intros [E|[]]. inversion E; subst. right. split; [reflexivity|].
    exists []. auto.
  - destruct (Reqb k0 k) eqn:E; simpl.
    + apply Reqb_true in E; subst k0. intros [E|H].
      * inversion E; subst. right. split; [reflexivity|].
        exists l0. auto.
      * auto.
    + intros [E'|H]; [auto|].
      apply IH in H as [H|[Hk [l [Hl [H|H]]]]]; eauto 8.
Qed.

Lemma all_primitives_dd_append P q set :
  all_primitives P set -> P q ->
  all_primitives P (dd_append (start_heading q) q set).
Proof.
  intros Hall Hq k l p Hin Hp.
  apply in_dd_append in Hin as [Hin|[_ [l0 [-> [Hin| ->]]]]].
  - eapply Hall; eauto.
  - apply in_app_or in Hp as [Hp|[<-|[]]]; [eapply Hall; eauto|exact Hq].
  - destruct Hp as [<-|[]]. exact Hq.
Qed.

Lemma keys_dd_append_absent {V} k (x : V) d :
  ~ In k (keys d) -> keys (dd_append k x d) = keys d ++ [k].
Proof.
  unfold keys. induction d as [|[k' l] d IH]; simpl; [reflexivity|].
  intros Hni. rewrite (proj2 (Reqb_false k' k)) by tauto. simpl.
  f_equal. apply IH. tauto.
Qed.

Lemma NoDup_keys_dd_append {V} k (x : V) d :
  NoDup (keys d) -> NoDup (keys (dd_append k x d)).
Proof.
  intros Hnd. destruct (in_dec Req_dec_T k (keys d)) as [Hin|Hni].
  - now rewrite keys_dd_append_present.
  - rewrite keys_dd_append_absent by assumption.
    eapply Permutation_NoDup; [apply Permutation_cons_append|].
    now constructor.
Qed.

Lemma keyed_by_start_append q set :
  keyed_by_start set -> keyed_by_start (append_primitive q set).
Proof.
  intros [Hnd Hk]. unfold append_primitive. split.
  - now apply NoDup_keys_dd_append.
  - intros k l Hin.
    apply in_dd_append in Hin as [Hin|[-> [l0 [-> [Hin| ->]]]]].
    + now apply Hk.
    + split; [now destruct l0|].
      intros p Hp. apply in_app_or in Hp as [Hp|[<-|[]]]; [|reflexivity].
      now apply (Hk _ _ Hin).
    + split; [discriminate|]. intros p [<-|[]]. reflexivity.
Qed.

Lemma keyed_by_start_nil : keyed_by_start [].
Proof. split; [constructor|]. intros k l []. Qed.

Section ExpanderProperties.

Variable St : Type.
Variable generate_trajectory :
  Point -> R -> R -> R -> St -> option Trajectory * St.

Lemma for_each_invariant {X A} (Inv : A -> Prop) (l : list X)
    (body : X -> A -> M St A) :
  (forall x a s a' s',
      In x l -> Inv a -> body x a s = (Ok a', s') -> Inv a') ->
  forall a s a' s',
    Inv a -> for_each l body a s = (Ok a', s') -> Inv a'.
Proof.
  induction l as [|x l IH]; intros Hbody a s a' s' Ha; simpl.
  - unfold ret. intros E; inversion E; subst. exact Ha.
  - unfold bindM. destruct (body x a s) as [[a1|e] s1] eqn:E1; [|discriminate].
    apply IH.
    + intros y b t b' t' Hy. apply Hbody. now right.
    + eapply Hbody; eauto. now left.
Qed.

Lemma fold_append_invariant (Inv : SpanningSet -> Prop) prims set :
  (forall q set, In q prims -> Inv set -> Inv (append_primitive q set)) ->
  Inv set ->
  Inv (fold_left (fun all q => append_primitive q all) prims set).
Proof.
  revert set; induction prims as [|q prims IH]; intros set Hstep Hset; simpl.
  - exact Hset.
  - apply IH.
    + intros q' set' Hq'. apply Hstep. now right.
    + apply Hstep; [now left|exact Hset].
Qed.

(** Whatever the draft set, the expander yields a spanning set keyed by
    the start heading of its primitives. *)
Lemma create_complete_keyed lg drafts s set s' :
  create_complete_minimal_spanning_set generate_trajectory lg drafts s
  = (Ok set, s') ->
  keyed_by_start set.
Proof.
  unfold create_complete_minimal_spanning_set.
  apply for_each_invariant; [|apply keyed_by_start_nil].
  intros start_angle a t a' t' _ Ha.
  apply for_each_invariant; [|exact Ha].
  intros [end_point end_angle] b u b' u' _ Hb. unfold expand_entry.
  destruct (generate_trajectory _ _ _ _ u) as [[tr|] u1]; [|discriminate].
  intros E; inversion E; subst.
  apply fold_append_invariant; [|exact Hb].
  intros q set0 _. apply keyed_by_start_append.
Qed.

End ExpanderProperties.

(** C2: for the spanning set the symmetry expander returns, the
    DIFFERENTIAL motion model keeps the keys of the ACKERMANN result and
    appends to every key's list exactly two primitives.  Each of the two
    starts at that heading, has zero radius, zero total, arc and straight
    length, and two poses at the origin; the first ends at the predecessor
    and the second at the successor of the heading in the increasing,
    cyclically closed order of all heading keys, and the second pose
    carries that neighbour. *)
Theorem differential_adds_neighbour_turns {St : Type}
    (generate_trajectory :
       Point -> R -> R -> R -> St -> option Trajectory * St)
    (lg : LatticeGenerator) (drafts : QuadrantSet) (s s' : St)
    (set : SpanningSet)
    (Hexpand : create_complete_minimal_spanning_set generate_trajectory lg
                 drafts s = (Ok set, s')) :
  exists all_angles set_a set_d,
    Permutation all_angles (keys set) /\
    StronglySorted Rlt all_angles /\
    handle_motion_model (with_motion_model lg ACKERMANN) set
    = Returns set_a /\
    handle_motion_model (with_motion_model lg DIFF) set = Returns set_d /\
    keys set_d = keys set_a /\
    forall idx, (idx < length all_angles)%nat ->
      let n := length all_angles in
      let a := nth idx all_angles 0 in
      let predecessor := nth ((idx + n - 1) mod n) all_angles 0 in
      let successor := nth ((idx + 1) mod n) all_angles 0 in
      exists turn_prev turn_next,
        dd_lookup a set_d = dd_lookup a set_a ++ [turn_prev; turn_next] /\
        (start_heading turn_prev = a /\
         end_heading turn_prev = predecessor /\
         prim_radius turn_prev = 0 /\ total_length turn_prev = 0 /\
         arc_length turn_prev = 0 /\ straight_length turn_prev = 0 /\
         poses turn_prev = [(0, 0, a); (0, 0, predecessor)]) /\
        (start_heading turn_next = a /\
         end_heading turn_next = successor /\
         prim_radius turn_next = 0 /\ total_length turn_next = 0 /\
         arc_length turn_next = 0 /\ straight_length turn_next = 0 /\
         poses turn_next = [(0, 0, a); (0, 0, successor)]).
Proof.
  destruct (neighbour_turns_keyed (with_motion_model lg ACKERMANN)
              (with_motion_model lg DIFF) set eq_refl eq_refl)
    as [all_angles [set_a [set_d [Hperm [Hsort [Ha [Hd [Hkeys Hturns]]]]]]]].
  { eapply create_complete_keyed. exact Hexpand. }
  exists all_angles, set_a, set_d.
  repeat (split; [assumption|]).
  intros idx Hidx. cbv zeta. specialize (Hturns idx Hidx). cbv zeta in Hturns.
  exists (in_place_turn (nth idx all_angles 0)
            (nth ((idx + length all_angles - 1) mod length all_angles)
                 all_angles 0)),
         (in_place_turn (nth idx all_angles 0)
            (nth ((idx + 1) mod length all_angles) all_angles 0)).
  split; [exact Hturns|].
  split; repeat split; reflexivity.
Qed.

(** The search and the expander do not read the motion model. *)
Lemma generate_with_motion_model {St : Type}
    (generate_trajectory :
       Point -> R -> R -> R -> St -> option Trajectory * St)
    (lg : LatticeGenerator) (model : MotionModel) :
  generate_minimal_spanning_set generate_trajectory
    (with_motion_model lg model)
  = generate_minimal_spanning_set generate_trajectory lg.
Proof. reflexivity. Qed.

(** The same for two whole runs that differ in the motion model only. *)
Lemma run_differential_turns {St : Type}
    (generate_trajectory :
       Point -> R -> R -> R -> St -> option Trajectory * St)
    (lg : LatticeGenerator) (s s' : St) (set_a : SpanningSet) :
  run generate_trajectory (with_motion_model lg ACKERMANN) s
  = (Ok set_a, s') ->
  exists all_angles set_d,
    run generate_trajectory (with_motion_model lg DIFF) s = (Ok set_d, s') /\
    Permutation all_angles (keys set_a) /\
    StronglySorted Rlt all_angles /\
    keys set_d = keys set_a /\
    forall idx, (idx < length all_angles)%nat ->
      let n := length all_angles in
      let a := nth idx all_angles 0 in
      dd_lookup a set_d
      = dd_lookup a set_a
        ++ [in_place_turn a (nth ((idx + n - 1) mod n) all_angles 0);
            in_place_turn a (nth ((idx + 1) mod n) all_angles 0)].
Proof.
  unfold run. rewrite !generate_with_motion_model.
  unfold bindM, lift.
  destruct (generate_minimal_spanning_set generate_trajectory lg s)
    as [[set|e] s1] eqn:Hgen; [|discriminate].
  simpl. intros E; inversion E; subst; clear E.
  assert (Hk : keyed_by_start set_a).
  { unfold generate_minimal_spanning_set, bindM in Hgen.
    destruct (single_quadrant_search generate_trajectory lg s)
      as [[drafts|e] s0]; [|discriminate].
    eapply create_complete_keyed. exact Hgen. }
  destruct (neighbour_turns_keyed (with_motion_model lg ACKERMANN)
              (with_motion_model lg DIFF) set_a eq_refl eq_refl Hk)
    as [all_angles [sa [sd [Hperm [Hsort [Ha [Hd [Hkeys Hturns]]]]]]]].
  simpl in Ha, Hd. inversion Ha; subst sa. inversion Hd; subst sd.
  exists all_angles, (add_in_place_turns set_a). repeat split; assumption.
Qed.

(** ** Length bookkeeping *)

Lemma Rabs_eq_cases a b : a = b \/ a = - b -> Rabs a = Rabs b.
Proof. intros [->| ->]; [reflexivity|apply Rabs_Ropp]. Qed.

Lemma arc_eq r a b :
  a = b \/ a = - b ->
  2 * PI * r * Rabs a / 360 = 2 * PI * r * Rabs b / 360.
Proof. intros H. now rewrite (Rabs_eq_cases a b H). Qed.

Ltac reqb_facts :=
  repeat match goal with
         | H : Reqb _ _ = true |- _ => apply Reqb_true in H
         | H : Reqb _ _ = false |- _ => apply Reqb_false in H
         end.

Lemma reflect_trajectory_consistent s e t q :
  In q (reflect_trajectory s e t) -> length_consistent q.
Proof.
  unfold reflect_trajectory.
  destruct (Reqb s 0) eqn:Es0; destruct (Reqb e 0) eqn:Ee0;
    destruct (Reqb s 90) eqn:Es90; destruct (Reqb e 90) eqn:Ee90;
    cbn [andb In]; reqb_facts; intros Hin;
    repeat (destruct Hin as [<-|Hin]; [|]); try contradiction;
    unfold length_consistent, mk_primitive;
    cbn [start_heading end_heading prim_radius total_length arc_length
         straight_length];
    (split; [lra|]);
    (split;
     [ first [ left; apply arc_eq; lra
             | right; left; apply arc_eq; lra
             | right; right; apply arc_eq; lra ]
     | intros Hs He; first [ apply arc_eq; lra | exfalso; lra ] ]).
Qed.

Lemma fold_left_invariant {A B} (Inv : A -> Prop) (f : A -> B -> A) l a :
  (forall a x, In x l -> Inv a -> Inv (f a x)) -> Inv a ->
  Inv (fold_left f l a).
Proof.
  revert a; induction l as [|x l IH]; intros a Hstep Ha; simpl.
  - exact Ha.
  - apply IH; [intros b y Hy; apply Hstep; now right|].
    apply Hstep; [now left|exact Ha].
Qed.

Lemma all_primitives_add_in_place_turns P set :
  (forall a b, P (in_place_turn a b)) ->
  all_primitives P set -> all_primitives P (add_in_place_turns set).
Proof.
  intros Hturn Hset. unfold add_in_place_turns.
  apply fold_left_invariant; [|exact Hset].
  intros set0 idx _ Hset0. unfold add_turns_at.
  apply (all_primitives_dd_append P (in_place_turn _ _)); [|apply Hturn].
  apply (all_primitives_dd_append P (in_place_turn _ _)); [|apply Hturn].
  exact Hset0.
Qed.

Lemma all_primitives_add_motions_loop P ml steps angles set out :
  (forall k q, In q (horizontal_motions ml steps k) -> P q) ->
  all_primitives P set ->
  add_motions_loop ml steps angles set = Returns out ->
  all_primitives P out.
Proof.
  intros Hm. revert set; induction angles as [|k angles IH]; intros set Hset;
    simpl.
  - intros E; inversion E; subst. exact Hset.
  - destruct (steps <? 0)%Z; [discriminate|].
    apply IH.
    apply (all_primitives_dd_append P
             (nth 1 (horizontal_motions ml steps k) (in_place_turn 0 0)));
      [|apply (Hm k); unfold horizontal_motions; cbn [nth In]; auto].
    apply (all_primitives_dd_append P
             (nth 0 (horizontal_motions ml steps k) (in_place_turn 0 0)));
      [|apply (Hm k); unfold horizontal_motions; cbn [nth In]; auto].
    exact Hset.
Qed.

Lemma all_primitives_handle_motion_model P lg set out :
  (forall a b, P (in_place_turn a b)) ->
  (forall ml steps k q, In q (horizontal_motions ml steps k) -> P q) ->
  all_primitives P set ->
  handle_motion_model lg set = Returns out ->
  all_primitives P out.
Proof.
  intros Hturn Hm Hset. unfold handle_motion_model.
  destruct (motion_model lg).
  - intros E; inversion E; subst. exact Hset.
  - intros E; inversion E; subst.
    now apply all_primitives_add_in_place_turns.
  - unfold add_horizontal_motions.
    destruct (compute_min_trajectory_length lg) as [ml|e]; [|discriminate].
    destruct (Py.div ml (grid_separation lg)) as [q|e]; [|discriminate].
    apply all_primitives_add_motions_loop; [apply Hm|].
    now apply all_primitives_add_in_place_turns.
  - discriminate.
Qed.

Lemma all_primitives_nil P : all_primitives P [].
Proof. intros k l p []. Qed.

Lemma create_complete_all_primitives {St} (gen : Point -> R -> R -> R -> St ->
                                                  option Trajectory * St)
    P lg drafts s set s' :
  (forall start_angle end_angle t q,
      In end_angle (map snd (dd_lookup start_angle (with_90_degrees drafts))) ->
      In q (reflect_trajectory start_angle end_angle t) -> P q) ->
  create_complete_minimal_spanning_set gen lg drafts s = (Ok set, s') ->
  all_primitives P set.
Proof.
  intros HP. unfold create_complete_minimal_spanning_set.
  apply for_each_invariant; [|apply all_primitives_nil].
  intros start_angle a t a' t' _ Ha.
  apply for_each_invariant; [|exact Ha].
  intros [end_point end_angle] b u b' u' Hentry Hb. unfold expand_entry.
  destruct (gen _ _ _ _ u) as [[tr|] u1]; [|discriminate].
  intros E; inversion E; subst.
  apply fold_append_invariant; [|exact Hb].
  intros q set0 Hq Hset0. apply all_primitives_dd_append; [exact Hset0|].
  apply (HP start_angle end_angle tr); [|exact Hq].
  apply in_map_iff. now exists (end_point, end_angle).
Qed.

Lemma in_place_turn_consistent a b : length_consistent (in_place_turn a b).
Proof.
  unfold length_consistent, in_place_turn; simpl.
  split; [lra|]. split; [left|intros _ _]; unfold Rdiv; ring.
Qed.

Lemma horizontal_motions_consistent ml steps k q :
  In q (horizontal_motions ml steps k) -> length_consistent q.
Proof.
  unfold horizontal_motions. cbn [In].
  intros [<-|[<-|[]]]; unfold length_consistent; simpl;
    (split; [lra|]); (split; [left|intros _ _]); unfold Rdiv; ring.
Qed.

(** C3, as amended: every primitive of the final output, reflected or
    added by the motion model, has
    [totalLength = arcLength + straightLength], and
    [arcLength = 2*pi*radius*|turn|/360] where [turn] is the difference of
    the primitive's own start and end heading up to a full turn of 360
    degrees; it is that difference itself whenever neither heading is the
    -180 the expander writes in place of 180. *)
Theorem output_lengths_consistent {St : Type}
    (generate_trajectory :
       Point -> R -> R -> R -> St -> option Trajectory * St)
    (lg : LatticeGenerator) (drafts : QuadrantSet) (s s' : St)
    (set out : SpanningSet)
    (Hexpand : create_complete_minimal_spanning_set generate_trajectory lg
                 drafts s = (Ok set, s'))
    (Hmodel : handle_motion_model lg set = Returns out) :
  all_primitives length_consistent out.
Proof.
  eapply all_primitives_handle_motion_model; [| | |exact Hmodel].
  - apply in_place_turn_consistent.
  - apply horizontal_motions_consistent.
  - eapply create_complete_all_primitives; [|exact Hexpand].
    intros start_angle end_angle t q _. apply reflect_trajectory_consistent.
Qed.

(** The same for the result of [run], from the search onwards. *)
Lemma run_lengths_consistent {St : Type}
    (generate_trajectory :
       Point -> R -> R -> R -> St -> option Trajectory * St)
    (lg : LatticeGenerator) (s s' : St) (out : SpanningSet) :
  run generate_trajectory lg s = (Ok out, s') ->
  all_primitives length_consistent out.
Proof.
  unfold run, generate_minimal_spanning_set, bindM, lift.
  destruct (single_quadrant_search generate_trajectory lg s)
    as [[drafts|e] s1]; [|discriminate].
  destruct (create_complete_minimal_spanning_set generate_trajectory lg
              drafts s1) as [[set|e] s2] eqn:Hexpand; [|discriminate].
  destruct (handle_motion_model lg set) as [out'|e set'] eqn:Hmodel;
    simpl; [|discriminate].
  intros E; inversion E; subst.
  eapply all_primitives_handle_motion_model; [| | |exact Hmodel].
  - apply in_place_turn_consistent.
  - apply horizontal_motions_consistent.
  - eapply create_complete_all_primitives; [|exact Hexpand].
    intros start_angle end_angle t q _. apply reflect_trajectory_consistent.
Qed.

(** ** Heading bookkeeping of the expander *)

Lemma dict_get_dict_set_same {V} k (v : V) d :
  dict_get k (dict_set k v d) = Some v.
Proof.
  induction d as [|[k' v'] d IH]; simpl.
  - now rewrite Reqb_refl.
  - destruct (Reqb k' k) eqn:E; simpl; now rewrite E.
Qed.

Lemma dict_get_dict_set_other {V} k k' (v : V) d :
  k' <> k -> dict_get k' (dict_set k v d) = dict_get k' d.
Proof.
  intros Hne. induction d as [|[k0 v0] d IH]; simpl.
  - now rewrite (proj2 (Reqb_false k k')) by congruence.
  - destruct (Reqb k0 k) eqn:E; simpl.
    + apply Reqb_true in E; subst k0.
      now rewrite (proj2 (Reqb_false k k')) by congruence.
    + destruct (Reqb k0 k'); [reflexivity|exact IH].
Qed.

Lemma dict_get_app_none {V} k (d1 d2 : Dict V) :
  dict_get k (d1 ++ d2)
  = match dict_get k d1 with Some v => Some v | None => dict_get k d2 end.
Proof.
  induction d1 as [|[k' v'] d1 IH]; simpl; [reflexivity|].
  destruct (Reqb k' k); [reflexivity|exact IH].
Qed.

Lemma dd_lookup_dd_touch {V} k k' (d : Dict (list V)) :
  dd_lookup k' (dd_touch k d) = dd_lookup k' d.
Proof.
  unfold dd_lookup, dd_touch. destruct (dict_get k d) eqn:E; [reflexivity|].
  rewrite dict_get_app_none. destruct (dict_get k' d); [reflexivity|].
  simpl. now destruct (Reqb k k').
Qed.

Lemma dd_lookup_in {V} k (d : Dict (list V)) x :
  In x (dd_lookup k d) -> exists l, In (k, l) d /\ In x l.
Proof.
  unfold dd_lookup. induction d as [|[k' l'] d IH]; simpl; [easy|].
  destruct (Reqb k' k) eqn:E.
  - apply Reqb_true in E; subst. intros H. exists l'. auto.
  - intros H. apply IH in H as [l [H1 H2]]. exists l. auto.
Qed.

Lemma signed_reflections_values s e t :
  map (fun ab => (deg_value (fst ab), deg_value (snd ab)))
      (signed_reflections s e)
  = map (fun p => (start_heading p, end_heading p))
        (reflect_trajectory (deg_value s) (deg_value e) t).
Proof.
  unfold signed_reflections, reflect_trajectory.
  destruct (Reqb (deg_value s) 0); destruct (Reqb (deg_value e) 0);
    destruct (Reqb (deg_value s) 90); destruct (Reqb (deg_value e) 90);
    reflexivity.
Qed.

Lemma signed_reflections_no_minus_zero s e a b :
  is_minus_zero s = false -> is_minus_zero e = false ->
  In (a, b) (signed_reflections s e) ->
  is_minus_zero a = false /\ is_minus_zero b = false.
Proof.
  destruct s as [vs bs], e as [ve be].
  unfold signed_reflections, deg_opp, deg_sub, deg, is_minus_zero.
  cbn [deg_value deg_sign_bit]. intros Hs He.
  destruct (Reqb vs 0) eqn:Es0; destruct (Reqb ve 0) eqn:Ee0;
    destruct (Reqb vs 90) eqn:Es90; destruct (Reqb ve 90) eqn:Ee90;
    cbn [andb] in Hs, He; subst;
    cbn [andb In]; intros Hin;
    repeat (destruct Hin as [Hin|Hin]; [inversion Hin; subst; clear Hin|]);
    try contradiction;
    cbn [deg_value deg_sign_bit];
    reqb_facts;
    repeat match goal with
           | |- context [Reqb ?x ?y] =>
               first [ rewrite (proj2 (Reqb_false x y)) by lra
                     | rewrite (proj2 (Reqb_true x y)) by lra ]
           end;
    cbn [andb negb]; rewrite ?andb_false_r; split; reflexivity.
Qed.

Lemma transposed_no_minus_zero e :
  is_minus_zero (deg_sub (deg 90) e) = false.
Proof.
  unfold is_minus_zero at 1. unfold deg_sub, deg, is_minus_zero.
  cbn [deg_value deg_sign_bit].
  rewrite (proj2 (Reqb_false 90 0)) by lra. cbn [andb].
  apply andb_false_r.
Qed.

(** ** Determinism *)

Section Determinism.

Variable St : Type.
Variable generate_trajectory :
  Point -> R -> R -> R -> St -> option Trajectory * St.

Lemma oblivious_ret {A} (a : A) : oblivious (ret (St := St) a).
Proof. intros s1 s2. reflexivity. Qed.

Lemma oblivious_lift {A} (r : result A) : oblivious (lift (St := St) r).
Proof. intros s1 s2. reflexivity. Qed.

Lemma oblivious_bindM {A B} (m : M St A) (k : A -> M St B) :
  oblivious m -> (forall a, oblivious (k a)) -> oblivious (bindM m k).
Proof.
  intros Hm Hk s1 s2. unfold bindM. specialize (Hm s1 s2).
  destruct (m s1) as [[a1|e1] t1], (m s2) as [[a2|e2] t2];
    simpl in Hm; inversion Hm; subst; [apply Hk|reflexivity].
Qed.

Lemma oblivious_for_each {X A} (l : list X) (body : X -> A -> M St A) a :
  (forall x a, oblivious (body x a)) -> oblivious (for_each l body a).
Proof.
  intros Hbody. revert a; induction l as [|x l IH]; intros a; simpl.
  - apply oblivious_ret.
  - apply oblivious_bindM; [apply Hbody|exact IH].
Qed.

Hypothesis Hdet : deterministic_generator generate_trajectory.

Lemma oblivious_try_target lg start_heading target_point target_heading acc :
  oblivious (try_target generate_trajectory lg start_heading target_point
                        target_heading acc).
Proof.
  intros s1 s2. unfold try_target.
  specialize (Hdet target_point start_heading target_heading
                   (0.1 * grid_separation lg) s1 s2).
  destruct (generate_trajectory _ _ _ _ s1) as [t1 u1].
  destruct (generate_trajectory _ _ _ _ s2) as [t2 u2].
  simpl in Hdet; subst t2. destruct t1 as [t|]; [|reflexivity].
  destruct (is_minimal_path lg (path t) (fst acc)) as [[|]|e]; reflexivity.
Qed.

Lemma oblivious_expand_entry lg start_angle entry all :
  oblivious (expand_entry generate_trajectory lg start_angle entry all).
Proof.
  intros s1 s2. unfold expand_entry. destruct entry as [end_point end_angle].
  specialize (Hdet end_point start_angle end_angle (grid_separation lg) s1 s2).
  destruct (generate_trajectory _ _ _ _ s1) as [t1 u1].
  destruct (generate_trajectory _ _ _ _ s2) as [t2 u2].
  simpl in Hdet; subst t2. now destruct t1.
Qed.

Lemma oblivious_single_quadrant_search lg :
  oblivious (single_quadrant_search generate_trajectory lg).
Proof.
  unfold single_quadrant_search.
  apply oblivious_bindM; [apply oblivious_lift|intros ml].
  apply oblivious_bindM; [apply oblivious_lift|intros q].
  apply oblivious_for_each. intros start_heading set.
  unfold search_heading.
  apply oblivious_bindM; [|intros acc; apply oblivious_ret].
  apply oblivious_for_each. intros level acc. unfold search_level.
  apply oblivious_for_each. intros target_point acc1.
  apply oblivious_for_each. intros target_heading acc2.
  apply oblivious_try_target.
Qed.

Lemma oblivious_create_complete lg drafts :
  oblivious (create_complete_minimal_spanning_set generate_trajectory lg
                                                  drafts).
Proof.
  unfold create_complete_minimal_spanning_set.
  apply oblivious_for_each. intros start_angle all.
  apply oblivious_for_each. intros entry all1.
  apply oblivious_expand_entry.
Qed.

Lemma oblivious_run lg : oblivious (run generate_trajectory lg).
Proof.
  unfold run, generate_minimal_spanning_set.
  apply oblivious_bindM; [|intros set; apply oblivious_lift].
  apply oblivious_bindM; [apply oblivious_single_quadrant_search|].
  intros drafts. apply oblivious_create_complete.
Qed.

End Determinism.

(** C8: with a deterministic curve generator, whose answers depend on the
    request only, [run] yields the same result (the same spanning set or
    the same exception) from any two states of the generator; in
    particular a second invocation, made after the first, repeats the
    first one's output. *)
Theorem run_deterministic {St : Type}
    (generate_trajectory :
       Point -> R -> R -> R -> St -> option Trajectory * St)
    (lg : LatticeGenerator)
    (Hdet : deterministic_generator generate_trajectory) :
  (forall s1 s2,
      fst (run generate_trajectory lg s1)
      = fst (run generate_trajectory lg s2)) /\
  (forall s,
      fst (run generate_trajectory lg (snd (run generate_trajectory lg s)))
      = fst (run generate_trajectory lg s)).
Proof.
  pose proof (oblivious_run St generate_trajectory Hdet lg) as H.
  split; [exact H|]. intros s. apply H.
Qed.

(** ** Worked examples *)

Lemma example_with_90 :
  with_90_degrees example_drafts
  = [(0, [((1, 1), 45)]); (90, [((1, 1), 90 - 45)])].
Proof.
  unfold with_90_degrees, example_drafts, dd_touch, dd_lookup.
  cbn [dict_get]. Rdecide. cbn [dict_set]. Rdecide.
  cbn [dict_set dict_get]. Rdecide. reflexivity.
Qed.

Lemma example_expansion :
  create_complete_minimal_spanning_set example_generator example_config
    example_drafts tt
  = (Ok (fold_left (fun all q => append_primitive q all)
           (reflect_trajectory 0 45 example_trajectory
            ++ reflect_trajectory 90 (90 - 45) example_trajectory) []), tt).
Proof.
  unfold create_complete_minimal_spanning_set. rewrite example_with_90.
  cbn [keys map fst for_each]. unfold dd_lookup. cbn [dict_get]. Rdecide.
  cbn [for_each]. unfold bindM, expand_entry, example_generator, ret.
  now rewrite fold_left_app.
Qed.

Lemma dd_append_stores {V} k (x : V) d :
  exists l, In (k, l) (dd_append k x d) /\ In x l.
Proof.
  induction d as [|[k' l'] d IH]; simpl.
  - exists [x]. simpl. auto.
  - destruct (Reqb k' k) eqn:E.
    + apply Reqb_true in E; subst k'. exists (l' ++ [x]). split.
      * now left.
      * apply in_or_app. right. now left.
    + destruct IH as [l [H1 H2]]. exists l. split; [now right|exact H2].
Qed.

Lemma dd_append_keeps {V} k (x : V) d k' l' y :
  In (k', l') d -> In y l' ->
  exists l, In (k', l) (dd_append k x d) /\ In y l.
Proof.
  induction d as [|[k0 l0] d IH]; simpl; [easy|].
  intros [E|Hin] Hy.
  - inversion E; subst. destruct (Reqb k' k).
    + exists (l' ++ [x]). split; [now left|]. apply in_or_app. now left.
    + exists l'. split; [now left|exact Hy].
  - destruct (IH Hin Hy) as [l [H1 H2]].
    destruct (Reqb k0 k).
    + exists l'. split; [now right|exact Hy].
    + exists l. split; [now right|exact H2].
Qed.

(** Every primitive appended to a spanning set is stored under its own
    start heading. *)
Lemma fold_append_stores prims set q :
  In q prims ->
  exists l,
    In (start_heading q, l)
       (fold_left (fun all q => append_primitive q all) prims set) /\
    In q l.
Proof.
  assert (Hkeep : forall prims set k l y,
             In (k, l) set -> In y l ->
             exists l',
               In (k, l')
                  (fold_left (fun all q => append_primitive q all) prims set)
               /\ In y l').
  { clear. induction prims as [|p prims IH]; intros set k l y Hl Hy; simpl.
    - now exists l.
    - destruct (dd_append_keeps (start_heading p) p set k l y Hl Hy)
        as [l1 [H1 H2]].
      now apply (IH _ k l1 y). }
  revert set; induction prims as [|p prims IH]; intros set; simpl; [easy|].
  intros [->|Hin]; [|now apply IH].
  destruct (dd_append_stores (start_heading q) q set) as [l [H1 H2]].
  now apply (Hkeep prims _ _ l q).
Qed.

Lemma example_west_primitive :
  exists info poses,
    info = (1, 2 * PI * 1 * Rabs (0 - 45) / 360 + 0 + 0,
            2 * PI * 1 * Rabs (0 - 45) / 360, 0 + 0) /\
    In (mk_primitive (-180) (180 - 45) info poses)
       (reflect_trajectory 0 45 example_trajectory).
Proof.
  unfold reflect_trajectory. Rdecide. cbn [andb].
  do 2 eexists. split; [reflexivity|]. right. left. reflexivity.
Qed.

Lemma example_expansion_model :
  handle_motion_model example_config example_expanded
  = Returns example_expanded.
Proof. reflexivity. Qed.

Lemma output_lengths_consistent_witness :
  all_primitives length_consistent example_expanded.
Proof.
  exact (output_lengths_consistent example_generator example_config
           example_drafts tt tt example_expanded example_expanded
           example_expansion example_expansion_model).
Defined.

(** C3 as stated fails: the second-quadrant reflection of the draft from
    heading 0 to heading 45 is stored with the headings -180 and 135, 315
    degrees apart, and with the arc length of a 45 degree turn. *)
Lemma output_arc_length_mismatch :
  exists set out k l p,
    create_complete_minimal_spanning_set example_generator example_config
      example_drafts tt = (Ok set, tt) /\
    handle_motion_model example_config set = Returns out /\
    In (k, l) out /\ In p l /\
    arc_length p
    <> 2 * PI * prim_radius p * Rabs (start_heading p - end_heading p) / 360.
Proof.
  destruct example_west_primitive as [info [poses [Hinfo Hin]]].
  subst info.
  destruct (fold_append_stores
              (reflect_trajectory 0 45 example_trajectory
               ++ reflect_trajectory 90 (90 - 45) example_trajectory)
              [] _ (in_or_app _ _ _ (or_introl Hin))) as [l [Hl Hp]].
  do 3 eexists. exists l. eexists.
  split; [exact example_expansion|].
  split; [exact example_expansion_model|].
  split; [exact Hl|]. split; [exact Hp|].
  unfold mk_primitive.
  cbn [arc_length prim_radius start_heading end_heading].
  replace (0 - 45) with (- (45)) by lra.
  replace (-180 - (180 - 45)) with (- (315)) by lra.
  rewrite !Rabs_Ropp, !Rabs_pos_eq by lra.
  pose proof PI_RGT_0. lra.
Qed.

Lemma in_keys_of_entry {V} (d : Dict V) k v : In (k, v) d -> In k (keys d).
Proof. intros H. unfold keys. change k with (fst (k, v)). now apply in_map. Qed.

(** The expander emits the key -180, which is outside [(-180, 180]]. *)
Lemma expander_emits_minus_180 :
  exists set k,
    create_complete_minimal_spanning_set example_generator example_config
      example_drafts tt = (Ok set, tt) /\
    In k (keys set) /\ ~ (-180 < k <= 180).
Proof.
  destruct example_west_primitive as [info [poses [Hinfo Hin]]].
  subst info.
  destruct (fold_append_stores
              (reflect_trajectory 0 45 example_trajectory
               ++ reflect_trajectory 90 (90 - 45) example_trajectory)
              [] _ (in_or_app _ _ _ (or_introl Hin))) as [l [Hl Hp]].
  exists example_expanded, (-180).
  split; [exact example_expansion|]. split.
  - apply (in_keys_of_entry _ _ l). exact Hl.
  - lra.
Qed.

Lemma heading_discretization_compass_witness :
  length (get_heading_discretization example_sixteen) = 16%nat /\
  In 180 (get_heading_discretization example_sixteen).
Proof.
  assert (Hn : (8 <= number_of_headings example_sixteen)%Z) by (simpl; lia).
  pose proof (heading_discretization_compass example_sixteen Hn) as H.
  cbv zeta in H. destruct H as [_ [Hlen [_ [[_ [_ [Hw _]]] _]]]].
  split; [|exact Hw]. now apply Hlen.
Defined.

(** C4 as stated fails: 12 headings are requested and 8 are returned. *)
Lemma heading_discretization_twelve :
  length (get_heading_discretization example_twelve)
  <> Z.to_nat (number_of_headings example_twelve).
Proof.
  rewrite heading_discretization_length, max_val_div8 by (simpl; lia).
  vm_compute. discriminate.
Qed.

(** A prior end pose on the path itself: the path is rejected. *)
Lemma example_point_distance :
  point_to_line_distance (0, 0) (1, 0) (1, 0) = 0.
Proof.
  unfold point_to_line_distance, norm, inner, psub, padd, pscale.
  cbn [fst snd]. Rdecide.
  replace (((1 - 0) * (1 - 0) + (0 - 0) * (0 - 0))
           / ((0 - 1) * (0 - 1) + (0 - 0) * (0 - 0))) with 1 by (field; lra).
  rewrite Rmin_left by lra. rewrite Rmax_right by lra.
  replace ((1 - (0 + 1 * (1 - 0))) * (1 - (0 + 1 * (1 - 0)))
           + (0 - (0 + 1 * (0 - 0))) * (0 - (0 + 1 * (0 - 0)))) with 0 by lra.
  apply sqrt_0.
Qed.

Lemma example_path_duplicates :
  duplicates_coverage example_config example_path example_priors.
Proof.
  exists 0%nat, (0, 0, 1, 0, 0), (1, 0, 0).
  split; [repeat split|]. split; [now left|].
  unfold too_close. rewrite example_point_distance. split.
  - simpl. lra.
  - rewrite angle_difference_near.
    + replace (0 - 0) with 0 by lra. rewrite Rabs_R0.
      unfold deg2rad. simpl. pose proof PI_RGT_0. lra.
    + replace (0 - 0) with 0 by lra. rewrite Rabs_R0.
      pose proof PI_RGT_0. lra.
Qed.


Lemma example_set_keyed : keyed_by_start example_set.
Proof.
  split.
  - unfold example_set, keys. cbn [map fst].
    apply NoDup_cons; [intros [H|[]]; lra|].
    apply NoDup_cons; [intros []|apply NoDup_nil].
  - intros k l [E|[E|[]]]; inversion E; subst;
      (split; [discriminate|]); intros p [<-|[]]; reflexivity.
Qed.

Lemma differential_adds_neighbour_turns_witness :
  exists all_angles set_a set_d,
    Permutation all_angles (keys example_expanded) /\
    StronglySorted Rlt all_angles /\
    handle_motion_model (with_motion_model example_config ACKERMANN)
                        example_expanded = Returns set_a /\
    handle_motion_model (with_motion_model example_config DIFF)
                        example_expanded = Returns set_d /\
    keys set_d = keys set_a /\
    forall idx, (idx < length all_angles)%nat ->
      let n := length all_angles in
      let a := nth idx all_angles 0 in
      let predecessor := nth ((idx + n - 1) mod n) all_angles 0 in
      let successor := nth ((idx + 1) mod n) all_angles 0 in
      exists turn_prev turn_next,
        dd_lookup a set_d = dd_lookup a set_a ++ [turn_prev; turn_next] /\
        (start_heading turn_prev = a /\
         end_heading turn_prev = predecessor /\
         prim_radius turn_prev = 0 /\ total_length turn_prev = 0 /\
         arc_length turn_prev = 0 /\ straight_length turn_prev = 0 /\
         poses turn_prev = [(0, 0, a); (0, 0, predecessor)]) /\
        (start_heading turn_next = a /\
         end_heading turn_next = successor /\
         prim_radius turn_next = 0 /\ total_length turn_next = 0 /\
         arc_length turn_next = 0 /\ straight_length turn_next = 0 /\
         poses turn_next = [(0, 0, a); (0, 0, successor)]).
Proof.
  exact (differential_adds_neighbour_turns example_generator example_config
           example_drafts tt tt example_expanded example_expansion).
Defined.

Lemma augmenters_only_append_witness :
  keys (add_in_place_turns example_set) = keys example_set /\
  exists set',
    add_horizontal_motions example_config example_set = Returns set' /\
    keys set' = keys example_set.
Proof.
  assert (Hnd : NoDup (keys example_set)) by apply example_set_keyed.
  assert (Hgs : 0 < grid_separation example_config) by (simpl; lra).
  assert (Hr : 0 <= turning_radius example_config) by (simpl; lra).
  assert (Hn : (0 < number_of_headings example_config)%Z) by (simpl; lia).
  destruct (augmenters_only_append example_config example_set Hnd Hgs Hr Hn)
    as [[Hkeys _] [[set' [Hret [Hk _]]] _]].
  split; [exact Hkeys|]. now exists set'.
Defined.

Lemma run_deterministic_witness :
  fst (run counting_generator example_config 0%nat)
  = fst (run counting_generator example_config 7%nat).
Proof.
  assert (Hdet : deterministic_generator counting_generator)
    by (intros pt a b step s1 s2; reflexivity).
  exact (proj1 (run_deterministic counting_generator example_config Hdet)
           0%nat 7%nat).
Defined.

Lemma example_target_headings : target_headings_of [0] 0 = [0].
Proof.
  unfold target_headings_of. cbn [sorted_by fold_right insert_by filter].
  replace (0 - 0) with 0 by lra. rewrite Rabs_R0. Rdecide. reflexivity.
Qed.

Lemma example_first_feasible :
  first_feasible counting_generator example_config 0
    (candidates example_config [0] 1 0) 0%nat
  = Some ((1 * 1, 1 * 0), 0).
Proof.
  unfold candidates. rewrite example_target_headings.
  unfold get_coords_at_level, range, example_config.
  cbn [max_level grid_separation]. cbn. reflexivity.
Qed.

Lemma first_feasible_trajectory_accepted_witness :
  exists set' s' more,
    search_heading counting_generator example_config [0] 1 0 [] 0%nat
    = (Ok set', s') /\
    dd_lookup 0 set' = dd_lookup 0 [] ++ ((1 * 1, 1 * 0), 0) :: more.
Proof.
  assert (Hn : number_of_headings example_config <> 0%Z) by (simpl; lia).
  exact (proj2 (first_feasible_trajectory_accepted nat counting_generator
                  example_config Hn)
               [0] 1%Z 0 [] 0%nat _ example_first_feasible).
Defined.

(** * Further properties *)

(** ** Candidate endpoints *)

Lemma range_empty lo hi : (hi <= lo)%Z -> range lo hi = [].
Proof.
  intros H. unfold range. replace (Z.to_nat (hi - lo)) with 0%nat by lia.
  reflexivity.
Qed.

(** X1: [get_coords_at_level] returns the [2 * level + 1] grid positions of
    the ring at Chebyshev distance [level] in the first quadrant, the
    corner last; at a level of zero or below only the corner is left. *)
Theorem coords_at_level_ring (lg : LatticeGenerator) (level : Z)
    (Hgs : 0 <= grid_separation lg) :
  let m := grid_separation lg * IZR level in
  ((0 <= level)%Z ->
   length (get_coords_at_level lg level) = Z.to_nat (2 * level + 1)) /\
  ((0 <= level)%Z ->
   forall p, In p (get_coords_at_level lg level) ->
     0 <= fst p <= m /\ 0 <= snd p <= m /\ (fst p = m \/ snd p = m)) /\
  last (get_coords_at_level lg level) (0, 0) = (m, m) /\
  ((level <= 0)%Z -> get_coords_at_level lg level = [(m, m)]).
Proof.
  intros m. unfold get_coords_at_level. fold m.
  split; [|split; [|split]].
  - intros Hl. rewrite length_app.
    rewrite (length_flat_map_const _ _ 2) by reflexivity.
    rewrite range_length. cbn [length]. lia.
  - intros Hl p Hp. apply IZR_le in Hl.
    assert (Hm : 0 <= m) by (unfold m; nra).
    apply in_app_or in Hp as [Hp|[<-|[]]].
    + apply in_flat_map in Hp as [i [Hi Hp]]. apply in_range in Hi.
      destruct Hi as [Hi0 Hil]. apply IZR_le in Hi0. apply IZR_lt in Hil.
      assert (Hv : 0 <= grid_separation lg * IZR i <= m) by (unfold m; nra).
      destruct Hp as [<-|[<-|[]]]; simpl; lra.
    + simpl. lra.
  - apply last_last.
  - intros Hl. now rewrite range_empty.
Qed.

(** ** Point-to-segment distance *)

Lemma inner_self_nonneg p : 0 <= inner p p.
Proof. unfold inner. nra. Qed.

Lemma inner_self_zero p : inner p p = 0 -> p = (0, 0).
Proof.
  destruct p as [x y]. unfold inner. simpl. intros H.
  assert (x = 0) by nra. assert (y = 0) by nra. now subst.
Qed.

Lemma norm_nonneg p : 0 <= norm p.
Proof. apply sqrt_pos. Qed.

Lemma norm_le p q : inner p p <= inner q q -> norm p <= norm q.
Proof. intros H. now apply sqrt_le_1_alt. Qed.

Lemma clamp_cases x :
  (x <= 0 /\ Rmax 0 (Rmin 1 x) = 0) \/
  (0 <= x <= 1 /\ Rmax 0 (Rmin 1 x) = x) \/
  (1 <= x /\ Rmax 0 (Rmin 1 x) = 1).
Proof.
  unfold Rmax, Rmin.
  destruct (Rle_dec 1 x); destruct (Rle_dec 0 1); try lra;
    destruct (Rle_dec 0 x); lra.
Qed.

Lemma clamp_one_minus x :
  Rmax 0 (Rmin 1 (1 - x)) = 1 - Rmax 0 (Rmin 1 x).
Proof.
  destruct (clamp_cases x) as [[H ->]|[[H ->]|[H ->]]];
    destruct (clamp_cases (1 - x)) as [[H' ->]|[[H' ->]|[H' ->]]]; lra.
Qed.

Lemma segment_degenerate p1 p2 :
  inner (psub p1 p2) (psub p1 p2) = 0 -> p1 = p2.
Proof.
  intros H. apply inner_self_zero in H.
  destruct p1 as [x1 y1], p2 as [x2 y2]. unfold psub in H. simpl in H.
  inversion H. f_equal; lra.
Qed.

(** X2: a point of the segment, [p1 + s * (p2 - p1)] with [0 <= s <= 1],
    has distance zero from it, also when the segment is a single point. *)
Theorem point_on_segment_distance_zero (p1 p2 : Point) (s : R)
    (Hs : 0 <= s <= 1) :
  point_to_line_distance p1 p2 (padd p1 (pscale s (psub p2 p1))) = 0.
Proof.
  unfold point_to_line_distance.
  destruct (Reqb (inner (psub p1 p2) (psub p1 p2)) 0) eqn:E; reqb_facts.
  - apply segment_degenerate in E. subst p2.
    destruct p1 as [x y]. unfold norm, inner, psub, padd, pscale. simpl.
    replace ((x - (x + s * (x - x))) * (x - (x + s * (x - x)))
             + (y - (y + s * (y - y))) * (y - (y + s * (y - y))))
      with 0 by ring.
    apply sqrt_0.
  - destruct p1 as [x1 y1], p2 as [x2 y2].
    unfold norm, inner, psub, padd, pscale in *. simpl in *.
    set (l2 := (x1 - x2) * (x1 - x2) + (y1 - y2) * (y1 - y2)) in *.
    replace (((x1 + s * (x2 - x1) - x1) * (x2 - x1)
              + (y1 + s * (y2 - y1) - y1) * (y2 - y1)) / l2)
      with s by (unfold l2; field; exact E).
    destruct (clamp_cases s) as [[H ->]|[[H ->]|[H ->]]].
    + replace s with 0 by lra.
      match goal with |- sqrt ?e = 0 => replace e with 0 by ring end.
      apply sqrt_0.
    + match goal with |- sqrt ?e = 0 => replace e with 0 by ring end.
      apply sqrt_0.
    + replace s with 1 by lra.
      match goal with |- sqrt ?e = 0 => replace e with 0 by ring end.
      apply sqrt_0.
Qed.

(** X3: the distance to a segment is not negative, does not depend on the
    order of the two end points, and is at most the distance to either end
    point. *)
Theorem point_to_line_distance_bounds (p1 p2 q : Point) :
  0 <= point_to_line_distance p1 p2 q /\
  point_to_line_distance p1 p2 q = point_to_line_distance p2 p1 q /\
  point_to_line_distance p1 p2 q <= norm (psub q p1) /\
  point_to_line_distance p1 p2 q <= norm (psub q p2).
Proof.
  assert (Hsym : forall a b c,
             point_to_line_distance a b c = point_to_line_distance b a c).
  { intros a b c. unfold point_to_line_distance.
    assert (El : inner (psub b a) (psub b a) = inner (psub a b) (psub a b)).
    { destruct a, b. unfold inner, psub. simpl. ring. }
    rewrite El.
    destruct (Reqb (inner (psub a b) (psub a b)) 0) eqn:E; reqb_facts.
    - apply segment_degenerate in E. now subst.
    - assert (Et : inner (psub c b) (psub a b) / inner (psub a b) (psub a b)
                   = 1 - inner (psub c a) (psub b a)
                         / inner (psub a b) (psub a b)).
      { destruct a as [ax ay], b as [bx by_], c as [cx cy].
        unfold inner, psub in *. simpl in *. field. exact E. }
      rewrite Et, clamp_one_minus.
      set (t := Rmax 0 (Rmin 1 _)).
      f_equal. destruct a as [ax ay], b as [bx by_], c as [cx cy].
      unfold psub, padd, pscale. simpl. f_equal; ring. }
  assert (Hend : forall a b c,
             point_to_line_distance a b c <= norm (psub c a)).
  { intros a b c. unfold point_to_line_distance.
    destruct (Reqb (inner (psub a b) (psub a b)) 0) eqn:E; reqb_facts.
    - apply norm_le. destruct a, c. unfold inner, psub. simpl. nra.
    - apply norm_le.
      pose proof (inner_self_nonneg (psub a b)) as Hl.
      set (l2 := inner (psub a b) (psub a b)) in *.
      set (r := inner (psub c a) (psub b a) / l2).
      assert (Hdot : inner (psub c a) (psub b a) = r * l2)
        by (unfold r; field; exact E).
      assert (Hl2 : l2 = inner (psub b a) (psub b a)).
      { unfold l2. destruct a, b. unfold inner, psub. simpl. ring. }
      destruct a as [ax ay], b as [bx by_], c as [cx cy].
      unfold inner, psub, padd, pscale in *. simpl in *.
      destruct (clamp_cases r) as [[H ->]|[[H ->]|[H ->]]]; nra. }
  split; [|split; [apply Hsym|split; [apply Hend|]]].
  - unfold point_to_line_distance.
    destruct (Reqb _ _); apply norm_nonneg.
  - rewrite Hsym. apply Hend.
Qed.

(** ** Angular distance, continued *)

(** X4: [angle_difference] does not depend on the order of its arguments
    nor on a common offset, and it is zero exactly for equal angles and for
    angles a full turn apart. *)
Theorem angle_difference_symmetric (a b c : R) :
  angle_difference a b = angle_difference b a /\
  angle_difference (a + c) (b + c) = angle_difference a b /\
  (angle_difference a b = 0 <-> a = b \/ Rabs (a - b) = 2 * PI).
Proof.
  split; [|split].
  - unfold angle_difference. now rewrite (Rabs_minus_sym a b).
  - unfold angle_difference. now replace (a + c - (b + c)) with (a - b) by ring.
  - pose proof PI_RGT_0 as Hpi. pose proof (Rabs_pos (a - b)) as Hpos.
    destruct (Rle_dec (Rabs (a - b)) PI) as [Hle|Hgt].
    + rewrite angle_difference_near by assumption. split.
      * intros H0. left.
        destruct (Req_dec_T (a - b) 0) as [E|E]; [lra|].
        apply Rabs_no_R0 in E. contradiction.
      * intros [->|H]; [|lra].
        replace (b - b) with 0 by ring. apply Rabs_R0.
    + rewrite angle_difference_far by lra. split.
      * intros H0. right. lra.
      * intros [->|H]; [|lra].
        replace (b - b) with 0 in Hgt by ring. rewrite Rabs_R0 in Hgt. lra.
Qed.

(** ** The minimality tester, continued *)

(** X5: [is_minimal_path] raises [ZeroDivisionError] exactly when the
    number of headings is zero, whatever the path and the prior end poses,
    and returns a verdict otherwise. *)
Theorem is_minimal_path_raises_iff (lg : LatticeGenerator)
    (p : TrajectoryPath) (priors : list Pose) :
  (is_minimal_path lg p priors = Raise ZeroDivisionError <->
   number_of_headings lg = 0%Z) /\
  ((exists b, is_minimal_path lg p priors = Ok b) <->
   number_of_headings lg <> 0%Z).
Proof.
  destruct (Z.eq_dec (number_of_headings lg) 0) as [E|E].
  - assert (H : is_minimal_path lg p priors = Raise ZeroDivisionError).
    { unfold is_minimal_path, rotation_threshold, Py.div. rewrite E.
      now rewrite Reqb_refl. }
    rewrite H. split; split; try tauto.
    + intros [b Hb]. discriminate.
  - destruct (is_minimal_path_total lg p priors E) as [b Hb].
    rewrite Hb. split; split; try tauto; try discriminate.
    intros _. now exists b.
Qed.

Lemma combine_nil_r {A B} (l : list A) : combine l (@nil B) = [].
Proof. now destruct l. Qed.

Lemma init_short {A} (l : list A) : (length l <= 1)%nat -> init l = [].
Proof.
  destruct l as [|x [|y l]]; simpl; intros H; try reflexivity. lia.
Qed.

Lemma rest_short {A} (l : list A) : (length l <= 1)%nat -> rest l = [].
Proof.
  destruct l as [|x [|y l]]; simpl; intros H; try reflexivity. lia.
Qed.

(** X6: a path with fewer than two samples in one of its arrays has no
    segment and is accepted against any prior end poses. *)
Theorem short_path_is_minimal (lg : LatticeGenerator) (p : TrajectoryPath)
    (priors : list Pose)
    (Hn : number_of_headings lg <> 0%Z)
    (Hshort : (length (xs p) <= 1)%nat \/ (length (ys p) <= 1)%nat \/
              (length (yaws p) <= 1)%nat) :
  is_minimal_path lg p priors = Ok true.
Proof.
  unfold is_minimal_path. rewrite rotation_threshold_ok by assumption.
  simpl.
  assert (Hseg : path_segments p = []).
  { unfold path_segments, zip5.
    destruct Hshort as [H|[H|H]].
    - now rewrite (init_short _ H).
    - rewrite (init_short _ H). simpl. now rewrite combine_nil_r.
    - rewrite (init_short _ H). now rewrite !combine_nil_r. }
  now rewrite Hseg.
Qed.

Lemma existsb_incl {A} (f : A -> bool) l l' :
  incl l l' -> existsb f l = true -> existsb f l' = true.
Proof.
  intros Hincl H. apply existsb_exists in H as [x [Hx Hf]].
  apply existsb_exists. exists x. auto.
Qed.

(** X7: acceptance is antitone in the prior end poses: a path rejected
    against some end poses stays rejected when more are added, and a path
    accepted against a collection is accepted against any part of it. *)
Theorem is_minimal_path_antitone (lg : LatticeGenerator) (p : TrajectoryPath)
    (priors priors' : list Pose) (Hincl : incl priors priors') :
  (is_minimal_path lg p priors = Ok false ->
   is_minimal_path lg p priors' = Ok false) /\
  (is_minimal_path lg p priors' = Ok true ->
   is_minimal_path lg p priors = Ok true).
Proof.
  unfold is_minimal_path.
  destruct (rotation_threshold lg) as [rthr|e]; simpl;
    [|split; discriminate].
  set (f := fun l seg => existsb (overlaps (distance_threshold lg) rthr seg) l).
  assert (Hmono : existsb (f priors) (path_segments p) = true ->
                  existsb (f priors') (path_segments p) = true).
  { intros H. apply existsb_exists in H as [seg [Hseg H]].
    apply existsb_exists. exists seg. split; [exact Hseg|].
    unfold f in *. eapply existsb_incl; eauto. }
  fold (f priors) (f priors').
  destruct (existsb (f priors) (path_segments p)) eqn:E1;
    destruct (existsb (f priors') (path_segments p)) eqn:E2; simpl;
    split; intros H; try reflexivity; try discriminate.
  - specialize (Hmono eq_refl). discriminate.
  - specialize (Hmono eq_refl). discriminate.
Qed.

(** ** Errors of the search *)

Lemma for_each_total {St X A} (l : list X) (body : X -> A -> M St A) :
  (forall x a s, exists a' s', body x a s = (Ok a', s')) ->
  forall a s, exists a' s', for_each l body a s = (Ok a', s').
Proof.
  intros Hbody. induction l as [|x l IH]; intros a s; simpl.
  - now exists a, s.
  - unfold bindM. destruct (Hbody x a s) as [a1 [s1 ->]]. apply IH.
Qed.

Lemma try_target_total {St}
    (gen : Point -> R -> R -> R -> St -> option Trajectory * St)
    lg start_heading target_point target_heading acc s :
  number_of_headings lg <> 0%Z ->
  exists acc' s',
    try_target gen lg start_heading target_point target_heading acc s
    = (Ok acc', s').
Proof.
  intros Hn. unfold try_target.
  destruct (gen _ _ _ _ s) as [[t|] s1]; [|eauto].
  destruct (is_minimal_path_total lg (path t) (fst acc) Hn) as [[|] ->]; eauto.
Qed.

Lemma search_heading_total {St}
    (gen : Point -> R -> R -> R -> St -> option Trajectory * St)
    lg headings start_level start_heading set s :
  number_of_headings lg <> 0%Z ->
  exists set' s',
    search_heading gen lg headings start_level start_heading set s
    = (Ok set', s').
Proof.
  intros Hn. unfold search_heading, bindM.
  destruct (for_each_total
              (range start_level (max_level lg + 1))
              (search_level St gen lg start_heading
                 (target_headings_of headings start_heading)))
    with (a := (@nil Pose, set)) (s := s) as [acc [s1 ->]].
  - intros level a s0. unfold search_level.
    apply for_each_total. intros pt a1 s1.
    apply for_each_total. intros th a2 s2.
    now apply try_target_total.
  - unfold ret. eauto.
Qed.

Lemma single_quadrant_search_total {St}
    (gen : Point -> R -> R -> R -> St -> option Trajectory * St) lg s :
  number_of_headings lg <> 0%Z -> grid_separation lg <> 0 ->
  exists drafts s', single_quadrant_search gen lg s = (Ok drafts, s').
Proof.
  intros Hn Hgs. unfold single_quadrant_search, bindM, lift.
  rewrite compute_min_trajectory_length_ok by assumption.
  unfold Py.div. rewrite (proj2 (Reqb_false _ 0) Hgs).
  apply for_each_total. intros start_heading set s0.
  now apply search_heading_total.
Qed.

(** X8: the search raises [ZeroDivisionError] when the number of headings
    or the grid separation is zero, before any request to the curve
    generator, and so does [run]; with both non-zero the search raises
    nothing and returns its draft set. *)
Theorem search_raises_iff {St : Type}
    (generate_trajectory :
       Point -> R -> R -> R -> St -> option Trajectory * St)
    (lg : LatticeGenerator) :
  (number_of_headings lg = 0%Z \/ grid_separation lg = 0 ->
   forall s,
     single_quadrant_search generate_trajectory lg s
     = (Raise ZeroDivisionError, s) /\
     run generate_trajectory lg s = (Raise ZeroDivisionError, s)) /\
  (number_of_headings lg <> 0%Z -> grid_separation lg <> 0 ->
   forall s, exists drafts s',
     single_quadrant_search generate_trajectory lg s = (Ok drafts, s')).
Proof.
  split.
  - intros Hzero s.
    assert (H : single_quadrant_search generate_trajectory lg s
                = (Raise ZeroDivisionError, s)).
    { unfold single_quadrant_search, bindM, lift,
        compute_min_trajectory_length, Py.div.
      destruct (Reqb (IZR (number_of_headings lg)) 0) eqn:En; [reflexivity|].
      simpl. destruct (Reqb (grid_separation lg) 0) eqn:Eg; [reflexivity|].
      reqb_facts. destruct Hzero as [H|H]; [|contradiction].
      rewrite H in En. contradiction. }
    split; [exact H|].
    unfold run, generate_minimal_spanning_set, bindM. now rewrite H.
  - intros Hn Hgs s. now apply single_quadrant_search_total.
Qed.

(** ** Invariants of the search *)

Lemma all_drafts_dd_append P k d set :
  all_drafts P set -> P k d -> all_drafts P (dd_append k d set).
Proof.
  intros Hall Hd k' l' d' Hin Hd'.
  apply in_dd_append in Hin as [Hin|[-> [l0 [-> [Hin| ->]]]]].
  - eapply Hall; eauto.
  - apply in_app_or in Hd' as [Hd'|[<-|[]]]; [eapply Hall; eauto|exact Hd].
  - destruct Hd' as [<-|[]]. exact Hd.
Qed.

Lemma try_target_drafts {St}
    (gen : Point -> R -> R -> R -> St -> option Trajectory * St)
    P lg start_heading target_point target_heading acc s acc' s' :
  P start_heading (target_point, target_heading) ->
  all_drafts P (snd acc) ->
  try_target gen lg start_heading target_point target_heading acc s
  = (Ok acc', s') ->
  all_drafts P (snd acc').
Proof.
  intros HP Hacc. unfold try_target.
  destruct (gen _ _ _ _ s) as [[t|] s1].
  - destruct (is_minimal_path lg (path t) (fst acc)) as [[|]|e];
      intros E; inversion E; subst; simpl; try assumption.
    now apply all_drafts_dd_append.
  - intros E; inversion E; subst. assumption.
Qed.

Lemma in_target_headings headings start_heading x :
  In x (target_headings_of headings start_heading) ->
  In x headings /\ Rabs (start_heading - x) <= 90.
Proof.
  unfold target_headings_of. intros H. apply filter_In in H as [Hin Hle].
  apply Rleb_true in Hle. split; [|exact Hle].
  eapply Permutation_in; [apply sorted_by_perm|exact Hin].
Qed.

Lemma in_initial_headings headings x :
  In x (initial_headings_of headings) -> In x headings /\ 0 <= x < 90.
Proof.
  unfold initial_headings_of. intros H.
  eapply Permutation_in in H; [|apply sorted_by_perm].
  apply filter_In in H as [Hin Hb]. apply andb_true_iff in Hb as [H0 H90].
  apply Rleb_true in H0. apply Rltb_true in H90. tauto.
Qed.

(** X9: every draft primitive the search returns has a start heading of
    the discretization in [[0, 90)], an end heading of the discretization
    at most 90 degrees away, and a target point on the ring of a level
    between the start level and the maximal level; so no draft starts at
    90 degrees or at a negative heading. *)
Theorem search_drafts_within_bounds {St : Type}
    (generate_trajectory :
       Point -> R -> R -> R -> St -> option Trajectory * St)
    (lg : LatticeGenerator) (s s' : St) (drafts : QuadrantSet)
    (Hsearch : single_quadrant_search generate_trajectory lg s
               = (Ok drafts, s')) :
  all_drafts (searched_draft lg) drafts.
Proof.
  revert Hsearch. unfold single_quadrant_search, bindM, lift.
  unfold compute_min_trajectory_length, Py.div at 1.
  destruct (Reqb (IZR (number_of_headings lg)) 0); [discriminate|].
  simpl. unfold Py.div.
  destruct (Reqb (grid_separation lg) 0); [discriminate|].
  fold (start_level_of lg).
  apply (for_each_invariant St (all_drafts (searched_draft lg)));
    [|intros k l d []].
  intros start_heading set s0 set' s1 Hstart Hset.
  apply in_initial_headings in Hstart as [Hstart Hquad].
  unfold search_heading, bindM.
  destruct (for_each _ _ _ s0) as [[acc|e] s2] eqn:Hloop; [|discriminate].
  unfold ret. intros E; inversion E; subst; clear E.
  revert Hloop.
  apply (for_each_invariant St
           (fun acc => all_drafts (searched_draft lg) (snd acc)));
    [|exact Hset].
  intros level a t a' t' Hlevel Ha. apply in_range in Hlevel.
  unfold search_level.
  apply (for_each_invariant St
           (fun acc => all_drafts (searched_draft lg) (snd acc)));
    [|exact Ha].
  intros pt b u b' u' Hpt Hb.
  apply (for_each_invariant St
           (fun acc => all_drafts (searched_draft lg) (snd acc)));
    [|exact Hb].
  intros th c v c' v' Hth Hc.
  apply in_target_headings in Hth as [Hth Hnear].
  apply try_target_drafts; [|exact Hc].
  unfold searched_draft. simpl. repeat split; try tauto.
  exists level. split; [lia|exact Hpt].
Qed.

(** ** The minimality invariant *)

Lemma is_minimal_path_true_apart lg p priors :
  is_minimal_path lg p priors = Ok true ->
  forall seg prior,
    In seg (path_segments p) -> In prior priors -> ~ too_close lg seg prior.
Proof.
  unfold is_minimal_path, rotation_threshold, Py.div, distance_threshold.
  destruct (Reqb (IZR (number_of_headings lg)) 0); [discriminate|].
  simpl. intros E seg prior Hseg Hprior Hclose.
  inversion E as [Hex]. apply negb_true_iff in Hex.
  apply overlaps_true in Hclose.
  assert (Hcontra : existsb
                      (fun seg0 =>
                         existsb
                           (overlaps (0.5 * grid_separation lg)
                              (0.5 * deg2rad (360 / IZR (number_of_headings lg)))
                              seg0) priors)
                      (path_segments p) = true).
  { apply existsb_exists. exists seg. split; [exact Hseg|].
    apply existsb_exists. now exists prior. }
  congruence.
Qed.

Section MinimalityInvariant.

Variable St : Type.
Variable generate_trajectory :
  Point -> R -> R -> R -> St -> option Trajectory * St.
Variable answer : Point -> R -> R -> R -> option Trajectory.

Hypothesis Hanswer :
  forall target_point start_angle end_angle step s,
    fst (generate_trajectory target_point start_angle end_angle step s)
    = answer target_point start_angle end_angle step.

Lemma search_chain lg start_heading cands acc s acc' s' :
  for_each cands
           (fun c => try_target generate_trajectory lg start_heading
                                (fst c) (snd c)) acc s
  = (Ok acc', s') ->
  exists accepted,
    fst acc' = fst acc ++ map end_pose_of accepted /\
    dd_lookup start_heading (snd acc')
    = dd_lookup start_heading (snd acc) ++ accepted /\
    (forall k, k <> start_heading ->
               dd_lookup k (snd acc') = dd_lookup k (snd acc)) /\
    minimal_chain lg answer start_heading (fst acc) accepted.
Proof.
  revert acc s. induction cands as [|[pt th] cands IH]; intros acc s; simpl.
  - unfold ret. intros E; inversion E; subst. exists [].
    simpl. now rewrite !app_nil_r.
  - unfold bindM, try_target; simpl.
    pose proof (Hanswer pt start_heading th (0.1 * grid_separation lg) s)
      as Hans.
    destruct (generate_trajectory pt start_heading th _ s) as [[t|] s1];
      simpl in Hans.
    + destruct (is_minimal_path lg (path t) (fst acc)) as [[|]|e] eqn:Hmin;
        [| |discriminate].
      * intros Hloop. apply IH in Hloop as [accepted [Hp [Hl [Ho Hc]]]].
        simpl in Hp, Hl, Ho, Hc. exists ((pt, th) :: accepted).
        split; [|split; [|split]].
        -- rewrite Hp. now rewrite <- app_assoc.
        -- rewrite Hl, dict_get_dd_append_same. now rewrite <- app_assoc.
        -- intros k Hk. rewrite Ho by assumption.
           now apply dict_get_dd_append_other.
        -- simpl. split; [|exact Hc]. exists t. now split.
      * apply IH.
    + apply IH.
Qed.

Lemma minimal_chain_split lg start_heading priors pre d post :
  minimal_chain lg answer start_heading priors (pre ++ d :: post) ->
  exists t,
    answer (fst d) start_heading (snd d) (0.1 * grid_separation lg) = Some t /\
    is_minimal_path lg (path t) (priors ++ map end_pose_of pre) = Ok true.
Proof.
  revert priors. induction pre as [|c pre IH]; intros priors; simpl.
  - intros [[t [Ht Hm]] _]. exists t. now rewrite app_nil_r.
  - intros [_ Hc]. apply IH in Hc as [t [Ht Hm]]. exists t.
    split; [exact Ht|]. now rewrite <- app_assoc in Hm.
Qed.

(** X10: the search for one start heading touches that heading's draft
    list only, appending to it; and for a generator whose answers depend
    on the request alone, the fine path of every draft it appends keeps
    clear, in distance or in angle, of the end pose of every draft appended
    before it in this search. *)
Theorem search_heading_minimality (lg : LatticeGenerator)
    (headings : list R) (start_level : Z) (start_heading : R)
    (set set' : QuadrantSet) (s s' : St)
    (Hsearch : search_heading generate_trajectory lg headings start_level
                              start_heading set s = (Ok set', s')) :
  exists accepted,
    dd_lookup start_heading set' = dd_lookup start_heading set ++ accepted /\
    (forall k, k <> start_heading -> dd_lookup k set' = dd_lookup k set) /\
    forall pre d post,
      accepted = pre ++ d :: post ->
      exists t,
        answer (fst d) start_heading (snd d) (0.1 * grid_separation lg)
        = Some t /\
        forall seg prior,
          In seg (path_segments (path t)) ->
          In prior (map end_pose_of pre) ->
          ~ too_close lg seg prior.
Proof.
  rewrite search_heading_flat in Hsearch. unfold bindM in Hsearch.
  destruct (for_each _ _ _ s) as [[acc|e] s1] eqn:Hloop; [|discriminate].
  unfold ret in Hsearch. inversion Hsearch; subst; clear Hsearch.
  apply search_chain in Hloop as [accepted [Hp [Hl [Ho Hc]]]].
  simpl in Hp, Hl, Ho, Hc. exists accepted.
  split; [exact Hl|]. split; [exact Ho|].
  intros pre d post ->.
  apply minimal_chain_split in Hc as [t [Ht Hm]]. simpl in Hm.
  exists t. split; [exact Ht|].
  now apply is_minimal_path_true_apart.
Qed.

End MinimalityInvariant.

(** ** What the expander stores *)

Lemma reflect_trajectory_length s e t :
  length (reflect_trajectory s e t) = reflection_count s e.
Proof.
  unfold reflect_trajectory, reflection_count.
  destruct (Reqb s 0); destruct (Reqb e 0); destruct (Reqb s 90);
    destruct (Reqb e 90); reflexivity.
Qed.

Lemma primitive_count_dd_append k q set :
  primitive_count (dd_append k q set) = S (primitive_count set).
Proof.
  unfold primitive_count. induction set as [|[k' l] set IH]; simpl.
  - reflexivity.
  - destruct (Reqb k' k); simpl.
    + rewrite length_app. simpl. lia.
    + rewrite IH. lia.
Qed.

Lemma primitive_count_fold prims set :
  primitive_count (fold_left (fun all q => append_primitive q all) prims set)
  = (primitive_count set + length prims)%nat.
Proof.
  revert set. induction prims as [|q prims IH]; intros set; simpl; [lia|].
  rewrite IH. unfold append_primitive. rewrite primitive_count_dd_append.
  lia.
Qed.

Lemma for_each_measure {St X A} (mu : A -> nat) (c : X -> nat) (l : list X)
    (body : X -> A -> M St A) :
  (forall x a s a' s', body x a s = (Ok a', s') -> mu a' = (mu a + c x)%nat) ->
  forall a s a' s',
    for_each l body a s = (Ok a', s') ->
    mu a' = (mu a + list_sum (map c l))%nat.
Proof.
  intros Hbody. induction l as [|x l IH]; intros a s a' s'; simpl.
  - unfold ret. intros E; inversion E; subst. lia.
  - unfold bindM. destruct (body x a s) as [[a1|e] s1] eqn:E1; [|discriminate].
    intros Hloop. apply IH in Hloop. apply Hbody in E1. lia.
Qed.

(** X11: the expander neither drops nor repeats a primitive: the spanning
    set it returns holds, for every draft primitive of the set extended to
    90 degrees, two tuples when both headings are 0 or both are 90 and
    four otherwise. *)
Theorem expander_primitive_count {St : Type}
    (generate_trajectory :
       Point -> R -> R -> R -> St -> option Trajectory * St)
    (lg : LatticeGenerator) (drafts : QuadrantSet) (s s' : St)
    (set : SpanningSet)
    (Hexpand : create_complete_minimal_spanning_set generate_trajectory lg
                 drafts s = (Ok set, s')) :
  primitive_count set
  = list_sum
      (map (fun k =>
              list_sum (map (fun d => reflection_count k (snd d))
                            (dd_lookup k (with_90_degrees drafts))))
           (keys (with_90_degrees drafts))).
Proof.
  unfold create_complete_minimal_spanning_set in Hexpand.
  apply (for_each_measure primitive_count
           (fun k => list_sum (map (fun d => reflection_count k (snd d))
                                   (dd_lookup k (with_90_degrees drafts)))))
    in Hexpand; [exact Hexpand|].
  intros k a t a' t' Hinner.
  apply (for_each_measure primitive_count
           (fun d => reflection_count k (snd d))) in Hinner; [exact Hinner|].
  intros [pt e] b u b' u'. unfold expand_entry.
  destruct (generate_trajectory pt k e _ u) as [[tr|] u1]; [|discriminate].
  intros E; inversion E; subst.
  rewrite primitive_count_fold, reflect_trajectory_length. reflexivity.
Qed.

Lemma stored_append_same q set : stored q (append_primitive q set).
Proof. apply dd_append_stores. Qed.

Lemma stored_append_keep p q set :
  stored q set -> stored q (append_primitive p set).
Proof.
  intros [l [Hl Hq]]. unfold stored, append_primitive.
  eapply dd_append_keeps; eauto.
Qed.

Lemma stored_fold_keep prims q set :
  stored q set ->
  stored q (fold_left (fun all p => append_primitive p all) prims set).
Proof.
  revert set. induction prims as [|p prims IH]; intros set H; simpl.
  - exact H.
  - apply IH. now apply stored_append_keep.
Qed.

Lemma for_each_establishes {St X A} (Q : A -> Prop) (l : list X)
    (body : X -> A -> M St A) (x0 : X) :
  In x0 l ->
  (forall x a s a' s', body x a s = (Ok a', s') -> Q a -> Q a') ->
  (forall a s a' s', body x0 a s = (Ok a', s') -> Q a') ->
  forall a s a' s', for_each l body a s = (Ok a', s') -> Q a'.
Proof.
  intros Hin Hkeep Hest. induction l as [|x l IH]; [contradiction|].
  intros a s a' s'. simpl. unfold bindM.
  destruct (body x a s) as [[a1|e] s1] eqn:E1; [|discriminate].
  destruct Hin as [->|Hin].
  - apply Hest in E1. revert E1.
    generalize a1 s1. clear -Hkeep.
    induction l as [|y l IH]; intros a s Ha; simpl.
    + unfold ret. intros E; inversion E; subst. exact Ha.
    + unfold bindM. destruct (body y a s) as [[a2|e] s2] eqn:E2;
        [|discriminate].
      apply IH. eapply Hkeep; eauto.
  - now apply IH.
Qed.

Section ExpanderAnswers.

Variable St : Type.
Variable generate_trajectory :
  Point -> R -> R -> R -> St -> option Trajectory * St.
Variable answer : Point -> R -> R -> R -> option Trajectory.

Hypothesis Hanswer :
  forall target_point start_angle end_angle step s,
    fst (generate_trajectory target_point start_angle end_angle step s)
    = answer target_point start_angle end_angle step.

Lemma expand_entry_answer lg k pt e all s all' s' :
  expand_entry generate_trajectory lg k (pt, e) all s = (Ok all', s') ->
  exists t,
    answer pt k e (grid_separation lg) = Some t /\
    all' = fold_left (fun all q => append_primitive q all)
                     (reflect_trajectory k e t) all.
Proof.
  unfold expand_entry.
  pose proof (Hanswer pt k e (grid_separation lg) s) as Hans.
  destruct (generate_trajectory pt k e _ s) as [[t|] s1]; simpl in Hans;
    [|discriminate].
  intros E; inversion E; subst. now exists t.
Qed.

Lemma expand_entry_keeps lg k d all s all' s' q :
  expand_entry generate_trajectory lg k d all s = (Ok all', s') ->
  stored q all -> stored q all'.
Proof.
  destruct d as [pt e]. intros H Hq.
  apply expand_entry_answer in H as [t [_ ->]].
  now apply stored_fold_keep.
Qed.

(** X12: for a generator whose answers depend on the request alone, the
    spanning set the expander returns is complete and exact: every tuple
    reflected from the coarse trajectory of a draft primitive is stored
    under its own start heading, and every stored primitive is such a
    tuple. *)
Theorem expander_stores_reflections (lg : LatticeGenerator)
    (drafts : QuadrantSet) (s s' : St) (set : SpanningSet)
    (Hexpand : create_complete_minimal_spanning_set generate_trajectory lg
                 drafts s = (Ok set, s')) :
  (forall k pt e,
      In k (keys (with_90_degrees drafts)) ->
      In (pt, e) (dd_lookup k (with_90_degrees drafts)) ->
      exists t,
        answer pt k e (grid_separation lg) = Some t /\
        forall q, In q (reflect_trajectory k e t) -> stored q set) /\
  (forall k' l p,
      In (k', l) set -> In p l ->
      start_heading p = k' /\
      exists k pt e t,
        In k (keys (with_90_degrees drafts)) /\
        In (pt, e) (dd_lookup k (with_90_degrees drafts)) /\
        answer pt k e (grid_separation lg) = Some t /\
        In p (reflect_trajectory k e t)).
Proof.
  split.
  - intros k pt e Hk He.
    unfold create_complete_minimal_spanning_set in Hexpand.
    revert Hexpand.
    apply (for_each_establishes
             (fun all => exists t,
                  answer pt k e (grid_separation lg) = Some t /\
                  forall q, In q (reflect_trajectory k e t) -> stored q all)
             _ _ k Hk).
    + intros k0 a t0 a' t0' Hinner [t [Ht Hq]]. exists t.
      split; [exact Ht|]. intros q Hin. specialize (Hq q Hin).
      revert Hinner.
      apply (for_each_invariant St (stored q)); [|exact Hq].
      intros d b u b' u' _ Hb Hd. eapply expand_entry_keeps; eauto.
    + intros a t0 a' t0'.
      apply (for_each_establishes
               (fun all => exists t,
                    answer pt k e (grid_separation lg) = Some t /\
                    forall q, In q (reflect_trajectory k e t) -> stored q all)
               _ _ (pt, e) He).
      * intros d b u b' u' Hd [t [Ht Hq]]. exists t.
        split; [exact Ht|]. intros q Hin.
        eapply expand_entry_keeps; eauto.
      * intros b u b' u' Hd.
        apply expand_entry_answer in Hd as [t [Ht ->]].
        exists t. split; [exact Ht|]. intros q Hin.
        now apply fold_append_stores.
  - pose proof (create_complete_keyed _ _ _ _ _ _ _ Hexpand) as [_ Hkeyed].
    assert (Hall : all_primitives
                     (fun p => exists k pt e t,
                          In k (keys (with_90_degrees drafts)) /\
                          In (pt, e) (dd_lookup k (with_90_degrees drafts)) /\
                          answer pt k e (grid_separation lg) = Some t /\
                          In p (reflect_trajectory k e t)) set).
    { unfold create_complete_minimal_spanning_set in Hexpand.
      revert Hexpand.
      apply (for_each_invariant St (all_primitives _));
        [|apply all_primitives_nil].
      intros k a t0 a' t0' Hk Ha.
      apply (for_each_invariant St (all_primitives _)); [|exact Ha].
      intros [pt e] b u b' u' Hd Hb Hexp.
      apply expand_entry_answer in Hexp as [t [Ht ->]].
      apply fold_append_invariant; [|exact Hb].
      intros q set0 Hq Hset0. apply all_primitives_dd_append; [exact Hset0|].
      now exists k, pt, e, t. }
    intros k' l p Hl Hp. split.
    + now apply (Hkeyed k' l Hl).
    + eapply Hall; eauto.
Qed.

End ExpanderAnswers.

(** ** Errors of the expander *)

Lemma for_each_total_in {St X A} (l : list X) (body : X -> A -> M St A) :
  (forall x, In x l -> forall a s, exists a' s', body x a s = (Ok a', s')) ->
  forall a s, exists a' s', for_each l body a s = (Ok a', s').
Proof.
  induction l as [|x l IH]; intros Hbody a s; simpl.
  - now exists a, s.
  - unfold bindM. destruct (Hbody x (or_introl eq_refl) a s) as [a1 [s1 ->]].
    apply IH. intros y Hy. apply Hbody. now right.
Qed.

Lemma for_each_raises_only {St X A} (e0 : exn) (l : list X)
    (body : X -> A -> M St A) :
  (forall x a s e s', body x a s = (Raise e, s') -> e = e0) ->
  forall a s e s', for_each l body a s = (Raise e, s') -> e = e0.
Proof.
  intros Hbody. induction l as [|x l IH]; intros a s e s'; simpl.
  - unfold ret. discriminate.
  - unfold bindM. destruct (body x a s) as [[a1|e1] s1] eqn:E1.
    + apply IH.
    + intros E; inversion E; subst. eapply Hbody; eauto.
Qed.

Section ExpanderErrors.

Variable St : Type.
Variable generate_trajectory :
  Point -> R -> R -> R -> St -> option Trajectory * St.
Variable answer : Point -> R -> R -> R -> option Trajectory.

Hypothesis Hanswer :
  forall target_point start_angle end_angle step s,
    fst (generate_trajectory target_point start_angle end_angle step s)
    = answer target_point start_angle end_angle step.

(** X13: for a generator whose answers depend on the request alone, the
    expander returns a spanning set exactly when the generator answers
    every draft primitive of the set extended to 90 degrees with a
    trajectory at the coarse resolution; an unanswered one makes it raise
    [AttributeError], and it raises nothing else. *)
Theorem expander_raises_iff (lg : LatticeGenerator) (drafts : QuadrantSet)
    (s : St) :
  ((exists set s',
       create_complete_minimal_spanning_set generate_trajectory lg drafts s
       = (Ok set, s')) <->
   (forall k pt e,
       In k (keys (with_90_degrees drafts)) ->
       In (pt, e) (dd_lookup k (with_90_degrees drafts)) ->
       answer pt k e (grid_separation lg) <> None)) /\
  (forall e s',
      create_complete_minimal_spanning_set generate_trajectory lg drafts s
      = (Raise e, s') -> e = AttributeError).
Proof.
  split; [split|].
  - intros [set [s' Hexpand]] k pt e Hk He.
    unfold create_complete_minimal_spanning_set in Hexpand.
    revert Hexpand.
    apply (for_each_establishes
             (fun _ => answer pt k e (grid_separation lg) <> None)
             _ _ k Hk); [tauto|].
    intros a t0 a' t0'.
    apply (for_each_establishes
             (fun _ => answer pt k e (grid_separation lg) <> None)
             _ _ (pt, e) He); [tauto|].
    intros b u b' u'. unfold expand_entry.
    pose proof (Hanswer pt k e (grid_separation lg) u) as Hans.
    destruct (generate_trajectory pt k e _ u) as [[t|] u1]; simpl in Hans;
      [|discriminate].
    intros _. rewrite <- Hans. discriminate.
  - intros Hall. unfold create_complete_minimal_spanning_set.
    apply for_each_total_in. intros k Hk a t0.
    apply for_each_total_in. intros [pt e] He b u.
    unfold expand_entry.
    pose proof (Hanswer pt k e (grid_separation lg) u) as Hans.
    specialize (Hall k pt e Hk He).
    destruct (generate_trajectory pt k e _ u) as [[t|] u1]; simpl in Hans.
    + eauto.
    + congruence.
  - unfold create_complete_minimal_spanning_set.
    apply for_each_raises_only. intros k a t0 e t0'.
    apply for_each_raises_only. intros [pt e0] b u e1 u'.
    unfold expand_entry.
    destruct (generate_trajectory pt k e0 _ u) as [[t|] u1].
    + discriminate.
    + intros E; now inversion E.
Qed.

End ExpanderErrors.

(** ** Rounding *)

Lemma Int_part_opp_integer x :
  x = IZR (Int_part x) -> Int_part (- x) = (- Int_part x)%Z.
Proof.
  intros H. symmetry. apply Int_part_spec. rewrite opp_IZR. lra.
Qed.

Lemma Int_part_opp_fraction x :
  IZR (Int_part x) < x -> Int_part (- x) = (- Int_part x - 1)%Z.
Proof.
  intros H. destruct (base_Int_part x) as [_ Hhi].
  symmetry. apply Int_part_spec. rewrite minus_IZR, opp_IZR. lra.
Qed.

Lemma rint_opp x : rint (- x) = (- rint x)%Z.
Proof.
  destruct (base_Int_part x) as [Hlo Hhi].
  destruct (Req_dec_T x (IZR (Int_part x))) as [E|E].
  - unfold rint. rewrite (Int_part_opp_integer x E).
    rewrite opp_IZR.
    rewrite (proj2 (Rltb_true (- x - - IZR (Int_part x)) (1 / 2))) by lra.
    rewrite (proj2 (Rltb_true (x - IZR (Int_part x)) (1 / 2))) by lra.
    reflexivity.
  - assert (Hlt : IZR (Int_part x) < x) by lra.
    unfold rint. rewrite (Int_part_opp_fraction x Hlt).
    rewrite minus_IZR, opp_IZR.
    set (f := Int_part x) in *. set (d := x - IZR f).
    replace (- x - (- IZR f - 1)) with (1 - d) by (unfold d; ring).
    assert (Hd : 0 < d < 1) by (unfold d; lra).
    destruct (Rtotal_order d (1 / 2)) as [Hd2|[Hd2|Hd2]].
    + rewrite (proj2 (Rltb_true d (1 / 2))) by lra.
      rewrite (proj2 (Rltb_false (1 - d) (1 / 2))) by lra.
      rewrite (proj2 (Rltb_true (1 / 2) (1 - d))) by lra. lia.
    + rewrite (proj2 (Rltb_false d (1 / 2))) by lra.
      rewrite (proj2 (Rltb_false (1 / 2) d)) by lra.
      rewrite (proj2 (Rltb_false (1 - d) (1 / 2))) by lra.
      rewrite (proj2 (Rltb_false (1 / 2) (1 - d))) by lra.
      replace (- f - 1)%Z with (- (f + 1))%Z by lia.
      rewrite Z.even_opp, Z.even_add. simpl.
      destruct (Z.even f); simpl; lia.
    + rewrite (proj2 (Rltb_false d (1 / 2))) by lra.
      rewrite (proj2 (Rltb_true (1 / 2) d)) by lra.
      rewrite (proj2 (Rltb_true (1 - d) (1 / 2))) by lra. lia.
Qed.

Lemma round5_opp x : round5 (- x) = - round5 x.
Proof.
  unfold round5. replace (- x * 100000) with (- (x * 100000)) by ring.
  rewrite rint_opp, opp_IZR. field.
Qed.

Lemma map_round5_opp l : map round5 (map Ropp l) = map Ropp (map round5 l).
Proof.
  rewrite !map_map. apply map_ext. intros x. apply round5_opp.
Qed.

(** ** Mirror images *)

Lemma length_init {A} (l : list A) : length (init l) = (length l - 1)%nat.
Proof.
  unfold init. induction l as [|x [|y l] IH]; simpl in *; try reflexivity.
  rewrite IH. lia.
Qed.

Lemma length_rest {A} (l : list A) : length (rest l) = (length l - 1)%nat.
Proof. destruct l; simpl; lia. Qed.

Lemma segment_yaws_length xs ys :
  length (segment_yaws xs ys)
  = Nat.min (length xs - 1) (length ys - 1).
Proof.
  unfold segment_yaws.
  rewrite length_map, !length_combine, !length_init, !length_rest. lia.
Qed.

Lemma zip3_positions (a b c : list R) :
  map (fun pose : Pose => (fst (fst pose), snd (fst pose))) (zip3 a b c)
  = firstn (length c) (combine a b).
Proof.
  unfold zip3. rewrite map_map.
  revert b c. induction a as [|x a IH]; intros [|y b] [|z c]; simpl;
    rewrite ?firstn_nil; try reflexivity.
  f_equal. apply IH.
Qed.

Lemma combine_map {A B C D} (f : A -> C) (g : B -> D) la lb :
  combine (map f la) (map g lb)
  = map (fun p => (f (fst p), g (snd p))) (combine la lb).
Proof.
  revert lb. induction la as [|x la IH]; intros [|y lb]; simpl;
    try reflexivity.
  f_equal. apply IH.
Qed.

Lemma firstn_map_comm {A B} (f : A -> B) n l :
  firstn n (map f l) = map f (firstn n l).
Proof.
  revert l. induction n as [|n IH]; intros [|x l]; simpl; try reflexivity.
  f_equal. apply IH.
Qed.

(** X14: a draft primitive off the axes expands to four tuples: itself and
    its mirror images in the y axis, in the origin and in the x axis, with
    the headings [(180 - s, 180 - e)], [(s - 180, e - 180)] and
    [(-s, -e)], the same radius and lengths, and the rounded positions of
    the first tuple with the sign of x, of both coordinates, and of y
    changed. *)
Theorem reflections_are_mirror_images (s e : R) (t : Trajectory)
    (Hs : s <> 0) (He : e <> 0) (Hup : ~ (s = 90 /\ e = 90)) :
  exists q1 q2 q3 q4,
    reflect_trajectory s e t = [q1; q2; q3; q4] /\
    (start_heading q1 = s /\ end_heading q1 = e) /\
    (start_heading q2 = 180 - s /\ end_heading q2 = 180 - e) /\
    (start_heading q3 = s - 180 /\ end_heading q3 = e - 180) /\
    (start_heading q4 = - s /\ end_heading q4 = - e) /\
    same_lengths q1 q2 /\ same_lengths q1 q3 /\ same_lengths q1 q4 /\
    positions q2 = map (fun p => (- fst p, snd p)) (positions q1) /\
    positions q3 = map (fun p => (- fst p, - snd p)) (positions q1) /\
    positions q4 = map (fun p => (fst p, - snd p)) (positions q1).
Proof.
  unfold reflect_trajectory.
  rewrite (proj2 (Reqb_false s 0) Hs), (proj2 (Reqb_false e 0) He).
  assert (H90 : Reqb s 90 && Reqb e 90 = false).
  { destruct (Reqb s 90) eqn:E1; destruct (Reqb e 90) eqn:E2;
      try reflexivity. reqb_facts. tauto. }
  rewrite H90. cbn [andb].
  do 4 eexists. split; [reflexivity|].
  unfold same_lengths, positions, mk_primitive.
  cbn [start_heading end_heading prim_radius total_length arc_length
       straight_length poses].
  repeat (split; [tauto|]).
  rewrite !zip3_positions, !length_app, !segment_yaws_length, !length_map.
  rewrite !map_round5_opp, <- !firstn_map_comm.
  repeat split; f_equal.
  - rewrite <- (map_id (map round5 (ys (path t)))) at 1.
    now rewrite combine_map.
  - now rewrite combine_map.
  - rewrite <- (map_id (map round5 (xs (path t)))) at 1.
    now rewrite combine_map.
Qed.

(** ** In-place turns, continued *)

Lemma next_angle_idx_lt n idx : (idx < n)%nat -> (next_angle_idx n idx < n)%nat.
Proof.
  intros H. unfold next_angle_idx.
  destruct (Nat.ltb_spec (idx + 1) n); lia.
Qed.

Lemma prev_angle_idx_lt n idx : (idx < n)%nat -> (prev_angle_idx n idx < n)%nat.
Proof.
  intros H. unfold prev_angle_idx. destruct (Nat.leb_spec 1 idx); lia.
Qed.

Lemma prev_next_angle_idx n idx :
  (idx < n)%nat -> prev_angle_idx n (next_angle_idx n idx) = idx.
Proof.
  intros H. unfold prev_angle_idx, next_angle_idx.
  destruct (Nat.ltb_spec (idx + 1) n).
  - destruct (Nat.leb_spec 1 (idx + 1)); lia.
  - destruct (Nat.leb_spec 1 0); lia.
Qed.

Lemma next_prev_angle_idx n idx :
  (idx < n)%nat -> next_angle_idx n (prev_angle_idx n idx) = idx.
Proof.
  intros H. unfold prev_angle_idx, next_angle_idx.
  destruct (Nat.leb_spec 1 idx).
  - destruct (Nat.ltb_spec (idx - 1 + 1) n); lia.
  - destruct (Nat.ltb_spec (n - 1 + 1) n); lia.
Qed.

(** X15: the in-place turns come in opposite pairs: every heading gets a
    turn to a previous and to a next heading of the set, the next heading
    gets the turn back as its turn to the previous one, and the previous
    heading gets it as its turn to the next one. *)
Theorem in_place_turns_reciprocal (set : SpanningSet) (a : R)
    (Hnd : NoDup (keys set)) (Ha : In a (keys set)) :
  exists prev next,
    In prev (keys set) /\ In next (keys set) /\
    dd_lookup a (add_in_place_turns set)
    = dd_lookup a set ++ [in_place_turn a prev; in_place_turn a next] /\
    (exists before after,
        dd_lookup next (add_in_place_turns set)
        = before ++ [in_place_turn next a; after]) /\
    (exists before earlier,
        dd_lookup prev (add_in_place_turns set)
        = before ++ [earlier; in_place_turn prev a]).
Proof.
  set (all := sorted_angles set).
  assert (Hperm : Permutation all (keys set)) by apply sorted_angles_perm.
  assert (Hin : In a all)
    by (eapply Permutation_in; [symmetry; exact Hperm|exact Ha]).
  apply (In_nth _ _ 0) in Hin as [idx [Hidx Hnth]].
  set (n := length all) in *.
  pose proof (next_angle_idx_lt n idx Hidx) as Hnext.
  pose proof (prev_angle_idx_lt n idx Hidx) as Hprev.
  exists (nth (prev_angle_idx n idx) all 0), (nth (next_angle_idx n idx) all 0).
  split; [eapply Permutation_in; [exact Hperm|now apply nth_In]|].
  split; [eapply Permutation_in; [exact Hperm|now apply nth_In]|].
  split; [|split].
  - rewrite <- Hnth. unfold all.
    rewrite add_in_place_turns_lookup by assumption. reflexivity.
  - unfold all at 1. rewrite add_in_place_turns_lookup by assumption.
    do 2 eexists. f_equal. unfold turn_left_at. fold all. fold n.
    rewrite prev_next_angle_idx by assumption. rewrite Hnth.
    reflexivity.
  - unfold all at 1. rewrite add_in_place_turns_lookup by assumption.
    do 2 eexists. f_equal. unfold turn_right_at. fold all. fold n.
    rewrite next_prev_angle_idx by assumption. rewrite Hnth.
    reflexivity.
Qed.

(** ** The shape of the final spanning set *)

Lemma keyed_by_start_add_in_place_turns set :
  keyed_by_start set -> keyed_by_start (add_in_place_turns set).
Proof.
  intros Hk. unfold add_in_place_turns.
  apply fold_left_invariant; [|exact Hk].
  intros set0 idx _ Hset0. unfold add_turns_at.
  apply (keyed_by_start_append (in_place_turn _ _)).
  apply (keyed_by_start_append (in_place_turn _ _)).
  exact Hset0.
Qed.

Lemma keyed_by_start_add_motions_loop ml steps angles set out :
  keyed_by_start set ->
  add_motions_loop ml steps angles set = Returns out ->
  keyed_by_start out.
Proof.
  revert set. induction angles as [|k angles IH]; intros set Hset; simpl.
  - intros E; inversion E; subst. exact Hset.
  - destruct (steps <? 0)%Z; [discriminate|].
    apply IH.
    apply (keyed_by_start_append
             (nth 1 (horizontal_motions ml steps k) (in_place_turn 0 0))).
    apply (keyed_by_start_append
             (nth 0 (horizontal_motions ml steps k) (in_place_turn 0 0))).
    exact Hset.
Qed.

Lemma keyed_by_start_handle_motion_model lg set out :
  keyed_by_start set ->
  handle_motion_model lg set = Returns out ->
  keyed_by_start out.
Proof.
  intros Hset. unfold handle_motion_model.
  destruct (motion_model lg).
  - intros E; inversion E; subst. exact Hset.
  - intros E; inversion E; subst.
    now apply keyed_by_start_add_in_place_turns.
  - unfold add_horizontal_motions.
    destruct (compute_min_trajectory_length lg) as [ml|e]; [|discriminate].
    destruct (Py.div ml (grid_separation lg)) as [q|e]; [|discriminate].
    apply keyed_by_start_add_motions_loop.
    now apply keyed_by_start_add_in_place_turns.
  - discriminate.
Qed.

(** X16: the spanning set [run] returns is keyed by start heading under
    every motion model: its keys are pairwise different, no list is empty,
    and every primitive, reflected or added by the motion model, is stored
    under its own start heading. *)
Theorem run_output_keyed_by_start {St : Type}
    (generate_trajectory :
       Point -> R -> R -> R -> St -> option Trajectory * St)
    (lg : LatticeGenerator) (s s' : St) (out : SpanningSet)
    (Hrun : run generate_trajectory lg s = (Ok out, s')) :
  NoDup (keys out) /\
  forall k l, In (k, l) out ->
              l <> [] /\ forall p, In p l -> start_heading p = k.
Proof.
  revert Hrun. unfold run, generate_minimal_spanning_set, bindM, lift.
  destruct (single_quadrant_search generate_trajectory lg s)
    as [[drafts|e] s1]; [|discriminate].
  destruct (create_complete_minimal_spanning_set generate_trajectory lg
              drafts s1) as [[set|e] s2] eqn:Hexpand; [|discriminate].
  destruct (handle_motion_model lg set) as [out'|e set'] eqn:Hmodel;
    simpl; [|discriminate].
  intros E; inversion E; subst.
  apply (keyed_by_start_handle_motion_model lg set); [|exact Hmodel].
  eapply create_complete_keyed. exact Hexpand.
Qed.

(** ** When [run] returns *)

Lemma create_complete_total {St}
    (gen : Point -> R -> R -> R -> St -> option Trajectory * St)
    lg drafts s :
  answers_always gen ->
  exists set s',
    create_complete_minimal_spanning_set gen lg drafts s = (Ok set, s').
Proof.
  intros Hgen. unfold create_complete_minimal_spanning_set.
  apply for_each_total. intros k a t0.
  apply for_each_total. intros [pt e] b u. unfold expand_entry.
  destruct (Hgen pt k e (grid_separation lg) u) as [t [u1 ->]]. eauto.
Qed.

Lemma generate_total {St}
    (gen : Point -> R -> R -> R -> St -> option Trajectory * St) lg s :
  number_of_headings lg <> 0%Z -> grid_separation lg <> 0 ->
  answers_always gen ->
  exists set s', generate_minimal_spanning_set gen lg s = (Ok set, s').
Proof.
  intros Hn Hgs Hgen. unfold generate_minimal_spanning_set, bindM.
  destruct (single_quadrant_search_total gen lg s Hn Hgs)
    as [drafts [s1 ->]].
  now apply create_complete_total.
Qed.

Lemma run_returns_answered {St}
    (gen : Point -> R -> R -> R -> St -> option Trajectory * St) lg s :
  0 < grid_separation lg -> 0 <= turning_radius lg ->
  (0 < number_of_headings lg)%Z -> answers_always gen ->
  (forall tag, motion_model lg <> OtherModel tag) ->
  exists out s', run gen lg s = (Ok out, s').
Proof.
  intros Hgs Hr Hn Hgen Hmodel. unfold run, bindM, lift.
  destruct (generate_total gen lg s) as [set [s1 ->]]; [lia|lra|exact Hgen|].
  unfold handle_motion_model.
  destruct (motion_model lg) eqn:Hm; simpl; eauto.
  - rewrite add_horizontal_motions_ops by assumption. simpl. eauto.
  - exfalso. now apply (Hmodel tag).
Qed.

(** X17: with a positive grid separation and number of headings, a
    non-negative turning radius and a generator that answers every request
    with a trajectory, [run] returns a spanning set under the ACKERMANN,
    DIFF and OMNI motion models; under any other motion model it raises
    [NotImplementedError], after the search and the expansion. *)
Theorem run_returns {St : Type}
    (generate_trajectory :
       Point -> R -> R -> R -> St -> option Trajectory * St)
    (lg : LatticeGenerator)
    (Hgs : 0 < grid_separation lg) (Hr : 0 <= turning_radius lg)
    (Hn : (0 < number_of_headings lg)%Z)
    (Hgen : answers_always generate_trajectory) :
  ((forall tag, motion_model lg <> OtherModel tag) ->
   forall s, exists out s', run generate_trajectory lg s = (Ok out, s')) /\
  (forall tag, motion_model lg = OtherModel tag ->
   forall s, exists s',
     run generate_trajectory lg s = (Raise NotImplementedError, s') /\
     exists set,
       generate_minimal_spanning_set generate_trajectory lg s
       = (Ok set, s')).
Proof.
  split.
  - intros Hmodel s. now apply run_returns_answered.
  - intros tag Hm s. unfold run, bindM, lift.
    destruct (generate_total generate_trajectory lg s)
      as [set [s1 Hgenr]]; [lia|lra|exact Hgen|].
    rewrite Hgenr. unfold handle_motion_model. rewrite Hm. simpl.
    exists s1. split; [reflexivity|]. now exists set.
Qed.

(** ** Errors of the lateral motions *)

Lemma add_motions_loop_negative ml steps angles set :
  (steps < 0)%Z -> angles <> [] ->
  add_motions_loop ml steps angles set = Raises ValueError set.
Proof.
  intros Hs Ha. destruct angles as [|k angles]; [contradiction|].
  simpl. now rewrite (proj2 (Z.ltb_lt steps 0) Hs).
Qed.

(** X18: under the OMNI motion model a failure leaves the in-place turns
    behind: with a zero number of headings or grid separation
    [handle_motion_model] raises [ZeroDivisionError], and with a negative
    number of sidestep samples on a non-empty set it raises [ValueError],
    in both cases after the turns were added to the set that was passed
    in; an empty set is returned unchanged. *)
Theorem omni_failure_keeps_turns (lg : LatticeGenerator) (set : SpanningSet)
    (Hm : motion_model lg = OMNI) :
  (number_of_headings lg = 0%Z \/ grid_separation lg = 0 ->
   handle_motion_model lg set
   = Raises ZeroDivisionError (add_in_place_turns set)) /\
  (number_of_headings lg <> 0%Z -> grid_separation lg <> 0 ->
   (lateral_steps lg < 0)%Z -> set <> [] ->
   handle_motion_model lg set
   = Raises ValueError (add_in_place_turns set)) /\
  (number_of_headings lg <> 0%Z -> grid_separation lg <> 0 ->
   handle_motion_model lg [] = Returns []).
Proof.
  unfold handle_motion_model. rewrite Hm. cbv zeta.
  split; [|split].
  - intros Hzero. unfold add_horizontal_motions,
      compute_min_trajectory_length, Py.div.
    destruct (Reqb (IZR (number_of_headings lg)) 0) eqn:En; [reflexivity|].
    simpl. destruct (Reqb (grid_separation lg) 0) eqn:Eg; [reflexivity|].
    reqb_facts. destruct Hzero as [H|H]; [|contradiction].
    rewrite H in En. contradiction.
  - intros Hn Hgs Hsteps Hset. unfold add_horizontal_motions.
    rewrite compute_min_trajectory_length_ok by assumption.
    unfold Py.div. rewrite (proj2 (Reqb_false _ 0) Hgs).
    apply add_motions_loop_negative; [exact Hsteps|].
    rewrite add_in_place_turns_keys. destruct set; [contradiction|].
    discriminate.
  - intros Hn Hgs. unfold add_horizontal_motions.
    rewrite compute_min_trajectory_length_ok by assumption.
    unfold Py.div. rewrite (proj2 (Reqb_false _ 0) Hgs).
    reflexivity.
Qed.

(** ** The geometry of the lateral motions *)

Lemma linspace0_length stop num :
  (0 <= num)%Z -> length (linspace0 stop num) = Z.to_nat num.
Proof.
  intros H. unfold linspace0. destruct (Z.eqb_spec num 1) as [->|Hne].
  - reflexivity.
  - rewrite length_map, range_length. lia.
Qed.

Lemma zip3_length (a b c : list R) :
  @length Pose (zip3 a b c)
  = Nat.min (length a) (Nat.min (length b) (length c)).
Proof. unfold zip3. now rewrite length_map, !length_combine. Qed.

Lemma zip3_yaws {A B C} (a : list A) (b : list B) (c : list C) (P : C -> Prop) :
  Forall P c -> Forall (fun pose => P (snd pose)) (zip3 a b c).
Proof.
  intros Hc. unfold zip3. apply Forall_forall. intros pose Hin.
  apply in_map_iff in Hin as [[x [y z]] [<- Hin]]. simpl.
  apply in_combine_r in Hin. apply in_combine_r in Hin.
  eapply Forall_forall in Hc; eauto.
Qed.

Lemma rint_0 : rint 0 = 0%Z.
Proof.
  unfold rint. replace (Int_part 0) with 0%Z
    by (apply Int_part_spec; lra).
  now rewrite (proj2 (Rltb_true (0 - 0) (1 / 2))) by lra.
Qed.

Lemma round5_0 : round5 0 = 0.
Proof.
  unfold round5. replace (0 * 100000) with 0 by ring. rewrite rint_0. lra.
Qed.

Lemma linspace0_head stop num :
  (1 <= num)%Z -> exists l, linspace0 stop num = 0 :: l.
Proof.
  intros H. unfold linspace0. destruct (Z.eqb_spec num 1) as [->|Hne].
  - now exists [].
  - unfold range. replace (Z.to_nat (num - 0)) with (S (Z.to_nat (num - 1)))
      by lia.
    simpl. eexists. f_equal. ring.
Qed.

Lemma linspace0_last stop num :
  (2 <= num)%Z -> last (linspace0 stop num) 0 = stop.
Proof.
  intros H. unfold linspace0. rewrite (proj2 (Z.eqb_neq num 1)) by lia.
  unfold range. replace (Z.to_nat (num - 0)) with (Z.to_nat (num - 1) + 1)%nat
    by lia.
  rewrite seq_app, !map_app. cbn [seq map]. rewrite last_last.
  replace (0 + Z.of_nat (0 + Z.to_nat (num - 1)))%Z with (num - 1)%Z by lia.
  field. intros E. apply eq_IZR_R0 in E. lia.
Qed.

Lemma last_combine_map {A B} (f : A -> B) (la lb : list A) (dflt : B * B)
    (da : A) :
  length la = length lb -> la <> [] ->
  last (combine (map f la) (map f lb)) dflt = (f (last la da), f (last lb da)).
Proof.
  revert lb. induction la as [|x la IH]; intros [|y lb] Hlen Hne;
    try contradiction; try discriminate.
  destruct la as [|x' la]; destruct lb as [|y' lb]; try discriminate.
  - reflexivity.
  - change (last (combine (map f (x :: x' :: la)) (map f (y :: y' :: lb))) dflt)
      with (last (combine (map f (x' :: la)) (map f (y' :: lb))) dflt).
    rewrite (IH (y' :: lb)); [reflexivity|simpl in *; lia|discriminate].
Qed.

(** X19: the two sidesteps of a heading have one pose per sample, all with
    the yaw of the heading, and the second is the mirror image of the first
    in the origin; with at least one sample they start at the origin (with
    exactly one they never leave it), and with two or more the first ends
    at the rounded point at the sidestep length, 90 degrees to the left of
    the heading. *)
Theorem horizontal_motions_geometry (min_trajectory_length : R) (steps : Z)
    (start_angle : R) (Hsteps : (0 <= steps)%Z) :
  exists left_motion right_motion,
    horizontal_motions min_trajectory_length steps start_angle
    = [left_motion; right_motion] /\
    length (poses left_motion) = Z.to_nat steps /\
    length (poses right_motion) = Z.to_nat steps /\
    Forall (fun pose => snd pose = deg2rad start_angle)
           (poses left_motion ++ poses right_motion) /\
    positions right_motion
    = map (fun p => (- fst p, - snd p)) (positions left_motion) /\
    ((1 <= steps)%Z -> hd (1, 1) (positions left_motion) = (0, 0)) /\
    ((2 <= steps)%Z ->
     last (positions left_motion) (0, 0)
     = (round5 (min_trajectory_length * cos (deg2rad (start_angle + 90))),
        round5 (min_trajectory_length * sin (deg2rad (start_angle + 90))))).
Proof.
  unfold horizontal_motions. do 2 eexists. split; [reflexivity|].
  unfold positions. cbn [poses].
  set (lx := linspace0 (min_trajectory_length
                        * cos (deg2rad (start_angle + 90))) steps).
  set (ly := linspace0 (min_trajectory_length
                        * sin (deg2rad (start_angle + 90))) steps).
  set (yaws := map (fun _ : Z => deg2rad start_angle) (range 0 steps)).
  assert (Hlx : length lx = Z.to_nat steps) by now apply linspace0_length.
  assert (Hly : length ly = Z.to_nat steps) by now apply linspace0_length.
  assert (Hyaws : length yaws = Z.to_nat steps).
  { unfold yaws. rewrite length_map, range_length. lia. }
  assert (Hall : Forall (fun y => y = deg2rad start_angle) yaws).
  { unfold yaws. apply Forall_forall. intros y Hy.
    apply in_map_iff in Hy as [k [<- _]]. reflexivity. }
  split; [|split; [|split; [|split; [|split]]]].
  - rewrite zip3_length, !length_map. lia.
  - rewrite zip3_length, !length_map. lia.
  - apply Forall_app.
    split; apply (zip3_yaws _ _ _ (fun y => y = deg2rad start_angle));
      exact Hall.
  - rewrite !zip3_positions, !map_round5_opp, combine_map.
    now rewrite firstn_map_comm.
  - intros H1. rewrite zip3_positions.
    destruct (linspace0_head (min_trajectory_length
                              * cos (deg2rad (start_angle + 90))) steps H1)
      as [tx Hx].
    destruct (linspace0_head (min_trajectory_length
                              * sin (deg2rad (start_angle + 90))) steps H1)
      as [ty Hy].
    fold lx in Hx. fold ly in Hy. rewrite Hx, Hy, Hyaws.
    replace (Z.to_nat steps) with (S (Z.to_nat (steps - 1))) by lia.
    simpl. now rewrite round5_0.
  - intros H2. rewrite zip3_positions, Hyaws.
    rewrite firstn_all2 by (rewrite length_combine, !length_map; lia).
    rewrite <- (linspace0_last (min_trajectory_length
                                * cos (deg2rad (start_angle + 90))) steps H2).
    rewrite <- (linspace0_last (min_trajectory_length
                                * sin (deg2rad (start_angle + 90))) steps H2).
    fold lx ly.
    apply last_combine_map; [lia|].
    intros E. rewrite E in Hlx. simpl in Hlx. lia.
Qed.

(** ** The order of the end headings *)

Section SortByComparison.

Variable A : Type.
Variable lt : A -> A -> bool.

Hypothesis lt_asym : forall a b, lt a b = true -> lt b a = false.
Hypothesis le_trans :
  forall a b c, lt b a = false -> lt c b = false -> lt c a = false.

Lemma insert_by_sorted x l :
  StronglySorted (fun a b => lt b a = false) l ->
  StronglySorted (fun a b => lt b a = false) (insert_by lt x l).
Proof.
  induction 1 as [|y l Hs IH Hy]; simpl.
  - repeat constructor.
  - destruct (lt y x) eqn:E.
    + constructor; [exact IH|].
      apply Forall_forall. intros z Hz.
      eapply Permutation_in in Hz; [|apply insert_by_perm].
      destruct Hz as [<-|Hz].
      * now apply lt_asym.
      * eapply Forall_forall in Hy; eauto.
    + constructor; [now constructor|].
      constructor; [exact E|].
      eapply Forall_impl; [|exact Hy].
      intros z Hz. simpl in Hz. eapply le_trans; eauto.
Qed.

Lemma sorted_by_sorted l :
  StronglySorted (fun a b => lt b a = false) (sorted_by lt l).
Proof.
  induction l as [|x l IH]; simpl; [constructor|].
  now apply insert_by_sorted.
Qed.

End SortByComparison.

Lemma strongly_sorted_filter {A} (R : A -> A -> Prop) (f : A -> bool) l :
  StronglySorted R l -> StronglySorted R (filter f l).
Proof.
  induction 1 as [|x l Hs IH Hx]; simpl; [constructor|].
  destruct (f x); [|exact IH].
  constructor; [exact IH|].
  apply Forall_forall. intros y Hy. apply filter_In in Hy as [Hy _].
  eapply Forall_forall in Hx; eauto.
Qed.

Lemma strongly_sorted_impl {A} (R1 R2 : A -> A -> Prop) l :
  (forall a b, R1 a b -> R2 a b) ->
  StronglySorted R1 l -> StronglySorted R2 l.
Proof.
  intros Himpl. induction 1 as [|x l Hs IH Hx]; constructor; [exact IH|].
  eapply Forall_impl; [|exact Hx]. intros y. apply Himpl.
Qed.

Lemma target_key_ltb_spec start a b :
  target_key_ltb start b a = false <-> tried_before start a b.
Proof.
  unfold target_key_ltb, tried_before. simpl.
  destruct (Reqb (Rabs (b - start)) (Rabs (a - start))) eqn:E1.
  - destruct (Reqb (- b) (- a)) eqn:E2; reqb_facts.
    + split; [intros _; right; split; lra|reflexivity].
    + rewrite Rltb_false. split; [intros H; right; split; lra|].
      intros [H|[_ H]]; lra.
  - reqb_facts. rewrite Rltb_false. split; [intros H; left; lra|].
    intros [H|[H _]]; lra.
Qed.

Lemma target_key_ltb_asym start a b :
  target_key_ltb start a b = true -> target_key_ltb start b a = false.
Proof.
  intros H. apply target_key_ltb_spec.
  destruct (target_key_ltb start b a) eqn:E; [|now apply target_key_ltb_spec].
  exfalso. revert H E. unfold target_key_ltb. simpl.
  rewrite (Reqb_sym (Rabs (b - start))), (Reqb_sym (- b)).
  destruct (Reqb (Rabs (a - start)) (Rabs (b - start)));
    [destruct (Reqb (- a) (- b)); [discriminate|]|];
    rewrite !Rltb_true; lra.
Qed.

Lemma tried_before_trans start a b c :
  tried_before start a b -> tried_before start b c -> tried_before start a c.
Proof. unfold tried_before. intros [H1|[H1 H1']] [H2|[H2 H2']]; lra. Qed.

(** X20: the end headings tried from a start heading are the headings at
    most 90 degrees from it, in the order of their distance to it and with
    the larger heading first at equal distance; so when the start heading
    is itself a heading, going straight is the first request. *)
Theorem target_headings_order (headings : list R) (start_heading : R) :
  (forall x, In x (target_headings_of headings start_heading) <->
             In x headings /\ Rabs (start_heading - x) <= 90) /\
  StronglySorted (tried_before start_heading)
                 (target_headings_of headings start_heading) /\
  (In start_heading headings ->
   hd_error (target_headings_of headings start_heading) = Some start_heading).
Proof.
  assert (Hin : forall x,
             In x (target_headings_of headings start_heading) <->
             In x headings /\ Rabs (start_heading - x) <= 90).
  { intros x. split; [apply in_target_headings|].
    intros [Hx Hle]. unfold target_headings_of. apply filter_In.
    split; [|now apply Rleb_true].
    eapply Permutation_in; [symmetry; apply sorted_by_perm|exact Hx]. }
  assert (Hsorted : StronglySorted (tried_before start_heading)
                      (target_headings_of headings start_heading)).
  { unfold target_headings_of. apply strongly_sorted_filter.
    apply (strongly_sorted_impl
             (fun a b => target_key_ltb start_heading b a = false)).
    - intros a b. apply target_key_ltb_spec.
    - apply sorted_by_sorted.
      + apply target_key_ltb_asym.
      + intros a b c H1 H2. apply target_key_ltb_spec.
        apply target_key_ltb_spec in H1. apply target_key_ltb_spec in H2.
        eapply tried_before_trans; eauto. }
  split; [exact Hin|]. split; [exact Hsorted|].
  intros Hstart.
  assert (Hs : In start_heading (target_headings_of headings start_heading)).
  { apply Hin. split; [exact Hstart|].
    replace (start_heading - start_heading) with 0 by ring.
    rewrite Rabs_R0. lra. }
  destruct (target_headings_of headings start_heading) as [|h l];
    [contradiction|].
  simpl. f_equal. destruct Hs as [E|Hs]; [exact E|].
  inversion Hsorted as [|? ? _ Hall]; subst.
  eapply Forall_forall in Hall; [|exact Hs].
  unfold tried_before in Hall.
  replace (start_heading - start_heading) with 0 in Hall by ring.
  rewrite Rabs_R0 in Hall. pose proof (Rabs_pos (h - start_heading)) as Hp.
  destruct Hall as [H|[H Hle]]; [lra|].
  destruct (Req_dec_T (h - start_heading) 0) as [E|E]; [lra|].
  apply Rabs_no_R0 in E. lra.
Qed.

(** ** Nothing to expand *)

Lemma for_each_unchanged {St X A} (l : list X) (body : X -> A -> M St A) a :
  (forall x s, exists s', body x a s = (Ok a, s')) ->
  forall s, exists s', for_each l body a s = (Ok a, s').
Proof.
  intros Hbody. induction l as [|x l IH]; intros s; simpl.
  - now exists s.
  - unfold bindM. destruct (Hbody x s) as [s1 ->]. apply IH.
Qed.

Lemma create_complete_empty {St}
    (gen : Point -> R -> R -> R -> St -> option Trajectory * St) lg s :
  create_complete_minimal_spanning_set gen lg [] s = (Ok [], s).
Proof.
  unfold create_complete_minimal_spanning_set, with_90_degrees, dd_touch,
    dd_lookup.
  cbn [dict_get app dict_set]. Rdecide.
  cbn [keys map fst for_each dict_get]. Rdecide.
  reflexivity.
Qed.

Lemma run_of_empty_search {St}
    (gen : Point -> R -> R -> R -> St -> option Trajectory * St) lg s s' :
  single_quadrant_search gen lg s = (Ok [], s') ->
  motion_model lg = ACKERMANN \/ motion_model lg = DIFF ->
  run gen lg s = (Ok [], s').
Proof.
  intros Hsearch Hm. unfold run, generate_minimal_spanning_set, bindM, lift.
  rewrite Hsearch, create_complete_empty. unfold handle_motion_model.
  destruct Hm as [-> | ->]; reflexivity.
Qed.

Lemma search_heading_unanswered {St}
    (gen : Point -> R -> R -> R -> St -> option Trajectory * St)
    lg headings start_level h set :
  (forall target_point start_angle end_angle step s,
      fst (gen target_point start_angle end_angle step s) = None) ->
  forall s, exists s',
    search_heading gen lg headings start_level h set s = (Ok set, s').
Proof.
  intros Hnone s. unfold search_heading.
  destruct (for_each_unchanged
              (range start_level (max_level lg + 1))
              (search_level St gen lg h (target_headings_of headings h))
              (@nil Pose, set)) with (s := s) as [s1 H1].
  - intros level s1. unfold search_level.
    apply for_each_unchanged. intros pt s2.
    apply for_each_unchanged. intros th s3.
    unfold try_target.
    pose proof (Hnone pt h th (0.1 * grid_separation lg) s3) as Hq.
    destruct (gen pt h th _ s3) as [t s4].
    simpl in Hq. subst t. now exists s4.
  - exists s1. unfold bindM. rewrite H1. reflexivity.
Qed.

(** X21: a search without trajectories yields no primitive and no error.
    When the maximal level lies below the start level the search makes no
    request at all, and when the generator answers no request it accepts
    nothing; in both cases the draft set is empty and [run] returns the
    empty spanning set under the ACKERMANN and DIFF motion models. *)
Theorem no_trajectory_no_primitive {St : Type}
    (generate_trajectory :
       Point -> R -> R -> R -> St -> option Trajectory * St)
    (lg : LatticeGenerator)
    (Hn : number_of_headings lg <> 0%Z) (Hgs : grid_separation lg <> 0) :
  ((max_level lg < start_level_of lg)%Z ->
   forall s,
     single_quadrant_search generate_trajectory lg s = (Ok [], s) /\
     (motion_model lg = ACKERMANN \/ motion_model lg = DIFF ->
      run generate_trajectory lg s = (Ok [], s))) /\
  ((forall target_point start_angle end_angle step s,
       fst (generate_trajectory target_point start_angle end_angle step s)
       = None) ->
   forall s, exists s',
     single_quadrant_search generate_trajectory lg s = (Ok [], s') /\
     (motion_model lg = ACKERMANN \/ motion_model lg = DIFF ->
      run generate_trajectory lg s = (Ok [], s'))).
Proof.
  split.
  - intros Hlevels s.
    assert (H : single_quadrant_search generate_trajectory lg s = (Ok [], s)).
    { unfold single_quadrant_search, bindM, lift.
      rewrite compute_min_trajectory_length_ok by assumption.
      unfold Py.div. rewrite (proj2 (Reqb_false _ 0) Hgs).
      fold (start_level_of lg).
      induction (initial_headings_of (get_heading_discretization lg))
        as [|h l IH]; [reflexivity|].
      simpl. unfold bindM at 1, search_heading at 1, bindM at 1.
      rewrite range_empty by lia. simpl. exact IH. }
    split; [exact H|]. now apply run_of_empty_search.
  - intros Hnone s.
    assert (H : exists s',
               single_quadrant_search generate_trajectory lg s = (Ok [], s')).
    { unfold single_quadrant_search, bindM, lift.
      rewrite compute_min_trajectory_length_ok by assumption.
      unfold Py.div. rewrite (proj2 (Reqb_false _ 0) Hgs).
      apply for_each_unchanged. intros h s0.
      now apply search_heading_unanswered. }
    destruct H as [s' H]. exists s'. split; [exact H|].
    now apply run_of_empty_search.
Qed.

(** ** Distinct headings *)

Lemma NoDup_range lo hi : NoDup (range lo hi).
Proof.
  unfold range. apply NoDup_map_NoDup_ForallPairs; [|apply seq_NoDup].
  intros a b _ _ H. lia.
Qed.

Lemma NoDup_flat_map_disjoint {A B} (f : A -> list B) l :
  NoDup l ->
  (forall a, In a l -> NoDup (f a)) ->
  (forall a b x, In a l -> In b l -> In x (f a) -> In x (f b) -> a = b) ->
  NoDup (flat_map f l).
Proof.
  induction 1 as [|a l Hna Hnd IH]; intros Hf Hdis; simpl.
  - constructor.
  - apply NoDup_app.
    + apply Hf. now left.
    + apply IH.
      * intros b Hb. apply Hf. now right.
      * intros b c x Hb Hc. apply Hdis; now right.
    + intros x Hx Hin. apply in_flat_map in Hin as [b [Hb Hxb]].
      apply Hna.
      now rewrite (Hdis a b x (or_introl eq_refl) (or_intror Hb) Hx Hxb).
Qed.

Lemma NoDup_edge_cells m : (1 <= m)%Z -> NoDup (edge_cells m).
Proof.
  intros Hm. unfold edge_cells.
  apply NoDup_flat_map_disjoint; [apply NoDup_range| |].
  - intros i _. unfold on_side.
    destruct (i =? m)%Z eqn:E1; [|destruct (i =? - m)%Z eqn:E2];
      cbn [negb andb app];
      repeat constructor; cbn [In];
      intros H; repeat destruct H as [H|H]; try inversion H; lia.
  - intros i k [x y] _ _ Hi Hk.
    apply in_app_or in Hi. apply in_app_or in Hk. unfold on_side in Hi, Hk.
    destruct (i =? m)%Z eqn:E1; destruct (i =? - m)%Z eqn:E2;
      destruct (k =? m)%Z eqn:E3; destruct (k =? - m)%Z eqn:E4;
      cbn [negb andb In] in Hi, Hk;
      repeat match goal with
             | H : _ \/ _ |- _ => destruct H as [H|H]
             | H : False |- _ => contradiction
             | H : (_, _) = (_, _) |- _ => inversion H; clear H
             end; lia.
Qed.

Lemma atan_inj a b : atan a = atan b -> a = b.
Proof.
  intros H. destruct (Rtotal_order a b) as [Hlt|[E|Hgt]]; [|exact E|].
  - apply atan_increasing in Hlt. lra.
  - apply atan_increasing in Hgt. lra.
Qed.

(** The value of [arctan2] away from the origin, region by region. *)
Lemma arctan2_region y x :
  x <> 0 \/ y <> 0 ->
  (0 < x /\ arctan2 y x = atan (y / x) /\
   - (PI / 2) < arctan2 y x < PI / 2) \/
  (x < 0 /\ 0 <= y /\ arctan2 y x = atan (y / x) + PI /\
   PI / 2 < arctan2 y x) \/
  (x < 0 /\ y < 0 /\ arctan2 y x = atan (y / x) - PI /\
   arctan2 y x < - (PI / 2)) \/
  (x = 0 /\ 0 < y /\ arctan2 y x = PI / 2) \/
  (x = 0 /\ y < 0 /\ arctan2 y x = - (PI / 2)).
Proof.
  intros Hne. pose proof PI_RGT_0 as Hpi. unfold arctan2.
  destruct (Rtotal_order x 0) as [Hx|[Hx|Hx]].
  - pose proof (atan_bound (y / x)) as Hb.
    destruct (Rle_or_lt 0 y) as [Hy|Hy]; Rdecide.
    + right; left. repeat split; lra.
    + right; right; left. repeat split; lra.
  - subst x. destruct (Rtotal_order y 0) as [Hy|[Hy|Hy]]; Rdecide.
    + right; right; right; right. repeat split; lra.
    + lra.
    + right; right; right; left. repeat split; lra.
  - pose proof (atan_bound (y / x)) as Hb. Rdecide.
    left. repeat split; lra.
Qed.

Lemma quotients_same_ray y x y' x' :
  0 < x * x' -> y / x = y' / x' ->
  x * y' = x' * y /\ 0 < x * x' + y * y'.
Proof.
  intros Hxx Hq.
  assert (Hx : x <> 0) by nra. assert (Hx' : x' <> 0) by nra.
  assert (Hc : x * y' = x' * y).
  { apply (f_equal (fun t => t * (x * x'))) in Hq.
    unfold Rdiv in Hq.
    replace (y * / x * (x * x')) with (x' * y) in Hq by (field; assumption).
    replace (y' * / x' * (x * x')) with (x * y') in Hq by (field; assumption).
    now symmetry. }
  split; [exact Hc|].
  assert (Hyy : (y * y') * (x * x') = (x' * y) * (x' * y)).
  { rewrite <- Hc at 1. ring. }
  assert (0 <= (y * y') * (x * x')) by (rewrite Hyy; nra).
  assert (0 <= y * y').
  { destruct (Rle_or_lt 0 (y * y')) as [?|Hneg]; [assumption|]. nra. }
  lra.
Qed.

(** Equal angles lie on one ray from the origin. *)
Lemma arctan2_same_ray y x y' x' :
  x <> 0 \/ y <> 0 -> x' <> 0 \/ y' <> 0 ->
  arctan2 y x = arctan2 y' x' ->
  x * y' = x' * y /\ 0 < x * x' + y * y'.
Proof.
  intros Hne Hne' Heq. pose proof PI_RGT_0 as Hpi.
  destruct (arctan2_region y x Hne)
    as [[Hx [Ha Hb]]|[[Hx [Hy [Ha Hb]]]|[[Hx [Hy [Ha Hb]]]
        |[[Hx [Hy Ha]]|[Hx [Hy Ha]]]]]];
    destruct (arctan2_region y' x' Hne')
      as [[Hx' [Ha' Hb']]|[[Hx' [Hy' [Ha' Hb']]]|[[Hx' [Hy' [Ha' Hb']]]
          |[[Hx' [Hy' Ha']]|[Hx' [Hy' Ha']]]]]];
    try lra.
  - apply quotients_same_ray; [nra|]. apply atan_inj. lra.
  - apply quotients_same_ray; [nra|]. apply atan_inj. lra.
  - apply quotients_same_ray; [nra|]. apply atan_inj. lra.
  - subst x x'. split; [ring|nra].
  - subst x x'. split; [ring|nra].
Qed.

(** Two cells of the boundary of one square on one ray are the same cell. *)
Lemma same_ray_on_square m x y x' y' :
  (1 <= m)%Z ->
  (Z.abs x <= m)%Z -> (Z.abs y <= m)%Z ->
  (Z.abs x = m \/ Z.abs y = m)%Z ->
  (Z.abs x' <= m)%Z -> (Z.abs y' <= m)%Z ->
  (Z.abs x' = m \/ Z.abs y' = m)%Z ->
  (x * y' = x' * y)%Z -> (0 < x * x' + y * y')%Z ->
  x = x' /\ y = y'.
Proof.
  intros Hm Hx Hy Hb Hx' Hy' Hb' Hc Hd.
  set (N := (x * x + y * y)%Z). set (D := (x * x' + y * y')%Z).
  assert (HN : (0 < N)%Z) by (subst N; nia).
  assert (H1 : (N * x' = D * x)%Z).
  { subst N D.
    replace ((x * x + y * y) * x')%Z
      with (x * x * x' + y * (x' * y))%Z by ring.
    rewrite <- Hc. ring. }
  assert (H2 : (N * y' = D * y)%Z).
  { subst N D.
    replace ((x * x' + y * y') * y)%Z
      with (x * (x' * y) + y * y' * y)%Z by ring.
    rewrite <- Hc. ring. }
  fold D in Hd.
  assert (A1 : (N * Z.abs x' = D * Z.abs x)%Z).
  { rewrite <- (Z.abs_eq N) at 1 by lia. rewrite <- (Z.abs_eq D) by lia.
    rewrite <- !Z.abs_mul. now rewrite H1. }
  assert (A2 : (N * Z.abs y' = D * Z.abs y)%Z).
  { rewrite <- (Z.abs_eq N) at 1 by lia. rewrite <- (Z.abs_eq D) by lia.
    rewrite <- !Z.abs_mul. now rewrite H2. }
  assert (L1 : (N * m <= D * m)%Z).
  { destruct Hb' as [E|E]; rewrite <- E at 1.
    - rewrite A1. apply Z.mul_le_mono_nonneg_l; lia.
    - rewrite A2. apply Z.mul_le_mono_nonneg_l; lia. }
  assert (L2 : (D * m <= N * m)%Z).
  { destruct Hb as [E|E]; rewrite <- E at 1.
    - rewrite <- A1. apply Z.mul_le_mono_nonneg_l; lia.
    - rewrite <- A2. apply Z.mul_le_mono_nonneg_l; lia. }
  assert (E : N = D).
  { apply (Z.mul_cancel_r _ _ m); lia. }
  rewrite <- E in H1, H2.
  apply Z.mul_cancel_l in H1; [|lia]. apply Z.mul_cancel_l in H2; [|lia].
  now split.
Qed.

Lemma rad2deg_inj a b : rad2deg a = rad2deg b -> a = b.
Proof.
  unfold rad2deg. intros H. pose proof PI_RGT_0 as Hpi.
  apply (Rmult_eq_reg_r (180 / PI)); [exact H|].
  apply Rmult_integral_contrapositive_currified; [lra|].
  apply Rinv_neq_0_compat. lra.
Qed.

Lemma heading_of_inj m c c' :
  (1 <= m)%Z -> In c (edge_cells m) -> In c' (edge_cells m) ->
  heading_of c = heading_of c' -> c = c'.
Proof.
  intros Hm Hc Hc' Heq. destruct c as [x y], c' as [x' y'].
  apply in_edge_cells in Hc; [|lia]. apply in_edge_cells in Hc'; [|lia].
  unfold heading_of in Heq. cbn [fst snd] in Heq.
  apply rad2deg_inj in Heq.
  assert (Hne : IZR x <> 0 \/ IZR y <> 0).
  { destruct (Z.eq_dec x 0) as [->|Hx].
    - right. apply not_0_IZR. lia.
    - left. now apply not_0_IZR. }
  assert (Hne' : IZR x' <> 0 \/ IZR y' <> 0).
  { destruct (Z.eq_dec x' 0) as [->|Hx].
    - right. apply not_0_IZR. lia.
    - left. now apply not_0_IZR. }
  destruct (arctan2_same_ray _ _ _ _ Hne Hne' Heq) as [Hcross Hdot].
  rewrite <- !mult_IZR in Hcross. apply eq_IZR in Hcross.
  rewrite <- !mult_IZR, <- plus_IZR in Hdot. apply lt_IZR in Hdot.
  destruct (same_ray_on_square m x y x' y') as [-> ->];
    try lia; try assumption.
  reflexivity.
Qed.

(** X22: with eight headings or more the discretization holds no heading
    twice; with fewer than eight (and no negative number) the compass
    square shrinks to the origin and the discretization is the heading 0
    twice. *)
Theorem heading_discretization_distinct (lg : LatticeGenerator) :
  ((8 <= number_of_headings lg)%Z ->
   NoDup (get_heading_discretization lg)) /\
  ((0 <= number_of_headings lg < 8)%Z ->
   get_heading_discretization lg = [0; 0]).
Proof.
  split.
  - intros Hn.
    assert (Hm : (1 <= max_val lg)%Z).
    { rewrite max_val_div8 by lia.
      apply (Z.div_le_lower_bound _ 8 1); lia. }
    unfold get_heading_discretization. rewrite combine_outer_edges.
    apply NoDup_map_NoDup_ForallPairs; [|now apply NoDup_edge_cells].
    intros c c' Hc Hc'. now apply heading_of_inj with (m := max_val lg).
  - intros Hn. unfold get_heading_discretization.
    rewrite combine_outer_edges, max_val_div8 by lia.
    rewrite Z.div_small by lia.
    assert (Hcells : edge_cells 0 = [(0%Z, 0%Z); (0%Z, 0%Z)])
      by reflexivity.
    rewrite Hcells. cbn [map]. unfold heading_of, arctan2. cbn [fst snd].
    Rdecide. now rewrite rad2deg_0.
Qed.

(** ** Heading range of the expander *)

Lemma reflect_trajectory_start_canonical s e t q :
  0 <= s < 180 -> In q (reflect_trajectory s e t) ->
  canonical_heading (start_heading q) /\ start_heading q <> 180.
Proof.
  intros Hs. unfold reflect_trajectory.
  destruct (Reqb s 0) eqn:Es0; destruct (Reqb e 0) eqn:Ee0;
    destruct (Reqb s 90) eqn:Es90; destruct (Reqb e 90) eqn:Ee90;
    cbn [andb In]; reqb_facts; intros Hin;
    repeat (destruct Hin as [<-|Hin]; [|]); try contradiction;
    unfold canonical_heading, mk_primitive;
    cbn [start_heading]; lra.
Qed.

Lemma reflect_trajectory_end_canonical s e t q :
  0 <= e < 180 -> In q (reflect_trajectory s e t) ->
  canonical_heading (end_heading q) /\ end_heading q <> 180.
Proof.
  intros He. unfold reflect_trajectory.
  destruct (Reqb s 0) eqn:Es0; destruct (Reqb e 0) eqn:Ee0;
    destruct (Reqb s 90) eqn:Es90; destruct (Reqb e 90) eqn:Ee90;
    cbn [andb In]; reqb_facts; intros Hin;
    repeat (destruct Hin as [<-|Hin]; [|]); try contradiction;
    unfold canonical_heading, mk_primitive;
    cbn [end_heading]; lra.
Qed.

(** The reflections [180 - e], [e - 180] and [- e] are not normalised: an
    end heading outside [[0, 180)] yields an end heading above 180, or, at
    180 itself, both 180 and -180. *)
Lemma reflect_trajectory_end_unnormalised s e t :
  ~ 0 <= e < 180 ->
  exists q q',
    In q (reflect_trajectory s e t) /\ In q' (reflect_trajectory s e t) /\
    (180 < end_heading q \/
     (end_heading q = 180 /\ end_heading q' = -180)).
Proof.
  intros He. unfold reflect_trajectory.
  destruct (Reqb s 0) eqn:Es0; destruct (Reqb e 0) eqn:Ee0;
    destruct (Reqb s 90) eqn:Es90; destruct (Reqb e 90) eqn:Ee90;
    cbn [andb]; reqb_facts; try (exfalso; apply He; lra);
    (destruct (Rlt_le_dec e 0) as [Hneg|Hpos];
     [ do 2 eexists; split; [right; left; reflexivity|];
       split; [left; reflexivity|]; left;
       unfold mk_primitive; cbn [end_heading]; lra
     | destruct (Req_dec_T e 180) as [E180|Hne];
       [ do 2 eexists; split; [left; reflexivity|];
         split; [right; right; right; left; reflexivity|]; right;
         unfold mk_primitive; cbn [end_heading]; split; lra
       | do 2 eexists; split; [left; reflexivity|];
         split; [left; reflexivity|]; left;
         unfold mk_primitive; cbn [end_heading];
         destruct (Rlt_le_dec e 180); [exfalso; apply He|]; lra ] ]).
Qed.

Lemma expanded_draft_entry drafts k e :
  expanded_draft drafts k e ->
  In k (keys (with_90_degrees drafts)) /\
  exists pt, In (pt, e) (dd_lookup k (with_90_degrees drafts)).
Proof.
  unfold expanded_draft. intros Hin.
  apply in_map_iff in Hin as [[pt e'] [E Hin]]. simpl in E; subst e'.
  split; [|now exists pt].
  destruct (dd_lookup_in _ _ _ Hin) as [l [Hl _]].
  now apply (in_keys_of_entry _ _ l).
Qed.

(** Where the reflected draft primitives come from: an entry of the set
    the expander is given, or the key 90. *)
Lemma expanded_draft_origin drafts k e :
  expanded_draft drafts k e ->
  k = 90 \/ exists l pt, In (k, l) drafts /\ In (pt, e) l.
Proof.
  unfold expanded_draft. intros Hin.
  apply in_map_iff in Hin as [[pt e'] [E Hin]]. simpl in E; subst e'.
  destruct (Req_dec_T k 90) as [->|Hne]; [now left|right].
  unfold with_90_degrees, dd_lookup at 1 in Hin.
  rewrite dict_get_dict_set_other in Hin by assumption.
  fold (dd_lookup k (dd_touch 0 drafts)) in Hin.
  rewrite dd_lookup_dd_touch in Hin.
  apply dd_lookup_in in Hin as [l [Hl Hin]]. now exists l, pt.
Qed.

Lemma expand_entry_stored_keep {St}
    (gen : Point -> R -> R -> R -> St -> option Trajectory * St)
    lg k d all s all' s' q :
  expand_entry gen lg k d all s = (Ok all', s') ->
  stored q all -> stored q all'.
Proof.
  destruct d as [pt e]. unfold expand_entry.
  destruct (gen pt k e _ s) as [[t|] s1]; [|discriminate].
  intros E Hq; inversion E; subst. now apply stored_fold_keep.
Qed.

(** Every tuple reflected from a draft primitive is in the spanning set
    the expander returns. *)
Lemma expander_stores_entry {St}
    (gen : Point -> R -> R -> R -> St -> option Trajectory * St)
    lg drafts s set s' k e :
  create_complete_minimal_spanning_set gen lg drafts s = (Ok set, s') ->
  expanded_draft drafts k e ->
  exists t, forall q, In q (reflect_trajectory k e t) -> stored q set.
Proof.
  intros Hexpand Hd. apply expanded_draft_entry in Hd as [Hk [pt He]].
  unfold create_complete_minimal_spanning_set in Hexpand. revert Hexpand.
  apply (for_each_establishes
           (fun all => exists t,
                forall q, In q (reflect_trajectory k e t) -> stored q all)
           _ _ k Hk).
  - intros k0 a t0 a' t0' Hinner [t Hq]. exists t. intros q Hin.
    specialize (Hq q Hin). revert Hinner.
    apply (for_each_invariant St (stored q)); [|exact Hq].
    intros d b u b' u' _ Hb Hd. eapply expand_entry_stored_keep; eauto.
  - intros a t0 a' t0'.
    apply (for_each_establishes
             (fun all => exists t,
                  forall q, In q (reflect_trajectory k e t) -> stored q all)
             _ _ (pt, e) He).
    + intros d b u b' u' Hd [t Hq]. exists t. intros q Hin.
      eapply expand_entry_stored_keep; eauto.
    + intros b u b' u'. unfold expand_entry.
      destruct (gen pt k e _ u) as [[t|] u1]; [|discriminate].
      intros E; inversion E; subst. exists t. intros q Hin.
      now apply fold_append_stores.
Qed.

(** The search stores draft primitives under start headings of [[0, 90)]
    only. *)
Lemma search_start_headings {St}
    (gen : Point -> R -> R -> R -> St -> option Trajectory * St)
    lg s s' drafts :
  single_quadrant_search gen lg s = (Ok drafts, s') ->
  all_drafts (fun k _ => 0 <= k < 90) drafts.
Proof.
  unfold single_quadrant_search, bindM, lift.
  destruct (compute_min_trajectory_length lg) as [ml|e]; [|discriminate].
  destruct (Py.div ml (grid_separation lg)) as [q|e]; [|discriminate].
  apply (for_each_invariant St (all_drafts (fun k _ => 0 <= k < 90)));
    [|intros k l d []].
  intros start_heading set s0 set' s1 Hstart Hset.
  apply in_initial_headings in Hstart as [_ Hquad].
  unfold search_heading, bindM.
  destruct (for_each _ _ _ s0) as [[acc|e] s2] eqn:Hloop; [|discriminate].
  unfold ret. intros E; inversion E; subst; clear E.
  revert Hloop.
  apply (for_each_invariant St
           (fun acc => all_drafts (fun k _ => 0 <= k < 90) (snd acc)));
    [|exact Hset].
  intros level a t a' t' _ Ha. unfold search_level.
  apply (for_each_invariant St
           (fun acc => all_drafts (fun k _ => 0 <= k < 90) (snd acc)));
    [|exact Ha].
  intros pt b u b' u' _ Hb.
  apply (for_each_invariant St
           (fun acc => all_drafts (fun k _ => 0 <= k < 90) (snd acc)));
    [|exact Hb].
  intros th c v c' v' _ Hc.
  apply try_target_drafts; [exact Hquad|exact Hc].
Qed.

Lemma expander_keys_canonical {St}
    (gen : Point -> R -> R -> R -> St -> option Trajectory * St)
    lg drafts s set s' :
  create_complete_minimal_spanning_set gen lg drafts s = (Ok set, s') ->
  (forall k e, expanded_draft drafts k e -> 0 <= k < 180) ->
  forall k', In k' (keys set) -> canonical_heading k' /\ k' <> 180.
Proof.
  intros Hexpand Hstart k' Hk'.
  pose proof (create_complete_keyed _ _ _ _ _ _ _ Hexpand) as Hkeyed.
  destruct (keyed_lookup _ _ Hkeyed Hk') as [p [l [Hl Hp]]].
  assert (Hin : In p (dd_lookup k' set)) by (rewrite Hl; now left).
  apply dd_lookup_in in Hin as [l0 [Hl0 Hin]].
  assert (Hall : all_primitives
                   (fun p => canonical_heading (start_heading p) /\
                             start_heading p <> 180) set).
  { eapply create_complete_all_primitives; [|exact Hexpand].
    intros k e t q Hd. apply reflect_trajectory_start_canonical.
    now apply (Hstart k e). }
  rewrite <- Hp. exact (Hall _ _ _ Hl0 Hin).
Qed.


(** ** A run with an end heading above 180 *)

Lemma dd_lookup_dd_append_in {V} k k' (x d0 : V) d :
  In d0 (dd_lookup k d) -> In d0 (dd_lookup k (dd_append k' x d)).
Proof.
  intros H. destruct (Req_dec_T k k') as [->|Hne].
  - rewrite dict_get_dd_append_same. apply in_or_app. now left.
  - now rewrite dict_get_dd_append_other by congruence.
Qed.

Lemma try_target_keeps {St}
    (gen : Point -> R -> R -> R -> St -> option Trajectory * St)
    lg h pt th acc s acc' s' k d :
  try_target gen lg h pt th acc s = (Ok acc', s') ->
  In d (dd_lookup k (snd acc)) -> In d (dd_lookup k (snd acc')).
Proof.
  unfold try_target. destruct (gen _ _ _ _ s) as [[t|] s1].
  - destruct (is_minimal_path lg (path t) (fst acc)) as [[|]|e];
      intros E Hd; inversion E; subst; simpl; try assumption.
    now apply dd_lookup_dd_append_in.
  - intros E Hd; inversion E; subst. assumption.
Qed.

(** The search for a start heading removes no draft primitive. *)
Lemma search_heading_keeps {St}
    (gen : Point -> R -> R -> R -> St -> option Trajectory * St)
    lg headings start_level h set s set' s' k d :
  search_heading gen lg headings start_level h set s = (Ok set', s') ->
  In d (dd_lookup k set) -> In d (dd_lookup k set').
Proof.
  unfold search_heading, bindM.
  destruct (for_each _ _ _ s) as [[acc|e] s2] eqn:Hloop; [|discriminate].
  unfold ret. intros E Hd; inversion E; subst; clear E.
  revert Hloop.
  apply (for_each_invariant St (fun acc => In d (dd_lookup k (snd acc))));
    [|exact Hd].
  intros level a t a' t' _ Ha. unfold search_level.
  apply (for_each_invariant St (fun acc => In d (dd_lookup k (snd acc))));
    [|exact Ha].
  intros pt b u b' u' _ Hb.
  apply (for_each_invariant St (fun acc => In d (dd_lookup k (snd acc))));
    [|exact Hb].
  intros th c v c' v' _ Hc Htry. eapply try_target_keeps; eauto.
Qed.

Lemma backward_first_feasible lg cands s :
  (exists c, In c cands /\ snd c = -45) ->
  exists c,
    first_feasible backward_generator lg 45 cands s = Some c /\ snd c = -45.
Proof.
  induction cands as [|[pt th] cands IH]; intros [c [Hin Hc]];
    [contradiction|].
  cbn [first_feasible]. unfold backward_generator at 1.
  rewrite Reqb_refl. cbn [andb].
  destruct (Reqb th (-45)) eqn:E.
  - exists (pt, th). split; [reflexivity|]. now apply Reqb_true in E.
  - destruct Hin as [<-|Hin].
    + simpl in Hc. apply Reqb_false in E. contradiction.
    + apply IH. now exists c.
Qed.

Lemma corner_in_coords lg level :
  In (grid_separation lg * IZR level, grid_separation lg * IZR level)
     (get_coords_at_level lg level).
Proof.
  unfold get_coords_at_level. apply in_or_app. right. now left.
Qed.

(** When the search starts at 45 degrees and requests -45 from there, it
    stores a draft primitive from 45 to -45 for [backward_generator]. *)
Lemma backward_search_finds lg s :
  number_of_headings lg <> 0%Z -> grid_separation lg <> 0 ->
  (start_level_of lg <= max_level lg)%Z ->
  In 45 (initial_headings_of (get_heading_discretization lg)) ->
  In (-45) (target_headings_of (get_heading_discretization lg) 45) ->
  exists drafts s',
    single_quadrant_search backward_generator lg s = (Ok drafts, s') /\
    exists c, snd c = -45 /\ In c (dd_lookup 45 drafts).
Proof.
  intros Hn Hgs Hlevel H45 Hm45.
  destruct (single_quadrant_search_total backward_generator lg s Hn Hgs)
    as [drafts [s' Hs]].
  exists drafts, s'. split; [exact Hs|]. revert Hs.
  unfold single_quadrant_search, bindM, lift.
  rewrite compute_min_trajectory_length_ok by assumption.
  unfold Py.div. rewrite (proj2 (Reqb_false _ 0) Hgs).
  fold (start_level_of lg).
  apply (for_each_establishes
           (fun set => exists c, snd c = -45 /\ In c (dd_lookup 45 set))
           _ _ 45 H45).
  - intros h a t a' t' Hbody [c [Hc Hin]]. exists c. split; [exact Hc|].
    eapply search_heading_keeps; eauto.
  - intros a t a' t' Hbody.
    destruct (backward_first_feasible lg
                (candidates lg (get_heading_discretization lg)
                            (start_level_of lg) 45) t) as [c [Hff Hc]].
    { exists ((grid_separation lg * IZR (max_level lg),
               grid_separation lg * IZR (max_level lg)), -45).
      split; [|reflexivity]. unfold candidates.
      apply in_flat_map. exists (max_level lg).
      split; [apply in_range; lia|].
      apply in_flat_map. eexists. split; [apply corner_in_coords|].
      apply in_map_iff. now exists (-45). }
    rewrite search_heading_flat in Hbody. unfold bindM in Hbody.
    destruct (search_first_feasible unit backward_generator lg 45 _ a t c
                Hn Hff) as [acc' [s1 [more [E Hm]]]].
    rewrite E in Hbody. unfold ret in Hbody. inversion Hbody; subst.
    exists c. split; [exact Hc|]. rewrite Hm.
    apply in_or_app. right. now left.
Qed.

(** [backward_generator] lets the search store nothing but draft
    primitives from 45 to -45. *)
Lemma backward_drafts_only lg s s' drafts :
  single_quadrant_search backward_generator lg s = (Ok drafts, s') ->
  all_drafts (fun k d => k = 45 /\ snd d = -45) drafts.
Proof.
  unfold single_quadrant_search, bindM, lift.
  destruct (compute_min_trajectory_length lg) as [ml|e]; [|discriminate].
  destruct (Py.div ml (grid_separation lg)) as [q|e]; [|discriminate].
  apply (for_each_invariant unit
           (all_drafts (fun k d => k = 45 /\ snd d = -45)));
    [|intros k l d []].
  intros start_heading set s0 set' s1 _ Hset.
  unfold search_heading, bindM.
  destruct (for_each _ _ _ s0) as [[acc|e] s2] eqn:Hloop; [|discriminate].
  unfold ret. intros E; inversion E; subst; clear E.
  revert Hloop.
  apply (for_each_invariant unit
           (fun acc => all_drafts (fun k d => k = 45 /\ snd d = -45)
                                  (snd acc)));
    [|exact Hset].
  intros level a t a' t' _ Ha. unfold search_level.
  apply (for_each_invariant unit
           (fun acc => all_drafts (fun k d => k = 45 /\ snd d = -45)
                                  (snd acc)));
    [|exact Ha].
  intros pt b u b' u' _ Hb.
  apply (for_each_invariant unit
           (fun acc => all_drafts (fun k d => k = 45 /\ snd d = -45)
                                  (snd acc)));
    [|exact Hb].
  intros th c v c' v' _ Hc. unfold try_target, backward_generator.
  destruct (Reqb start_heading 45) eqn:E1;
    destruct (Reqb th (-45)) eqn:E2; cbn [andb];
    try (intros E; inversion E; subst; exact Hc).
  reqb_facts. subst.
  destruct (is_minimal_path lg (path example_trajectory) (fst c))
    as [[|]|e]; intros E; inversion E; subst; simpl; try exact Hc.
  apply all_drafts_dd_append; [exact Hc|]. now split.
Qed.

(** The entries the expander reads under a key: those of the set it is
    given, or under 90 the transposed entries of the key 0. *)
Lemma with_90_degrees_lookup drafts k pt e :
  In (pt, e) (dd_lookup k (with_90_degrees drafts)) ->
  (k = 90 /\ exists pt0 e0, In (pt0, e0) (dd_lookup 0 drafts)) \/
  (k <> 90 /\ In (pt, e) (dd_lookup k drafts)).
Proof.
  intros Hin. unfold with_90_degrees in Hin.
  destruct (Req_dec_T k 90) as [->|Hne]; [left|right]; split; try easy.
  - unfold dd_lookup at 1 in Hin. rewrite dict_get_dict_set_same in Hin.
    unfold transpose_to_90 in Hin.
    apply in_map_iff in Hin as [[[x y] e0] [_ Hin]].
    rewrite dd_lookup_dd_touch in Hin. now exists (x, y), e0.
  - unfold dd_lookup at 1 in Hin.
    rewrite dict_get_dict_set_other in Hin by assumption.
    fold (dd_lookup k (dd_touch 0 drafts)) in Hin.
    now rewrite dd_lookup_dd_touch in Hin.
Qed.

Lemma backward_expansion_returns lg drafts s :
  all_drafts (fun k d => k = 45 /\ snd d = -45) drafts ->
  exists set s',
    create_complete_minimal_spanning_set backward_generator lg drafts s
    = (Ok set, s').
Proof.
  intros Hall. unfold create_complete_minimal_spanning_set.
  apply for_each_total_in. intros k _ a s0.
  apply for_each_total_in. intros [pt e] Hd b u.
  apply with_90_degrees_lookup in Hd as [[_ [pt0 [e0 Hd]]]|[_ Hd]];
    apply dd_lookup_in in Hd as [l [Hl Hd]];
    destruct (Hall _ _ _ Hl Hd) as [Hk He]; [lra|].
  simpl in He. subst k e. unfold expand_entry, backward_generator.
  rewrite !Reqb_refl. cbn [andb]. eauto.
Qed.

(** ** Worked examples, continued *)

Lemma example_config_grid : 0 < grid_separation example_config.
Proof. simpl. lra. Qed.

Lemma example_config_radius : 0 <= turning_radius example_config.
Proof. simpl. lra. Qed.

Lemma example_config_headings : (0 < number_of_headings example_config)%Z.
Proof. simpl. lia. Qed.

Lemma example_generator_answers : answers_always example_generator.
Proof. intros pt a b step s. now exists example_trajectory, s. Qed.

Lemma counting_generator_answers : answers_always counting_generator.
Proof. intros pt a b step s. now exists example_trajectory, (S s). Qed.

Lemma coords_at_level_ring_witness :
  length (get_coords_at_level example_config 2) = 5%nat /\
  (forall p, In p (get_coords_at_level example_config 2) ->
     0 <= fst p <= 1 * 2 /\ 0 <= snd p <= 1 * 2 /\
     (fst p = 1 * 2 \/ snd p = 1 * 2)) /\
  last (get_coords_at_level example_config 2) (0, 0) = (1 * 2, 1 * 2).
Proof.
  destruct (coords_at_level_ring example_config 2)
    as [Hlen [Hin [Hlast _]]].
  - simpl. lra.
  - split; [apply Hlen; lia|]. split; [apply Hin; lia|exact Hlast].
Defined.

Lemma point_on_segment_distance_zero_witness :
  point_to_line_distance (0, 0) (2, 0)
    (padd (0, 0) (pscale (1 / 2) (psub (2, 0) (0, 0)))) = 0.
Proof.
  apply (point_on_segment_distance_zero (0, 0) (2, 0) (1 / 2)). lra.
Defined.

Lemma short_path_is_minimal_witness :
  is_minimal_path example_config example_point_path example_priors = Ok true.
Proof.
  apply (short_path_is_minimal example_config example_point_path
           example_priors).
  - simpl. lia.
  - left. simpl. lia.
Defined.

Lemma example_path_rejected :
  is_minimal_path example_config example_path example_priors = Ok false.
Proof.
  destruct (is_minimal_path_reflect example_config example_path
              example_priors) as [b [E Hb]].
  - simpl. lia.
  - reflexivity.
  - rewrite E. f_equal. apply Hb. exact example_path_duplicates.
Qed.

Lemma is_minimal_path_antitone_witness :
  is_minimal_path example_config example_path
    (example_priors ++ [(5, 5, 0)]) = Ok false.
Proof.
  apply (is_minimal_path_antitone example_config example_path example_priors
           (example_priors ++ [(5, 5, 0)])).
  - intros x Hx. apply in_or_app. now left.
  - exact example_path_rejected.
Defined.

Lemma search_drafts_within_bounds_witness :
  exists drafts s',
    single_quadrant_search counting_generator example_config 0%nat
    = (Ok drafts, s') /\
    all_drafts (searched_draft example_config) drafts.
Proof.
  destruct (single_quadrant_search_total counting_generator example_config
              0%nat) as [drafts [s' Hsearch]].
  - simpl. lia.
  - simpl. lra.
  - exists drafts, s'. split; [exact Hsearch|].
    exact (search_drafts_within_bounds counting_generator example_config
             0%nat s' drafts Hsearch).
Defined.

Lemma search_heading_minimality_witness :
  exists set' s',
    search_heading counting_generator example_config [0] 1 0 [] 0%nat
    = (Ok set', s') /\
    exists accepted,
      dd_lookup 0 set' = dd_lookup 0 [] ++ accepted /\
      (forall k, k <> 0 -> dd_lookup k set' = dd_lookup k []) /\
      forall pre d post,
        accepted = pre ++ d :: post ->
        exists t,
          example_answer (fst d) 0 (snd d)
                         (0.1 * grid_separation example_config) = Some t /\
          forall seg prior,
            In seg (path_segments (path t)) ->
            In prior (map end_pose_of pre) ->
            ~ too_close example_config seg prior.
Proof.
  destruct (search_heading_total counting_generator example_config [0] 1 0
              [] 0%nat) as [set' [s' Hsearch]].
  - simpl. lia.
  - exists set', s'. split; [exact Hsearch|].
    exact (search_heading_minimality nat counting_generator example_answer
             (fun _ _ _ _ _ => eq_refl) example_config [0] 1%Z 0 [] set'
             0%nat s' Hsearch).
Defined.

Lemma expander_primitive_count_witness :
  primitive_count example_expanded
  = list_sum
      (map (fun k =>
              list_sum (map (fun d => reflection_count k (snd d))
                            (dd_lookup k (with_90_degrees example_drafts))))
           (keys (with_90_degrees example_drafts))).
Proof.
  exact (expander_primitive_count example_generator example_config
           example_drafts tt tt example_expanded example_expansion).
Defined.

Lemma expander_stores_reflections_witness :
  (forall k pt e,
      In k (keys (with_90_degrees example_drafts)) ->
      In (pt, e) (dd_lookup k (with_90_degrees example_drafts)) ->
      exists t,
        example_answer pt k e (grid_separation example_config) = Some t /\
        forall q, In q (reflect_trajectory k e t) ->
                  stored q example_expanded) /\
  (forall k' l p,
      In (k', l) example_expanded -> In p l ->
      start_heading p = k' /\
      exists k pt e t,
        In k (keys (with_90_degrees example_drafts)) /\
        In (pt, e) (dd_lookup k (with_90_degrees example_drafts)) /\
        example_answer pt k e (grid_separation example_config) = Some t /\
        In p (reflect_trajectory k e t)).
Proof.
  exact (expander_stores_reflections unit example_generator example_answer
           (fun _ _ _ _ _ => eq_refl) example_config example_drafts tt tt
           example_expanded example_expansion).
Defined.

Lemma expander_raises_iff_witness :
  ((exists set s',
       create_complete_minimal_spanning_set example_generator example_config
         example_drafts tt = (Ok set, s')) <->
   (forall k pt e,
       In k (keys (with_90_degrees example_drafts)) ->
       In (pt, e) (dd_lookup k (with_90_degrees example_drafts)) ->
       example_answer pt k e (grid_separation example_config) <> None)) /\
  (forall e s',
      create_complete_minimal_spanning_set example_generator example_config
        example_drafts tt = (Raise e, s') -> e = AttributeError).
Proof.
  exact (expander_raises_iff unit example_generator example_answer
           (fun _ _ _ _ _ => eq_refl) example_config example_drafts tt).
Defined.

Lemma reflections_are_mirror_images_witness :
  exists q1 q2 q3 q4,
    reflect_trajectory 30 45 example_trajectory = [q1; q2; q3; q4] /\
    (start_heading q1 = 30 /\ end_heading q1 = 45) /\
    (start_heading q2 = 180 - 30 /\ end_heading q2 = 180 - 45) /\
    (start_heading q3 = 30 - 180 /\ end_heading q3 = 45 - 180) /\
    (start_heading q4 = - 30 /\ end_heading q4 = - 45) /\
    same_lengths q1 q2 /\ same_lengths q1 q3 /\ same_lengths q1 q4 /\
    positions q2 = map (fun p => (- fst p, snd p)) (positions q1) /\
    positions q3 = map (fun p => (- fst p, - snd p)) (positions q1) /\
    positions q4 = map (fun p => (fst p, - snd p)) (positions q1).
Proof.
  apply (reflections_are_mirror_images 30 45 example_trajectory); lra.
Defined.

Lemma in_place_turns_reciprocal_witness :
  exists prev next,
    In prev (keys example_set) /\ In next (keys example_set) /\
    dd_lookup 0 (add_in_place_turns example_set)
    = dd_lookup 0 example_set ++ [in_place_turn 0 prev; in_place_turn 0 next]
    /\
    (exists before after,
        dd_lookup next (add_in_place_turns example_set)
        = before ++ [in_place_turn next 0; after]) /\
    (exists before earlier,
        dd_lookup prev (add_in_place_turns example_set)
        = before ++ [earlier; in_place_turn prev 0]).
Proof.
  apply (in_place_turns_reciprocal example_set 0).
  - apply example_set_keyed.
  - simpl. now left.
Defined.

Lemma run_output_keyed_by_start_witness :
  exists out s',
    run counting_generator example_config 0%nat = (Ok out, s') /\
    NoDup (keys out) /\
    forall k l, In (k, l) out ->
                l <> [] /\ forall p, In p l -> start_heading p = k.
Proof.
  destruct (run_returns_answered counting_generator example_config 0%nat
              example_config_grid example_config_radius
              example_config_headings counting_generator_answers)
    as [out [s' Hrun]].
  - intros tag. discriminate.
  - exists out, s'. split; [exact Hrun|].
    exact (run_output_keyed_by_start counting_generator example_config
             0%nat s' out Hrun).
Defined.

Lemma run_returns_witness :
  (forall s, exists out s',
      run example_generator example_config s = (Ok out, s')) /\
  (forall s, exists s',
      run example_generator (with_motion_model example_config (OtherModel 0))
          s = (Raise NotImplementedError, s')).
Proof.
  split.
  - apply (run_returns example_generator example_config example_config_grid
             example_config_radius example_config_headings
             example_generator_answers).
    intros tag. discriminate.
  - intros s.
    destruct (proj2 (run_returns example_generator
                       (with_motion_model example_config (OtherModel 0))
                       example_config_grid example_config_radius
                       example_config_headings example_generator_answers)
                    0%nat eq_refl s) as [s' [Hrun _]].
    now exists s'.
Defined.

Lemma omni_failure_keeps_turns_witness :
  handle_motion_model example_no_grid example_set
  = Raises ZeroDivisionError (add_in_place_turns example_set) /\
  handle_motion_model (with_motion_model example_config OMNI) []
  = Returns [].
Proof.
  split.
  - apply (omni_failure_keeps_turns example_no_grid example_set eq_refl).
    now right.
  - apply (omni_failure_keeps_turns (with_motion_model example_config OMNI)
             example_set eq_refl).
    + simpl. lia.
    + simpl. lra.
Defined.

Lemma horizontal_motions_geometry_witness :
  exists left_motion right_motion,
    horizontal_motions 1 3 0 = [left_motion; right_motion] /\
    length (poses left_motion) = 3%nat /\
    length (poses right_motion) = 3%nat /\
    Forall (fun pose => snd pose = deg2rad 0)
           (poses left_motion ++ poses right_motion) /\
    positions right_motion
    = map (fun p => (- fst p, - snd p)) (positions left_motion) /\
    hd (1, 1) (positions left_motion) = (0, 0) /\
    last (positions left_motion) (0, 0)
    = (round5 (1 * cos (deg2rad (0 + 90))),
       round5 (1 * sin (deg2rad (0 + 90)))).
Proof.
  destruct (horizontal_motions_geometry 1 3 0)
    as [l [r [H1 [H2 [H3 [H4 [H5 [H6 H7]]]]]]]]; [lia|].
  exists l, r. repeat (split; [assumption|]).
  split; [apply H6; lia|apply H7; lia].
Defined.

Lemma example_no_level_start :
  (max_level example_no_level < start_level_of example_no_level)%Z.
Proof.
  assert (H : (0 <= start_level_of example_no_level)%Z).
  { apply Int_part_nonneg. simpl. pose proof PI_RGT_0. lra. }
  simpl max_level. lia.
Qed.

Lemma no_trajectory_no_primitive_witness :
  (forall s,
      single_quadrant_search example_generator example_no_level s
      = (Ok [], s) /\
      run example_generator example_no_level s = (Ok [], s)) /\
  (forall s, exists s',
      single_quadrant_search silent_generator example_config s
      = (Ok [], s') /\
      run silent_generator example_config s = (Ok [], s')).
Proof.
  split.
  - intros s.
    destruct (proj1 (no_trajectory_no_primitive example_generator
                       example_no_level ltac:(simpl; lia)
                       ltac:(simpl; lra))
                    example_no_level_start s) as [Hsearch Hrun].
    split; [exact Hsearch|]. apply Hrun. now left.
  - intros s.
    destruct (proj2 (no_trajectory_no_primitive silent_generator
                       example_config ltac:(simpl; lia) ltac:(simpl; lra))
                    (fun _ _ _ _ _ => eq_refl) s) as [s' [Hsearch Hrun]].
    exists s'. split; [exact Hsearch|]. apply Hrun. now left.
Defined.

Lemma example_expanded_drafts k e :
  expanded_draft example_drafts k e -> 0 <= k < 180 /\ 0 <= e < 180.
Proof.
  unfold expanded_draft. rewrite example_with_90. unfold dd_lookup.
  cbn [dict_get].
  destruct (Reqb 0 k) eqn:E0; [|destruct (Reqb 90 k) eqn:E90];
    reqb_facts; cbn [map snd In]; intros H;
    repeat (destruct H as [<-|H]; [|]); try contradiction; lra.
Qed.

Lemma example_backward_expansion :
  create_complete_minimal_spanning_set example_generator example_config
    example_backward_drafts tt
  = (Ok example_backward_expanded, tt).
Proof.
  unfold create_complete_minimal_spanning_set, with_90_degrees,
    example_backward_drafts, dd_touch, dd_lookup.
  cbn [dict_get]. Rdecide. cbn [app dict_get]. Rdecide.
  cbn [transpose_to_90 map dict_set]. Rdecide. cbn [dict_set]. Rdecide.
  cbn [dict_set app keys map fst for_each dict_get]. Rdecide.
  cbn [for_each dict_get]. Rdecide.
  cbn [for_each]. unfold bindM, expand_entry, example_generator, ret.
  reflexivity.
Qed.

Lemma example_backward_draft :
  expanded_draft example_backward_drafts 45 (-45).
Proof.
  unfold expanded_draft, with_90_degrees, example_backward_drafts, dd_touch,
    dd_lookup.
  cbn [dict_get]. Rdecide. cbn [app dict_get]. Rdecide.
  cbn [transpose_to_90 map dict_set]. Rdecide. cbn [dict_set]. Rdecide.
  cbn [dict_set app dict_get]. Rdecide. cbn [map snd]. now left.
Qed.

(** The draft from 45 to -45 is stored as a primitive from 135 to 225. *)
Lemma example_backward_unnormalised :
  exists p,
    stored p example_backward_expanded /\
    start_heading p = 135 /\ end_heading p = 225.
Proof.
  assert (Hin : exists info poses,
             In (mk_primitive (180 - 45) (180 - -45) info poses)
                (reflect_trajectory 45 (-45) example_trajectory)).
  { unfold reflect_trajectory. Rdecide. cbn [andb].
    do 2 eexists. right. left. reflexivity. }
  destruct Hin as [[[[radius len] arc] straight] [poses Hin]].
  exists (mk_primitive (180 - 45) (180 - -45) (radius, len, arc, straight)
                       poses).
  split; [now apply fold_append_stores|].
  unfold mk_primitive. cbn [start_heading end_heading]. split; lra.
Qed.

Lemma heading_of_north_east : heading_of (1%Z, 1%Z) = 45.
Proof.
  unfold heading_of, arctan2. cbn [fst snd]. Rdecide.
  replace (1 / 1) with 1 by field. rewrite atan_1.
  unfold rad2deg. pose proof PI_RGT_0. field. lra.
Qed.

Lemma heading_of_south_east : heading_of (1%Z, (-1)%Z) = -45.
Proof.
  unfold heading_of, arctan2. cbn [fst snd]. Rdecide.
  replace (-1 / 1) with (- (1)) by field. rewrite atan_opp, atan_1.
  unfold rad2deg. pose proof PI_RGT_0. field. lra.
Qed.

(** With eight headings the search starts at 45 degrees and requests the
    end heading -45 from there. *)
Lemma example_backward_request :
  In 45 (initial_headings_of (get_heading_discretization example_config)) /\
  In (-45) (target_headings_of (get_heading_discretization example_config)
                               45).
Proof.
  assert (Hm : max_val example_config = 1%Z).
  { rewrite max_val_div8 by (simpl; lia). reflexivity. }
  assert (H45 : In 45 (get_heading_discretization example_config)).
  { apply in_heading_discretization. exists 1%Z, 1%Z. rewrite Hm.
    split; [apply in_edge_cells; lia|]. now rewrite heading_of_north_east. }
  assert (Hm45 : In (-45) (get_heading_discretization example_config)).
  { apply in_heading_discretization. exists 1%Z, (-1)%Z. rewrite Hm.
    split; [apply in_edge_cells; lia|]. now rewrite heading_of_south_east. }
  split.
  - unfold initial_headings_of.
    eapply Permutation_in; [apply Permutation_sym, sorted_by_perm|].
    apply filter_In. split; [exact H45|]. Rdecide. reflexivity.
  - unfold target_headings_of. apply filter_In. split.
    + eapply Permutation_in; [apply Permutation_sym, sorted_by_perm|].
      exact Hm45.
    + apply Rleb_true. replace (45 - -45) with 90 by lra.
      rewrite Rabs_pos_eq; lra.
Qed.

Lemma example_start_level :
  (start_level_of example_config <= max_level example_config)%Z.
Proof.
  unfold start_level_of, floor. cbn [turning_radius number_of_headings
    grid_separation max_level example_config].
  destruct (base_Int_part (2 * PI * 1 * (1 / 8) / 1)) as [Hle _].
  pose proof PI_4 as Hpi.
  assert (H : IZR (Int_part (2 * PI * 1 * (1 / 8) / 1)) < IZR 3) by lra.
  apply lt_IZR in H. lia.
Qed.

(** A whole run on eight headings whose output holds a primitive from 135
    to 225: the generator answers the requests from 45 to -45, which the
    search makes, and the expander reflects the draft without normalising
    [180 - (-45)]. *)
Lemma run_emits_unnormalised_heading :
  exists set s',
    run backward_generator example_config tt = (Ok set, s') /\
    exists p, stored p set /\ start_heading p = 135 /\ end_heading p = 225.
Proof.
  destruct example_backward_request as [H45 Hm45].
  destruct (backward_search_finds example_config tt)
    as [drafts [s1 [Hsearch [[pt e] [He Hc]]]]];
    [simpl; lia|simpl; lra|exact example_start_level|assumption|assumption|].
  simpl in He. subst e.
  destruct (backward_expansion_returns example_config drafts s1
              (backward_drafts_only _ _ _ _ Hsearch)) as [set [s2 Hexpand]].
  exists set, s2. split.
  - unfold run, generate_minimal_spanning_set, bindM.
    rewrite Hsearch, Hexpand. reflexivity.
  - assert (Hd : expanded_draft drafts 45 (-45)).
    { unfold expanded_draft. apply in_map_iff. exists (pt, -45).
      split; [reflexivity|].
      unfold with_90_degrees, dd_lookup at 1.
      rewrite dict_get_dict_set_other by lra.
      fold (dd_lookup 45 (dd_touch 0 drafts)).
      now rewrite dd_lookup_dd_touch. }
    destruct (expander_stores_entry _ _ _ _ _ _ _ _ Hexpand Hd) as [t Hst].
    assert (Hin : exists info poses,
               In (mk_primitive (180 - 45) (180 - -45) info poses)
                  (reflect_trajectory 45 (-45) t)).
    { unfold reflect_trajectory. Rdecide. cbn [andb].
      do 2 eexists. right. left. reflexivity. }
    destruct Hin as [[[[radius len] arc] straight] [poses Hin]].
    exists (mk_primitive (180 - 45) (180 - -45) (radius, len, arc, straight)
                         poses).
    split; [now apply Hst|].
    unfold mk_primitive. cbn [start_heading end_heading]. split; lra.
Qed.


